(** * cloudflare-token-manager: request pipeline

    A shallow embedding of the request validation, rate-limiting,
    error-categorization and authentication code of the token manager
    (src/lib/rate-limit.ts, src/lib/expiration.ts, src/lib/validation.ts,
    src/lib/errors.ts, src/lib/tracing.ts, src/tools.ts, src/index.ts,
    src/templates.ts, src/cloudflare-client.ts), followed by the
    properties established about it.

    Conventions of the embedding:
    - a JavaScript string is the list of its UTF-16 code units;
    - instants and counters are integers ([Z]), in milliseconds where the
      source uses [Date.now()];
    - a function that can throw returns a [result]; code that reads or
      writes the rate-limit store or the console runs in the monad [M],
      which threads a [World] and keeps its changes when an exception
      propagates;
    - [undefined] is [None]. *)

From Stdlib Require Import ZArith NArith QArith List Sorted Lia Ascii String.
From stdpp Require Import gmap list fin_maps pretty.

#[local] Set Warnings "-register-all".
#[local] Open Scope Z_scope.

(* ===================================================================== *)
(** * Part I: the embedding *)
(* ===================================================================== *)

(** ** JavaScript strings *)

(** A string is the sequence of its UTF-16 code units, so that [length]
    is the source's [.length]. *)
Abbreviation jsstring := (list N).

(** The code units of an ASCII literal. *)
Definition js (s : string) : jsstring :=
  List.map N_of_ascii (list_ascii_of_string s).

(** A string is truthy when it is not empty. *)
Definition truthy (s : jsstring) : bool :=
  match s with [] => false | _ :: _ => true end.

(** [headers.get(..) || ..] and friends: an absent or empty string is falsy. *)
Definition truthy_opt (o : option jsstring) : bool :=
  match o with Some s => truthy s | None => false end.

(** [a || b] on optional strings. *)
Definition or_else (a b : option jsstring) : option jsstring :=
  if truthy_opt a then a else b.

Fixpoint is_prefix (p s : jsstring) : bool :=
  match p, s with
  | [], _ => true
  | _ :: _, [] => false
  | x :: p', y :: s' => N.eqb x y && is_prefix p' s'
  end.

(** [String.prototype.includes]. *)
Fixpoint includes (s needle : jsstring) : bool :=
  is_prefix needle s ||
  match s with
  | [] => false
  | _ :: s' => includes s' needle
  end.

(** ** Exceptions and results *)

Inductive result (E A : Type) : Type :=
| Ok (a : A)
| Throw (e : E).
Arguments Ok {E A} a.
Arguments Throw {E A} e.

(** ** Buffers and [crypto.timingSafeEqual] *)

Definition is_high_surrogate (u : N) : bool := ((0xD800 <=? u) && (u <=? 0xDBFF))%N.
Definition is_low_surrogate (u : N) : bool := ((0xDC00 <=? u) && (u <=? 0xDFFF))%N.

(** The UTF-8 bytes of one code point. *)
Definition utf8_of_code_point (c : N) : list N :=
  (if c <? 0x80 then [c]
   else if c <? 0x800 then [0xC0 + c / 64; 0x80 + c mod 64]
   else if c <? 0x10000 then
     [0xE0 + c / 4096; 0x80 + (c / 64) mod 64; 0x80 + c mod 64]
   else
     [0xF0 + c / 262144; 0x80 + (c / 4096) mod 64;
      0x80 + (c / 64) mod 64; 0x80 + c mod 64])%N.

(** U+FFFD, which the encoder writes for a surrogate without its partner. *)
Definition replacement_bytes : list N := [0xEF; 0xBF; 0xBD]%N.

(** [Buffer.from(s)]: the UTF-8 encoding of a UTF-16 string. *)
Fixpoint Buffer_from (s : jsstring) : list N :=
  match s with
  | [] => []
  | u :: rest =>
      if is_high_surrogate u then
        match rest with
        | l :: rest' =>
            if is_low_surrogate l
            then utf8_of_code_point (0x10000 + (u - 0xD800) * 1024 + (l - 0xDC00))%N
                   ++ Buffer_from rest'
            else replacement_bytes ++ Buffer_from rest
        | [] => replacement_bytes
        end
      else if is_low_surrogate u then replacement_bytes ++ Buffer_from rest
      else utf8_of_code_point u ++ Buffer_from rest
  end.

(** Native errors, by constructor. *)
Inductive native_class := PlainError | TypeErrorC | RangeErrorC | SyntaxErrorC.

(** The comparison loop of [timingSafeEqual]: every pair of bytes is
    visited; differences are accumulated with or/xor. *)
Fixpoint xor_fold (acc : N) (a b : list N) : N :=
  match a, b with
  | x :: a', y :: b' => xor_fold (N.lor acc (N.lxor x y)) a' b'
  | _, _ => acc
  end.

(** [timingSafeEqual(a, b)] throws a RangeError when the byte lengths
    differ; [None] stands for that exception. *)
Definition timingSafeEqual (a b : list N) : option bool :=
  if Nat.eqb (length a) (length b)
  then Some (N.eqb (xor_fold 0%N a b) 0%N)
  else None.

Definition timing_safe_equal_length_message : jsstring :=
  js "Input buffers must have the same byte length".

(** ** JSON values *)

(** Objects are finite maps from property names to values; numbers are
    rationals. *)
Inductive json :=
| JNull
| JBool (b : bool)
| JNum (q : Q)
| JStr (s : jsstring)
| JArr (items : list json)
| JObj (props : gmap jsstring json).

(** ** Classified errors (lib/errors.ts) *)

Inductive ErrorCode :=
| NETWORK_ERROR | TIMEOUT_ERROR | SERVICE_UNAVAILABLE
| VALIDATION_ERROR | NOT_FOUND | UNAUTHORIZED | RATE_LIMITED
| API_ERROR | CLOUDFLARE_API_ERROR
| TOOL_NOT_FOUND | TOOL_EXECUTION_ERROR
| UNKNOWN_ERROR.

(** The class an error object was constructed with (what [instanceof]
    observes), with the fields the subclass adds. *)
Inductive McpClass :=
| McpErrorC
| NetworkErrorC
| TimeoutErrorC
| ValidationErrorC
| RateLimitErrorC (retryAfter : option Z)
| CloudflareApiErrorC (statusCode : option Z) (cfErrors : option (list (Z * jsstring))).

Record McpError := mkMcpError {
  cls : McpClass;
  code : ErrorCode;
  message : jsstring;
  details : option (gmap jsstring json);
  correlationId : option jsstring;
  retryable : bool;
  cause : option jsstring  (* the message of the causing Error *)
}.

(** Values that can be thrown. *)
Inductive thrown :=
| TMcp (e : McpError)
| TNative (c : native_class) (msg : jsstring)
| TDOMException (name msg : jsstring)
| TString (s : jsstring)
| TOther.

(** [new McpError(code, message, options)]. *)
Definition new_McpError (c : ErrorCode) (msg : jsstring)
    (dets : option (gmap jsstring json)) (cid : option jsstring)
    (retry : option bool) (cse : option jsstring) : McpError :=
  {| cls := McpErrorC; code := c; message := msg; details := dets;
     correlationId := cid; retryable := default false retry; cause := cse |}.

Definition new_NetworkError (msg : jsstring) (cid cse : option jsstring) : McpError :=
  {| cls := NetworkErrorC; code := NETWORK_ERROR; message := msg; details := None;
     correlationId := cid; retryable := true; cause := cse |}.

Definition new_TimeoutError (msg : jsstring) (cid cse : option jsstring) : McpError :=
  {| cls := TimeoutErrorC; code := TIMEOUT_ERROR; message := msg; details := None;
     correlationId := cid; retryable := true; cause := cse |}.

Definition new_ValidationError (msg : jsstring)
    (dets : option (gmap jsstring json)) (cid : option jsstring) : McpError :=
  {| cls := ValidationErrorC; code := VALIDATION_ERROR; message := msg; details := dets;
     correlationId := cid; retryable := false; cause := None |}.

(** A number is truthy unless it is zero. *)
Definition truthy_num (o : option Z) : bool :=
  match o with Some n => negb (n =? 0) | None => false end.

Definition new_RateLimitError (msg : jsstring) (retryAfter : option Z)
    (cid : option jsstring) : McpError :=
  {| cls := RateLimitErrorC retryAfter; code := RATE_LIMITED; message := msg;
     details :=
       match retryAfter with
       | Some n =>
           if negb (n =? 0) then Some {[ js "retryAfter" := JNum (inject_Z n) ]} else None
       | None => None
       end;
     correlationId := cid; retryable := true; cause := None |}.

Definition new_CloudflareApiError (msg : jsstring) (statusCode : option Z)
    (cfErrors : option (list (Z * jsstring))) (dets : option (gmap jsstring json))
    (cid cse : option jsstring) : McpError :=
  {| cls := CloudflareApiErrorC statusCode cfErrors; code := CLOUDFLARE_API_ERROR;
     message := msg; details := dets; correlationId := cid;
     retryable :=
       match statusCode with
       | Some n => if negb (n =? 0) then 500 <=? n else false
       | None => false
       end;
     cause := cse |}.

(** [categorized instanceof RateLimitError]. *)
Definition instanceof_RateLimitError (e : McpError) : bool :=
  match cls e with RateLimitErrorC _ => true | _ => false end.

Definition retryAfter_of (e : McpError) : option Z :=
  match cls e with RateLimitErrorC r => r | _ => None end.

(** What the platform supplies and the code only calls. *)
Record Runtime := {
  (** [String.prototype.toLowerCase] *)
  toLowerCase : jsstring -> jsstring;
  (** [new RegExp(pattern).test(s)] *)
  regex_test : jsstring -> jsstring -> bool;
}.

(** The message hints of [categorizeError] for a generic [Error]. *)
Definition categorize_by_message (rt : Runtime) (msg : jsstring)
    (cid : option jsstring) : McpError :=
  let m := toLowerCase rt msg in
  if includes m (js "timeout") || includes m (js "timed out") then
    new_TimeoutError msg cid (Some msg)
  else if includes m (js "network") || includes m (js "fetch")
          || includes m (js "connection") then
    new_NetworkError msg cid (Some msg)
  else if includes m (js "rate limit") then
    new_RateLimitError msg None cid
  else if includes m (js "cloudflare api") then
    new_CloudflareApiError msg None None None cid (Some msg)
  else
    new_McpError UNKNOWN_ERROR msg None cid (Some false) (Some msg).

Definition jsstring_eqb (a b : jsstring) : bool := bool_decide (a = b).

Definition categorizeError (rt : Runtime) (error : thrown)
    (cid : option jsstring) : McpError :=
  match error with
  | TMcp e =>
      if truthy_opt cid && negb (truthy_opt (correlationId e)) then
        new_McpError (code e) (message e) (details e) cid
          (Some (retryable e)) (cause e)
      else e
  | TNative TypeErrorC msg => new_NetworkError msg cid (Some msg)
  | TDOMException name msg =>
      if jsstring_eqb name (js "AbortError")
      then new_TimeoutError (js "Request timed out") cid (Some msg)
      else categorize_by_message rt msg cid
  | TNative _ msg => categorize_by_message rt msg cid
  | TString s => new_McpError UNKNOWN_ERROR s None cid (Some false) None
  | TOther =>
      new_McpError UNKNOWN_ERROR (js "An unknown error occurred") None cid
        (Some false) None
  end.

(** [secureCompare] (index.ts). *)
Definition secureCompare (a b : jsstring) : result thrown bool :=
  if negb (Nat.eqb (length a) (length b)) then
    let dummy := Buffer_from a in
    match timingSafeEqual dummy dummy with
    | Some _ => Ok false
    | None => Throw (TNative RangeErrorC timing_safe_equal_length_message)
    end
  else
    match timingSafeEqual (Buffer_from a) (Buffer_from b) with
    | Some r => Ok r
    | None => Throw (TNative RangeErrorC timing_safe_equal_length_message)
    end.

(** ** The world: the rate-limit stores and the trace of effects *)

Inductive log_level := LDebug | LInfo | LWarn | LError.

(** What a request does besides computing, in program order. *)
Inductive event :=
| EvLog (level : log_level) (msg : jsstring) (* console output *)
| EvReadBody                                 (* [c.req.json()] *)
| EvValidate (tool : jsstring)               (* [validateArgs] entered *)
| EvKvGet (key : jsstring)                   (* [RATE_LIMIT_KV.get] *)
| EvKvPut (key : jsstring)                   (* [RATE_LIMIT_KV.put] *)
| EvMapGet (key : jsstring)                  (* [rateLimitMap.get] *)
| EvMapSet (key : jsstring)                  (* [rateLimitMap.set] *)
| EvToolBody (tool : jsstring).              (* the tool itself runs *)

(** The object [checkRateLimit] writes to KV. *)
Record RateLimitData := mkRateLimitData {
  count : Z;
  timestamps : list Z;
  version : Z
}.

(** A stored JSON value: either one that [RateLimitDataSchema] accepts,
    or any other JSON value. *)
Inductive kv_value :=
| KvData (d : RateLimitData)
| KvOther.

(** A KV entry and the instant at which its [expirationTtl] runs out. *)
Record kv_entry := mkKvEntry {
  kv_val : kv_value;
  kv_expiration : Z
}.

(** An entry of the in-memory [rateLimitMap]. *)
Record mem_entry := mkMemEntry {
  mem_count : Z;
  mem_resetAt : Z
}.

Record World := mkWorld {
  kv : gmap jsstring kv_entry;
  rateLimitMap : gmap jsstring mem_entry;
  trace : list event
}.

Definition emit (e : event) (w : World) : World :=
  {| kv := kv w; rateLimitMap := rateLimitMap w; trace := trace w ++ [e] |}.

(** Computations over the world that may throw; the world a throwing
    computation leaves behind is kept. *)
Definition M (A : Type) : Type := World -> result thrown A * World.

#[global] Instance M_ret : MRet M := fun A a w => (Ok a, w).

#[global] Instance M_bind : MBind M := fun A B f m w =>
  match m w with
  | (Ok a, w') => f a w'
  | (Throw e, w') => (Throw e, w')
  end.

Definition throw {A : Type} (e : thrown) : M A := fun w => (Throw e, w).

(** [try { body } catch (error) { handler(error) }]. *)
Definition try_catch {A : Type} (body : M A) (handler : thrown -> M A) : M A :=
  fun w =>
    match body w with
    | (Ok a, w') => (Ok a, w')
    | (Throw e, w') => handler e w'
    end.

Definition tell (e : event) : M unit := fun w => (Ok tt, emit e w).

Definition lift {A : Type} (r : result thrown A) : M A := fun w => (r, w).

(** ** Environment bindings (types.ts) *)

Inductive KVNamespace := KVBinding.

Record Env := mkEnv {
  CLOUDFLARE_BOOTSTRAP_TOKEN : jsstring;
  MCP_API_KEY : jsstring;
  ALLOWED_ACCOUNT_IDS : option jsstring;
  RATE_LIMIT_PER_MINUTE : option jsstring;
  ENABLE_AUDIT_LOG : option jsstring;
  RATE_LIMIT_KV : option KVNamespace
}.

(** ** The rate limiter (lib/rate-limit.ts) *)

Record RateConfig := mkRateConfig {
  requests : Z;
  windowSeconds : Z
}.

Definition RATE_LIMITS_default : RateConfig :=
  {| requests := 100; windowSeconds := 60 |}.

(** The own properties of [RATE_LIMITS]. *)
Definition RATE_LIMITS (operation : jsstring) : option RateConfig :=
  if jsstring_eqb operation (js "token-ops")
  then Some {| requests := 10; windowSeconds := 60 |}
  else if jsstring_eqb operation (js "default") then Some RATE_LIMITS_default
  else None.

(** Property names every object inherits. For these
    [RATE_LIMITS[operation]] is a truthy value that is no configuration
    (a function, or the prototype): its [requests] and [windowSeconds]
    are [undefined], the limiter computes with [NaN], admits every call
    and never rejects. The embedding of the limiter, on integers, covers
    the other names. *)
Definition inherited_names : list jsstring :=
  List.map js
    ["constructor"; "__proto__"; "hasOwnProperty"; "isPrototypeOf";
     "propertyIsEnumerable"; "toLocaleString"; "toString"; "valueOf";
     "__defineGetter__"; "__defineSetter__"; "__lookupGetter__";
     "__lookupSetter__"]%string.

Definition plain_operation (operation : jsstring) : bool :=
  negb (existsb (jsstring_eqb operation) inherited_names).

(** [RATE_LIMITS[operation] || RATE_LIMITS.default], for a name that is
    read as an own property ([plain_operation]). The properties of the
    limiter below assume such a name, except those about a rejected
    call, which no other name ever receives. *)
Definition rate_config (operation : jsstring) : RateConfig :=
  default RATE_LIMITS_default (RATE_LIMITS operation).

Record RateLimitResult := mkRateLimitResult {
  allowed : bool;
  remaining : Z;
  resetAt : Z
}.

(** Whether the store fails on this call: [get] or [put] rejecting. *)
Record KvFaults := mkKvFaults {
  get_throws : bool;
  put_throws : bool
}.

Definition no_faults : KvFaults := {| get_throws := false; put_throws := false |}.

(** [env.RATE_LIMIT_KV.get(key, 'json')] at instant [now]: an entry whose
    time to live has run out is gone. *)
Definition kv_get (now : Z) (faults : KvFaults) (key : jsstring) : M (option kv_value) :=
  fun w =>
    let w' := emit (EvKvGet key) w in
    if get_throws faults then (Throw (TNative PlainError (js "KV GET failed")), w')
    else
      (Ok match kv w !! key with
          | Some e => if now <? kv_expiration e then Some (kv_val e) else None
          | None => None
          end, w').

(** [env.RATE_LIMIT_KV.put(key, JSON.stringify(d), { expirationTtl })]. *)
Definition kv_put (now : Z) (faults : KvFaults) (key : jsstring) (d : RateLimitData)
    (expirationTtl : Z) : M unit :=
  fun w =>
    let w' := emit (EvKvPut key) w in
    if put_throws faults then (Throw (TNative PlainError (js "KV PUT failed")), w')
    else
      (Ok tt,
       {| kv := <[ key := {| kv_val := KvData d;
                             kv_expiration := now + expirationTtl * 1000 |} ]> (kv w');
          rateLimitMap := rateLimitMap w';
          trace := trace w' |}).

(** [RateLimitDataSchema.safeParse(raw)], then [parsed.success ? parsed.data : null]. *)
Definition safeParse (raw : option kv_value) : option RateLimitData :=
  match raw with
  | Some (KvData d) => Some d
  | _ => None
  end.

Definition limiter_key (operation clientId : jsstring) : jsstring :=
  js "ratelimit:" ++ operation ++ js ":" ++ clientId.

Definition memory_key (operation clientId : jsstring) : jsstring :=
  operation ++ js ":" ++ clientId.

Definition map_get (key : jsstring) : M (option mem_entry) :=
  fun w => (Ok (rateLimitMap w !! key), emit (EvMapGet key) w).

(** [rateLimitMap.set(key, e)]. *)
Definition map_set (key : jsstring) (e : mem_entry) : M unit :=
  fun w =>
    (Ok tt,
     {| kv := kv w; rateLimitMap := <[ key := e ]> (rateLimitMap w);
        trace := trace w ++ [EvMapSet key] |}).

(** [entry.count++] on the object held by the map. *)
Definition map_increment (key : jsstring) (e : mem_entry) : M unit :=
  fun w =>
    (Ok tt,
     {| kv := kv w;
        rateLimitMap :=
          <[ key := {| mem_count := mem_count e + 1; mem_resetAt := mem_resetAt e |} ]>
            (rateLimitMap w);
        trace := trace w |}).

Definition checkRateLimitInMemory (env : Env) (operation clientId : jsstring)
    (now : Z) : M RateLimitResult :=
  let config := rate_config operation in
  let key := memory_key operation clientId in
  let windowMs := windowSeconds config * 1000 in
  entry ← map_get key;
  match entry with
  | Some e =>
      if mem_resetAt e <? now then
        map_set key {| mem_count := 1; mem_resetAt := now + windowMs |};;
        mret {| allowed := true; remaining := requests config - 1;
                resetAt := now + windowMs |}
      else if requests config <=? mem_count e then
        mret {| allowed := false; remaining := 0; resetAt := mem_resetAt e |}
      else
        map_increment key e;;
        mret {| allowed := true; remaining := requests config - (mem_count e + 1);
                resetAt := mem_resetAt e |}
  | None =>
      map_set key {| mem_count := 1; mem_resetAt := now + windowMs |};;
      mret {| allowed := true; remaining := requests config - 1;
              resetAt := now + windowMs |}
  end.

Definition console_error (msg : jsstring) : M unit := tell (EvLog LError msg).

Definition checkRateLimit (env : Env) (operation clientId : jsstring)
    (now : Z) (faults : KvFaults) : M RateLimitResult :=
  match RATE_LIMIT_KV env with
  | None => checkRateLimitInMemory env operation clientId now
  | Some _ =>
      let config := rate_config operation in
      let key := limiter_key operation clientId in
      let windowStart := now - windowSeconds config * 1000 in
      raw ← kv_get now faults key;
      let stored := safeParse raw in
      let timestamps0 := match stored with Some d => timestamps d | None => [] end in
      let version' := match stored with Some d => version d | None => 0 end + 1 in
      let timestamps1 := List.filter (fun ts => windowStart <? ts) timestamps0 in
      let remaining0 := Z.max 0 (requests config - Z.of_nat (length timestamps1)) in
      let resetAt0 :=
        match timestamps1 with
        | ts0 :: _ => ts0 + windowSeconds config * 1000
        | [] => now + windowSeconds config * 1000
        end in
      if requests config <=? Z.of_nat (length timestamps1) then
        mret {| allowed := false; remaining := 0; resetAt := resetAt0 |}
      else
        let timestamps2 := timestamps1 ++ [now] in
        try_catch
          (kv_put now faults key
             {| count := Z.of_nat (length timestamps2); timestamps := timestamps2;
                version := version' |}
             (windowSeconds config * 2))
          (fun error => console_error (js "Rate limit KV write failed"));;
        mret {| allowed := true; remaining := remaining0 - 1; resetAt := resetAt0 |}
  end.

(** ** HTTP requests *)

(** Header names are kept in lower case, as [Headers] keeps them. *)
Record HttpRequest (Body : Type) := mkHttpRequest {
  req_headers : gmap jsstring jsstring;
  req_body : option Body  (* [None]: the body is no JSON text *)
}.
Arguments mkHttpRequest {Body} _ _.
Arguments req_headers {Body} _.
Arguments req_body {Body} _.

(** Header names compare without regard to (ASCII) case. *)
Definition lower_ascii (s : jsstring) : jsstring :=
  List.map (fun u => if ((65 <=? u) && (u <=? 90))%N then (u + 32)%N else u) s.

(** [request.headers.get(name)]. *)
Definition header {Body : Type} (r : HttpRequest Body) (name : string) : option jsstring :=
  req_headers r !! lower_ascii (js name).

(** [a || 'literal'] where [a] is an optional string. *)
Definition or_literal (a : option jsstring) (d : jsstring) : jsstring :=
  match a with
  | Some s => if truthy s then s else d
  | None => d
  end.

(** [getClientId] (lib/rate-limit.ts). *)
Definition getClientId {Body : Type} (request : HttpRequest Body) : jsstring :=
  match header request "X-Client-ID" with
  | Some customId =>
      if truthy customId then js "client:" ++ customId
      else js "ip:" ++ or_literal (header request "CF-Connecting-IP") (js "unknown")
  | None => js "ip:" ++ or_literal (header request "CF-Connecting-IP") (js "unknown")
  end.

(** [String(n)] for an integer. *)
Definition String_of_Z (n : Z) : jsstring := js (pretty n).

(** [Math.ceil(a / b)] for integers, [b] positive. *)
Definition ceil_div (a b : Z) : Z := - ((- a) / b).

Definition rateLimitHeaders (remaining resetAt : Z) : list (jsstring * jsstring) :=
  [ (js "X-RateLimit-Remaining", String_of_Z remaining);
    (js "X-RateLimit-Reset", String_of_Z (ceil_div resetAt 1000)) ].

(** ** Reading the limiter's state; runs of calls *)

(** What a [get] at instant [now] followed by [safeParse] yields. *)
Definition stored_data (now : Z) (key : jsstring) (w : World) : option RateLimitData :=
  match kv w !! key with
  | Some e => if now <? kv_expiration e then safeParse (Some (kv_val e)) else None
  | None => None
  end.

Definition stored_history (now : Z) (key : jsstring) (w : World) : list Z :=
  match stored_data now key w with
  | Some d => timestamps d
  | None => []
  end.

(** Successive calls for one (operation, client), at the given instants. *)
Fixpoint run_limiter (env : Env) (operation clientId : jsstring) (times : list Z)
    (w : World) : list (result thrown RateLimitResult) * World :=
  match times with
  | [] => ([], w)
  | now :: later =>
      let '(r, w') := checkRateLimit env operation clientId now no_faults w in
      let '(rs, w'') := run_limiter env operation clientId later w' in
      (r :: rs, w'')
  end.

(** No state yet for this (operation, client), in either store. *)
Definition fresh_identity (operation clientId : jsstring) (w : World) : Prop :=
  kv w !! limiter_key operation clientId = None /\
  rateLimitMap w !! memory_key operation clientId = None.

(** ** The sliding window, in the words of the description *)

(** The timestamps still inside the window that ends at [now]. *)
Definition surviving (window_ms now : Z) (history : list Z) : list Z :=
  List.filter (fun ts => now - window_ms <? ts) history.

(** The oldest of a list of timestamps. *)
Definition oldest (l : list Z) : option Z :=
  match l with
  | [] => None
  | ts :: l' => Some (fold_right Z.min ts l')
  end.

Definition ascending (l : list Z) : Prop := StronglySorted Z.le l.

(** One admission decision over the list of admitted timestamps: the
    answer and the list to keep. *)
Definition sliding_window_step (cfg : RateConfig) (history : list Z) (now : Z)
    : RateLimitResult * list Z :=
  let window_ms := windowSeconds cfg * 1000 in
  let kept := surviving window_ms now history in
  let reset :=
    match oldest kept with
    | Some ts => ts + window_ms
    | None => now + window_ms
    end in
  if requests cfg <=? Z.of_nat (length kept)
  then ({| allowed := false; remaining := 0; resetAt := reset |}, history)
  else ({| allowed := true;
           remaining := requests cfg - (Z.of_nat (length kept) + 1);
           resetAt := reset |},
        kept ++ [now]).

Fixpoint sliding_window_run (cfg : RateConfig) (history : list Z) (times : list Z)
    : list RateLimitResult :=
  match times with
  | [] => []
  | now :: later =>
      let '(r, history') := sliding_window_step cfg history now in
      r :: sliding_window_run cfg history' later
  end.

(** The claim that the limiter is a sliding window, read on what a caller
    observes: from a fresh identity every run of calls at non-decreasing
    instants is answered as the sliding window answers it. *)
Definition implements_sliding_window (env : Env) : Prop :=
  forall operation clientId times w,
    plain_operation operation = true ->
    fresh_identity operation clientId w ->
    ascending times ->
    fst (run_limiter env operation clientId times w)
    = List.map Ok (sliding_window_run (rate_config operation) [] times).

(** The answers to a burst of calls: the first [requests] are admitted
    with a falling remainder, the others rejected; every answer names the
    end of the window the first call opened. *)
Definition burst_answer (cfg : RateConfig) (first : Z) (i : nat) : RateLimitResult :=
  let accepted := Z.of_nat i <? requests cfg in
  {| allowed := accepted;
     remaining := if accepted then requests cfg - (Z.of_nat i + 1) else 0;
     resetAt := first + windowSeconds cfg * 1000 |}.

Definition env_with_kv : Env :=
  {| CLOUDFLARE_BOOTSTRAP_TOKEN := js "bootstrap-token"; MCP_API_KEY := js "test-api-key";
     ALLOWED_ACCOUNT_IDS := None; RATE_LIMIT_PER_MINUTE := None;
     ENABLE_AUDIT_LOG := None; RATE_LIMIT_KV := Some KVBinding |}.

Definition env_without_kv : Env :=
  {| CLOUDFLARE_BOOTSTRAP_TOKEN := js "bootstrap-token"; MCP_API_KEY := js "test-api-key";
     ALLOWED_ACCOUNT_IDS := None; RATE_LIMIT_PER_MINUTE := None;
     ENABLE_AUDIT_LOG := None; RATE_LIMIT_KV := None |}.

Definition empty_world : World := {| kv := ∅; rateLimitMap := ∅; trace := [] |}.

(** A call that wrote nothing: both stores are as before and the events
    it added contain no write. *)
Definition wrote_nothing (w w' : World) : Prop :=
  kv w' = kv w /\ rateLimitMap w' = rateLimitMap w /\
  exists evs, trace w' = trace w ++ evs /\
              forall key, ~ In (EvKvPut key) evs /\ ~ In (EvMapSet key) evs.

(** What relates the stored entry of one identity to the list of
    admitted timestamps the sliding window keeps: the entry holds that
    list, in admission order, and outlives each timestamp by two windows. *)
Definition kv_tracks (operation clientId : jsstring) (w : World) (hist : list Z) : Prop :=
  ascending hist /\
  ((hist = [] /\ kv w !! limiter_key operation clientId = None) \/
   exists c v expiry,
     kv w !! limiter_key operation clientId
       = Some {| kv_val := KvData {| count := c; timestamps := hist; version := v |};
                 kv_expiration := expiry |} /\
     forall ts, In ts hist ->
                ts + windowSeconds (rate_config operation) * 2 * 1000 <= expiry).

(** Two identities that differ in exactly one component. *)
Definition other_identity (o1 c1 o2 c2 : jsstring) : Prop :=
  (o1 = o2 /\ c1 <> c2) \/ (o1 <> o2 /\ c1 = c2).

Definition world_after_ten_calls : World :=
  snd (run_limiter env_with_kv (js "token-ops") (js "203.0.113.7")
         [1000; 2000; 3000; 4000; 5000; 6000; 7000; 8000; 9000; 10000] empty_world).

(** Strings of code units below 128. *)
Definition ascii_only (s : jsstring) : Prop := List.Forall (fun u => (u < 128)%N) s.

(** ** Schemas and validation (lib/validation.ts) *)

(** A parameter schema, as [jsonSchemaToZod] reads it: the ["type"] and
    the keywords of that type; every keyword may be absent. Property
    lists keep the order of [Object.entries] and have distinct names, as
    the properties of an object do. *)
Inductive Schema :=
| SchString (enum : option (list jsstring)) (minLength maxLength : option N)
    (pattern : option jsstring)
| SchNumber (integer : bool) (minimum maximum : option Q)
| SchBoolean
| SchArray (items : option Schema) (minItems maxItems : option N)
| SchObject (properties : option (list (jsstring * Schema)))
    (required : option (list jsstring))
| SchUntyped.

(** The validators the code builds with zod. [ZObject] is
    [z.object(shape).passthrough()], [ZRecordUnknown] is
    [z.record(z.unknown())]; a bound on a string or an array is present
    when the code added the check. *)
Inductive ZodType :=
| ZString (min max : option N) (regex : option jsstring)
| ZEnum (values : list jsstring)
| ZNumber (int : bool) (min max : option Q)
| ZBoolean
| ZArray (element : ZodType) (min max : option N)
| ZRecordUnknown
| ZObject (shape : list (jsstring * ZodType))
| ZOptional (inner : ZodType)
| ZUnknown.

(** [if (schema.minLength)]: a bound of 0 is falsy and adds no check. *)
Definition truthy_bound (o : option N) : option N :=
  match o with
  | Some n => if (n =? 0)%N then None else Some n
  | None => None
  end.

(** [if (schema.pattern)]. *)
Definition truthy_pattern (o : option jsstring) : option jsstring :=
  match o with
  | Some p => if truthy p then Some p else None
  | None => None
  end.

Definition includes_name (names : list jsstring) (key : jsstring) : bool :=
  existsb (jsstring_eqb key) names.

Fixpoint jsonSchemaToZod (schema : Schema) : ZodType :=
  match schema with
  | SchString enum minLength maxLength pattern =>
      match enum with
      | Some values => ZEnum values
      | None =>
          ZString (truthy_bound minLength) (truthy_bound maxLength) (truthy_pattern pattern)
      end
  | SchNumber integer minimum maximum => ZNumber integer minimum maximum
  | SchBoolean => ZBoolean
  | SchArray items minItems maxItems =>
      let itemSchema :=
        match items with
        | Some s => jsonSchemaToZod s
        | None => ZUnknown
        end in
      ZArray itemSchema (truthy_bound minItems) (truthy_bound maxItems)
  | SchObject properties required =>
      let required' := default [] required in
      match properties with
      | None => ZRecordUnknown
      | Some props =>
          ZObject
            ((fix shape_of (ps : list (jsstring * Schema)) : list (jsstring * ZodType) :=
                match ps with
                | [] => []
                | (key, propSchema) :: ps' =>
                    let propZod := jsonSchemaToZod propSchema in
                    (key, if includes_name required' key then propZod
                          else ZOptional propZod) :: shape_of ps'
                end) props)
      end
  | SchUntyped => ZUnknown
  end.

(** The input schema of a tool. *)
Record InputSchema := mkInputSchema {
  properties : list (jsstring * Schema);
  required : option (list jsstring)
}.

Definition buildToolValidator (inputSchema : InputSchema) : ZodType :=
  jsonSchemaToZod
    (SchObject (Some (properties inputSchema)) (Some (default [] (required inputSchema)))).

(** *** Parsing with a validator *)

Inductive issue_code :=
| invalid_type | invalid_enum_value | too_small | too_big | invalid_string.

Record issue := mkIssue {
  issue_path : list jsstring;
  issue_kind : issue_code
}.

Definition issues_of {A : Type} (r : result (list issue) A) : list issue :=
  match r with Ok _ => [] | Throw found => found end.

Definition is_integer (q : Q) : bool := Pos.eqb (Qden (Qred q)) 1.

Definition check (failed : bool) (path : list jsstring) (k : issue_code) : list issue :=
  if failed then [ {| issue_path := path; issue_kind := k |} ] else [].

(** The outcome of a parse that raised [issues] on the way. *)
Definition settle {A : Type} (issues : list issue) (value : A) : result (list issue) A :=
  match issues with
  | [] => Ok value
  | _ :: _ => Throw issues
  end.

(** Whether a validator accepts [undefined]. *)
Definition accepts_undefined (z : ZodType) : bool :=
  match z with
  | ZOptional _ | ZUnknown => true
  | _ => false
  end.

Definition size_issues (min max : option N) (size : nat) (path : list jsstring)
    : list issue :=
  check (match min with Some n => (N.of_nat size <? n)%N | None => false end) path too_small
  ++ check (match max with Some n => (n <? N.of_nat size)%N | None => false end) path too_big.

(** The values of a list of outcomes, a failed one standing as [null]. *)
Definition values_of (rs : list (result (list issue) json)) : list json :=
  List.map (fun r => match r with Ok v => v | Throw _ => JNull end) rs.

(** The one property name that zod never copies into an object it
    returns ([mergeObjectSync] skips the key [__proto__]); [JSON.parse]
    creates it as an ordinary own property. *)
Definition proto_name : jsstring := js "__proto__".

(** [schema.parse(v)] on a defined value: the parsed value, or every
    issue found. Nothing is converted: a value of another type is an
    [invalid_type] issue. An object parsed by [ZObject] is rebuilt from
    its declared properties, parsed, and its other properties as they
    are; a record is rebuilt from its properties as they are; neither
    receives a property [__proto__]. A declared property is read as an
    own property, which is what [data[key]] reads when the key is no
    name that every object inherits ([inherited_names]). *)
Fixpoint zparse (rt : Runtime) (z : ZodType) (path : list jsstring) (v : json)
    {struct z} : result (list issue) json :=
  match z with
  | ZString min max regex =>
      match v with
      | JStr s =>
          settle
            (size_issues min max (length s) path
             ++ check (match regex with Some p => negb (regex_test rt p s) | None => false end)
                  path invalid_string)
            (JStr s)
      | _ => Throw (check true path invalid_type)
      end
  | ZEnum values =>
      match v with
      | JStr s => settle (check (negb (includes_name values s)) path invalid_enum_value) (JStr s)
      | _ => Throw (check true path invalid_type)
      end
  | ZNumber int min max =>
      match v with
      | JNum q =>
          settle
            (check (int && negb (is_integer q)) path invalid_type
             ++ check (match min with Some m => negb (Qle_bool m q) | None => false end)
                  path too_small
             ++ check (match max with Some m => negb (Qle_bool q m) | None => false end)
                  path too_big)
            (JNum q)
      | _ => Throw (check true path invalid_type)
      end
  | ZBoolean =>
      match v with
      | JBool b => Ok (JBool b)
      | _ => Throw (check true path invalid_type)
      end
  | ZArray element min max =>
      match v with
      | JArr items =>
          let parsed :=
            imap (fun i x => zparse rt element (path ++ [String_of_Z (Z.of_nat i)]) x) items in
          settle
            (size_issues min max (length items) path ++ concat (List.map issues_of parsed))
            (JArr (values_of parsed))
      | _ => Throw (check true path invalid_type)
      end
  | ZRecordUnknown =>
      match v with
      | JObj props => Ok (JObj (delete proto_name props))
      | _ => Throw (check true path invalid_type)
      end
  | ZObject shape =>
      match v with
      | JObj props =>
          let fields :=
            (fix parse_fields (sh : list (jsstring * ZodType))
               : list (jsstring * result (list issue) (option json)) :=
               match sh with
               | [] => []
               | (key, zk) :: sh' =>
                   (key,
                    match props !! key with
                    | Some x =>
                        match zparse rt zk (path ++ [key]) x with
                        | Ok x' => Ok (Some x')
                        | Throw found => Throw found
                        end
                    | None =>
                        if accepts_undefined zk then Ok None
                        else Throw (check true (path ++ [key]) invalid_type)
                    end) :: parse_fields sh'
               end) shape in
          let declared := List.map fst shape in
          let extra := filter (fun kv => includes_name declared (fst kv) = false) props in
          settle
            (concat (List.map (fun f => issues_of (snd f)) fields))
            (JObj
               (delete proto_name
                  (foldr
                     (fun f acc =>
                        match snd f with
                        | Ok (Some x') => <[ fst f := x' ]> acc
                        | _ => acc
                        end)
                     extra fields)))
      | _ => Throw (check true path invalid_type)
      end
  | ZOptional inner => zparse rt inner path v
  | ZUnknown => Ok v
  end.

Fixpoint join (sep : jsstring) (parts : list jsstring) : jsstring :=
  match parts with
  | [] => []
  | [p] => p
  | p :: rest => p ++ sep ++ join sep rest
  end.

(** [path ? `${path}: ${i.message}` : i.message]. *)
Definition render_issue (message_of : issue_code -> jsstring) (i : issue) : jsstring :=
  let path := join (js ".") (issue_path i) in
  if truthy path then path ++ js ": " ++ message_of (issue_kind i)
  else message_of (issue_kind i).

(** [validateArgs]; [message_of] is the text zod gives an issue. *)
Definition validateArgs (rt : Runtime) (message_of : issue_code -> jsstring)
    (toolName : jsstring) (args : json) (inputSchema : InputSchema)
    : result thrown json :=
  let validator := buildToolValidator inputSchema in
  match zparse rt validator [] args with
  | Ok validated => Ok validated
  | Throw issues =>
      Throw (TMcp (new_ValidationError
                     (js "Invalid arguments for " ++ toolName ++ js ": "
                      ++ join (js ", ") (List.map (render_issue message_of) issues))
                     None None))
  end.

(** *** Conformance, in the words of the description *)

Definition within (min max : option N) (size : nat) : Prop :=
  match min with Some n => (n <= N.of_nat size)%N | None => True end /\
  match max with Some n => (N.of_nat size <= n)%N | None => True end.

(** A value conforms to a schema: a string is in the enumeration when
    there is one, else respects the length bounds and the pattern; a
    number lies between the inclusive bounds and, for an integer, has no
    fractional part; a boolean is a boolean; every element of an array
    conforms to the item schema and the item count respects the bounds;
    every declared property of an object that is present conforms to its
    schema and every required property is present. *)
Fixpoint conforms (rt : Runtime) (schema : Schema) (v : json) {struct schema} : Prop :=
  match schema with
  | SchString enum minLength maxLength pattern =>
      match v with
      | JStr s =>
          match enum with
          | Some values => In s values
          | None =>
              within minLength maxLength (length s) /\
              match pattern with Some p => regex_test rt p s = true | None => True end
          end
      | _ => False
      end
  | SchNumber integer minimum maximum =>
      match v with
      | JNum q =>
          (integer = true -> is_integer q = true) /\
          match minimum with Some m => (m <= q)%Q | None => True end /\
          match maximum with Some m => (q <= m)%Q | None => True end
      | _ => False
      end
  | SchBoolean => match v with JBool _ => True | _ => False end
  | SchArray items minItems maxItems =>
      match v with
      | JArr elements =>
          within minItems maxItems (length elements) /\
          match items with
          | Some s => List.Forall (conforms rt s) elements
          | None => True
          end
      | _ => False
      end
  | SchObject properties required =>
      match v with
      | JObj props =>
          (forall key, In key (default [] required) -> is_Some (props !! key)) /\
          match properties with
          | None => True
          | Some ps =>
              (fix each (ps : list (jsstring * Schema)) : Prop :=
                 match ps with
                 | [] => True
                 | (key, s) :: ps' =>
                     match props !! key with
                     | Some x => conforms rt s x
                     | None => True
                     end /\ each ps'
                 end) ps
          end
      | _ => False
      end
  | SchUntyped => True
  end.

(** An argument map conforms to the input schema of a tool. *)
Definition conforms_to_tool (rt : Runtime) (inputSchema : InputSchema) (args : json) : Prop :=
  conforms rt (SchObject (Some (properties inputSchema)) (required inputSchema)) args.

(** The validator of one property, as the loop over
    [Object.entries(properties)] builds it. *)
Definition property_validator (required : list jsstring) (kv : jsstring * Schema)
    : jsstring * ZodType :=
  (fst kv,
   if includes_name required (fst kv) then jsonSchemaToZod (snd kv)
   else ZOptional (jsonSchemaToZod (snd kv))).

(** The outcome for one declared property of an object under parse. *)
Definition field_outcome (rt : Runtime) (props : gmap jsstring json)
    (path : list jsstring) (kz : jsstring * ZodType)
    : jsstring * result (list issue) (option json) :=
  (fst kz,
   match props !! fst kz with
   | Some x =>
       match zparse rt (snd kz) (path ++ [fst kz]) x with
       | Ok x' => Ok (Some x')
       | Throw found => Throw found
       end
   | None =>
       if accepts_undefined (snd kz) then Ok None
       else Throw (check true (path ++ [fst kz]) invalid_type)
   end).

(** The properties a [ZObject] parse collects: those the shape does
    not declare, then each declared property that has a value. *)
Definition rebuild (props : gmap jsstring json) (declared : list jsstring)
    (fields : list (jsstring * result (list issue) (option json)))
    : gmap jsstring json :=
  foldr
    (fun f acc =>
       match snd f with
       | Ok (Some x') => <[ fst f := x' ]> acc
       | _ => acc
       end)
    (filter (fun kv => includes_name declared (fst kv) = false) props) fields.

(** [r] is [v] but for own properties [__proto__]: where [v] has an
    object, [r] has an object with the same properties except, possibly,
    that one; nothing else differs and no value is of another type. *)
Inductive agree_but_proto : json -> json -> Prop :=
| agree_same v : agree_but_proto v v
| agree_items items items' :
    Forall2 agree_but_proto items items' -> agree_but_proto (JArr items) (JArr items')
| agree_props props props' :
    props' !! proto_name = None ->
    (forall key, key <> proto_name ->
                 option_Forall2 agree_but_proto (props !! key) (props' !! key)) ->
    agree_but_proto (JObj props) (JObj props').

(** Some object inside [v] has an own property [__proto__]. *)
Inductive has_proto : json -> Prop :=
| has_proto_own props : is_Some (props !! proto_name) -> has_proto (JObj props)
| has_proto_in_property props key x :
    props !! key = Some x -> has_proto x -> has_proto (JObj props)
| has_proto_in_item items x : In x items -> has_proto x -> has_proto (JArr items).

(** A property name that is read as an own property: no name that every
    object inherits. *)
Definition plain_name (key : jsstring) : bool := negb (includes_name inherited_names key).

(** A schema all of whose declared property names are plain. *)
Fixpoint plain_schema (schema : Schema) : bool :=
  match schema with
  | SchArray (Some item) _ _ => plain_schema item
  | SchObject (Some props) _ =>
      (fix each (ps : list (jsstring * Schema)) : bool :=
         match ps with
         | [] => true
         | (key, s) :: ps' => plain_name key && plain_schema s && each ps'
         end) props
  | _ => true
  end.

Definition plain_tool (inputSchema : InputSchema) : bool :=
  plain_schema (SchObject (Some (properties inputSchema)) (required inputSchema)).

(** A schema under which no object is rebuilt: strings, numbers,
    booleans, untyped values and arrays of these. *)
Fixpoint flat (schema : Schema) : bool :=
  match schema with
  | SchObject _ _ => false
  | SchArray (Some item) _ _ => flat item
  | _ => true
  end.

(** ** Tools (tools.ts) *)

Record MCPTool := mkTool {
  tool_name : jsstring;
  inputSchema : InputSchema
}.

Definition RATE_LIMITED_TOOLS : list jsstring :=
  List.map js ["create_token"; "revoke_token"; "rotate_token"]%string.

Definition string_schema : Schema := SchString None None None None.
Definition token_type_schema : Schema :=
  SchString (Some [js "user"; js "account"]) None None None.
Definition number_schema : Schema := SchNumber false None None.
Definition string_array_schema : Schema := SchArray (Some string_schema) None None.

Definition tool (name : string) (props : list (string * Schema))
    (req : option (list string)) : MCPTool :=
  {| tool_name := js name;
     inputSchema :=
       {| properties := List.map (fun kv => (js (fst kv), snd kv)) props;
          required := option_map (List.map js) req |} |}.

Definition create_token_tool : MCPTool :=
  tool "create_token"
    [("type", token_type_schema); ("accountId", string_schema);
     ("name", string_schema); ("template", string_schema);
     ("permissionGroupIds", string_array_schema);
     ("resourceScope",
      SchString (Some [js "all_accounts"; js "specific_account"; js "all_zones"])
        None None None);
     ("expiresIn", string_schema);
     ("ipAllow", string_array_schema); ("ipDeny", string_array_schema)]%string
    (Some ["type"; "name"]%string).

(** The catalogue, without the descriptions. *)
Definition TOOLS : list MCPTool :=
  [ tool "list_permission_groups" [("filter", string_schema)] None;
    tool "list_templates" [] None;
    tool "get_template" [("templateId", string_schema)] (Some ["templateId"]);
    tool "list_tokens"
      [("type", token_type_schema); ("accountId", string_schema);
       ("page", number_schema); ("perPage", number_schema)]
      (Some ["type"]);
    tool "get_token"
      [("type", token_type_schema); ("accountId", string_schema);
       ("tokenId", string_schema)]
      (Some ["type"; "tokenId"]);
    create_token_tool;
    tool "revoke_token"
      [("type", token_type_schema); ("accountId", string_schema);
       ("tokenId", string_schema)]
      (Some ["type"; "tokenId"]);
    tool "verify_token" [("token", string_schema)] (Some ["token"]);
    tool "rotate_token"
      [("type", token_type_schema); ("accountId", string_schema);
       ("tokenId", string_schema); ("revokeOld", SchBoolean);
       ("newName", string_schema)]
      (Some ["type"; "tokenId"]);
    tool "list_accounts" [] None;
    tool "get_account" [("accountId", string_schema)] (Some ["accountId"]) ]%string.

(** [TOOLS.find(t => t.name === toolName)]. *)
Definition find_tool (toolName : jsstring) : option MCPTool :=
  List.find (fun t => jsstring_eqb (tool_name t) toolName) TOOLS.

(** What the tool does once its arguments are validated and the limiter
    has let it through (account restriction, audit log, provider calls):
    its result as the handler prints it, or what it throws. *)
Definition ToolBody := jsstring -> json -> result thrown jsstring.

(** What a request meets besides its own content: the readings of
    [Date.now()] in [checkRateLimit], in [executeTool] and in
    [handleMCPRequest], the faults of the store, and the two variable
    parts of a generated correlation id. *)
Record Ambient := mkAmbient {
  at_limiter : Z;
  at_retry : Z;
  at_handler : Z;
  faults : KvFaults;
  stamp36 : jsstring;
  random8 : jsstring
}.

(** [executeTool], up to the call of the tool itself. *)
Definition executeTool (rt : Runtime) (message_of : issue_code -> jsstring)
    (body : ToolBody) (toolName : jsstring) (args : json) (env : Env)
    (clientIp : option jsstring) (amb : Ambient) : M jsstring :=
  match find_tool toolName with
  | None => throw (TMcp (new_ValidationError (js "Unknown tool: " ++ toolName) None None))
  | Some t =>
      tell (EvValidate toolName);;
      validatedArgs ← lift (validateArgs rt message_of toolName args (inputSchema t));
      (if includes_name RATE_LIMITED_TOOLS toolName && truthy_opt clientIp then
         rateLimit ← checkRateLimit env (js "token-ops") (default [] clientIp)
                       (at_limiter amb) (faults amb);
         if negb (allowed rateLimit) then
           let retryAfter := ceil_div (resetAt rateLimit - at_retry amb) 1000 in
           throw (TMcp (new_RateLimitError
                          (js "Rate limit exceeded. Try again in "
                           ++ String_of_Z retryAfter ++ js "s")
                          (Some retryAfter) None))
         else mret tt
       else mret tt);;
      tell (EvToolBody toolName);;
      lift (body toolName validatedArgs)
  end.

(** ** The endpoint (index.ts) *)

Record MCPParams := mkParams {
  name : option jsstring;
  arguments : option json
}.

(** A request body that is a JSON object. *)
Record MCPRequest := mkRequest {
  rpc_id : json;
  method : jsstring;
  params : option MCPParams
}.

Inductive rpc_result :=
| ResInitialize
| ResToolsList
| ResToolText (text : jsstring) (isError : bool)
| ResEmpty.

Inductive rpc_payload :=
| RpcResult (r : rpc_result)
| RpcError (code : Z) (message : jsstring) (data_correlationId : jsstring).

Record MCPResponse := mkResponse {
  response_id : json;
  payload : rpc_payload
}.

Record RateLimitInfo := mkRateLimitInfo {
  info_remaining : Z;
  info_resetAt : Z;
  limited : bool
}.

Record MCPResult := mkResult {
  response : MCPResponse;
  rateLimitInfo : option RateLimitInfo
}.

(** [(params?.arguments as Record<string, unknown>) || {}]. *)
Definition arguments_or_empty (p : option MCPParams) : json :=
  match p with
  | Some {| arguments := Some a |} =>
      match a with
      | JNull | JBool false | JStr [] => JObj ∅
      | JNum q => if Qeq_bool q 0 then JObj ∅ else a
      | _ => a
      end
  | _ => JObj ∅
  end.

Definition rpc_error (i : json) (c : Z) (msg cid : jsstring) : MCPResult :=
  {| response := {| response_id := i; payload := RpcError c msg cid |};
     rateLimitInfo := None |}.

Definition rpc_ok (i : json) (r : rpc_result) : MCPResult :=
  {| response := {| response_id := i; payload := RpcResult r |};
     rateLimitInfo := None |}.

Definition logger (level : log_level) (msg : string) : M unit := tell (EvLog level (js msg)).

Definition handleMCPRequest (rt : Runtime) (message_of : issue_code -> jsstring)
    (body : ToolBody) (request : MCPRequest) (env : Env) (clientIp : jsstring)
    (cid : jsstring) (amb : Ambient) : M MCPResult :=
  let m := method request in
  try_catch
    (if jsstring_eqb m (js "initialize") then mret (rpc_ok (rpc_id request) ResInitialize)
     else if jsstring_eqb m (js "tools/list") then
       mret (rpc_ok (rpc_id request) ResToolsList)
     else if jsstring_eqb m (js "tools/call") then
       let toolName :=
         or_literal (match params request with Some p => name p | None => None end) [] in
       let args := arguments_or_empty (params request) in
       if negb (truthy toolName) then
         mret (rpc_error (rpc_id request) (-32602) (js "Missing tool name") cid)
       else
         match find_tool toolName with
         | None =>
             mret (rpc_error (rpc_id request) (-32602)
                     (js "Unknown tool: " ++ toolName) cid)
         | Some _ =>
             try_catch
               (result ← executeTool rt message_of body toolName args env
                           (Some clientIp) amb;
                mret (rpc_ok (rpc_id request) (ResToolText result false)))
               (fun error =>
                  let categorized := categorizeError rt error (Some cid) in
                  logger LError "Tool execution failed";;
                  let info :=
                    if instanceof_RateLimitError categorized
                       && truthy_num (retryAfter_of categorized)
                    then Some {| info_remaining := 0;
                                 info_resetAt :=
                                   at_handler amb
                                   + default 0 (retryAfter_of categorized) * 1000;
                                 limited := true |}
                    else None in
                  mret {| response :=
                            {| response_id := rpc_id request;
                               payload :=
                                 RpcResult
                                   (ResToolText (js "Error: " ++ message categorized)
                                      true) |};
                          rateLimitInfo := info |})
         end
     else if jsstring_eqb m (js "notifications/initialized") || jsstring_eqb m (js "ping")
     then mret (rpc_ok (rpc_id request) ResEmpty)
     else mret (rpc_error (rpc_id request) (-32601) (js "Method not found: " ++ m) cid))
    (fun error =>
       let categorized := categorizeError rt error (Some cid) in
       logger LError "Request handler failed";;
       mret (rpc_error (rpc_id request) (-32603) (message categorized) cid)).

Record HttpResponse := mkHttpResponse {
  status : Z;
  resp_headers : gmap jsstring jsstring;
  resp_body : MCPResponse
}.

(** [generateCorrelationId] and [getOrCreateCorrelationId] (lib/tracing.ts). *)
Definition generateCorrelationId (amb : Ambient) : jsstring :=
  js "ctm-" ++ stamp36 amb ++ js "-" ++ random8 amb.

Definition extractCorrelationId {Body : Type} (r : HttpRequest Body) : option jsstring :=
  or_else (header r "X-Correlation-ID") (or_else (header r "X-Request-ID") None).

Definition getOrCreateCorrelationId {Body : Type} (r : HttpRequest Body) (amb : Ambient) : jsstring :=
  or_literal (extractCorrelationId r) (generateCorrelationId amb).

(** [headers.set(name, value)]. *)
Definition set_header (hs : gmap jsstring jsstring) (kv : jsstring * jsstring)
    : gmap jsstring jsstring :=
  <[ lower_ascii (fst kv) := snd kv ]> hs.

(** The [respond] helper of the endpoint: [c.json(response, status)],
    then the correlation header, then the extra headers. *)
Definition respond (cid : jsstring) (r : MCPResponse) (st : Z)
    (extraHeaders : option (list (jsstring * jsstring))) : HttpResponse :=
  {| status := st;
     resp_headers :=
       foldl set_header
         (set_header
            (set_header ∅ (js "Content-Type", js "application/json; charset=UTF-8"))
            (js "X-Correlation-ID", cid))
         (default [] extraHeaders);
     resp_body := r |}.

(** [response.headers.get(name)]. *)
Definition response_header (r : HttpResponse) (name : string) : option jsstring :=
  resp_headers r !! lower_ascii (js name).

(** The identity the endpoint hands to the limiter. *)
Definition endpoint_clientIp {Body : Type} (r : HttpRequest Body) : jsstring :=
  or_literal (or_else (header r "CF-Connecting-IP") (header r "X-Forwarded-For"))
    (js "unknown").

(** [app.post('/mcp', ...)]: the response, or the exception the handler
    lets escape. *)
Definition mcp_endpoint (rt : Runtime) (message_of : issue_code -> jsstring)
    (body : ToolBody) (env : Env) (req : HttpRequest MCPRequest) (amb : Ambient)
    : M HttpResponse :=
  let cid := getOrCreateCorrelationId req amb in
  let null_error (c : Z) (msg : string) : MCPResponse :=
    {| response_id := JNull; payload := RpcError c (js msg) cid |} in
  authenticated ←
    match header req "X-API-Key" with
    | Some apiKey =>
        if truthy apiKey then lift (secureCompare apiKey (MCP_API_KEY env)) else mret false
    | None => mret false
    end;
  if negb authenticated then
    logger LWarn "Unauthorized request";;
    mret (respond cid (null_error (-32000) "Unauthorized") 401 None)
  else if negb (truthy (CLOUDFLARE_BOOTSTRAP_TOKEN env)) then
    logger LError "Bootstrap token not configured";;
    mret (respond cid (null_error (-32000) "Bootstrap token not configured") 503 None)
  else
    tell EvReadBody;;
    match req_body req with
    | None =>
        logger LWarn "Invalid JSON in request body";;
        mret (respond cid (null_error (-32700) "Parse error") 200 None)
    | Some request =>
        let clientIp := endpoint_clientIp req in
        logger LInfo "Processing MCP request";;
        r ← handleMCPRequest rt message_of body request env clientIp cid amb;
        logger LInfo "Request completed";;
        let headers :=
          match rateLimitInfo r with
          | Some info =>
              Some (rateLimitHeaders (info_remaining info) (info_resetAt info))
          | None => None
          end in
        let st :=
          match rateLimitInfo r with
          | Some info => if limited info then 429 else 200
          | None => 200
          end in
        mret (respond cid (response r) st headers)
    end.

(** Two worlds with the same rate-limit stores. *)
Definition same_stores (w1 w2 : World) : Prop :=
  kv w1 = kv w2 /\ rateLimitMap w1 = rateLimitMap w2.

(** Console output; every other event is a step of the pipeline behind
    the authentication. *)
Definition is_log (e : event) : Prop :=
  match e with EvLog _ _ => True | _ => False end.

(** ** Sample inputs *)

Definition ascii_runtime : Runtime :=
  {| toLowerCase := lower_ascii; regex_test := fun _ _ => true |}.

Definition plain_messages (c : issue_code) : jsstring :=
  match c with
  | invalid_type => js "Invalid type"
  | invalid_enum_value => js "Invalid enum value"
  | too_small => js "Too small"
  | too_big => js "Too big"
  | invalid_string => js "Invalid"
  end.

(** A tool body that succeeds. *)
Definition succeeding_body : ToolBody := fun _ _ => Ok (js "{}").

Definition ambient_at (t : Z) : Ambient :=
  {| at_limiter := t; at_retry := t + 1; at_handler := t + 2; faults := no_faults;
     stamp36 := js "mkz1x2ab"; random8 := js "4fzzzxjy" |}.

Definition create_token_arguments : json :=
  JObj {[ js "type" := JStr (js "user"); js "name" := JStr (js "ci-deploy");
          js "permissionGroupIds" := JArr [JStr (js "c8fed203ed3043cba015a93ad1616f1f")];
          js "note" := JStr (js "kept as it is") ]}.

(** The same arguments, as [JSON.parse] reads them from a text that
    also has a property [__proto__]. *)
Definition create_token_arguments_with_proto : json :=
  JObj {[ js "type" := JStr (js "user"); js "name" := JStr (js "ci-deploy");
          js "permissionGroupIds" := JArr [JStr (js "c8fed203ed3043cba015a93ad1616f1f")];
          js "note" := JStr (js "kept as it is");
          proto_name := JObj {[ js "admin" := JBool true ]} ]}.

Definition create_token_call : MCPRequest :=
  {| rpc_id := JNum 1; method := js "tools/call";
     params := Some {| name := Some (js "create_token");
                       arguments := Some create_token_arguments |} |}.

(** An authenticated [create_token] call from 203.0.113.7. *)
Definition create_token_request : HttpRequest MCPRequest :=
  {| req_headers := {[ js "x-api-key" := js "test-api-key";
                       js "cf-connecting-ip" := js "203.0.113.7" ]};
     req_body := Some create_token_call |}.

(** The same call, naming itself in [X-Client-ID]. *)
Definition create_token_request_from (client : string) : HttpRequest MCPRequest :=
  {| req_headers := {[ js "x-api-key" := js "test-api-key";
                       js "x-client-id" := js client;
                       js "cf-connecting-ip" := js "203.0.113.7" ]};
     req_body := Some create_token_call |}.

(** A call whose key has the length of the expected key, in code units,
    and one byte more in UTF-8. *)
Definition mistyped_key_request (b : option MCPRequest) : HttpRequest MCPRequest :=
  {| req_headers := {[ js "x-api-key" := js "test-api-ke" ++ [233%N] ]};
     req_body := b |}.

(** Successive requests through the endpoint, one second apart. *)
Fixpoint serve (rt : Runtime) (message_of : issue_code -> jsstring) (body : ToolBody)
    (env : Env) (req : HttpRequest MCPRequest) (n : nat) (t : Z) (w : World)
    : list (result thrown HttpResponse) * World :=
  match n with
  | O => ([], w)
  | S n' =>
      let '(r, w') := mcp_endpoint rt message_of body env req (ambient_at t) w in
      let '(rs, w'') := serve rt message_of body env req n' (t + 1000) w' in
      (r :: rs, w'')
  end.

(** What matters of an answer: the status, the two rate-limit headers,
    and whether the body is an error result. *)
Definition digest (r : result thrown HttpResponse)
    : option (Z * option jsstring * option jsstring * option bool) :=
  match r with
  | Ok h =>
      Some (status h, response_header h "X-RateLimit-Remaining",
            response_header h "X-RateLimit-Reset",
            match payload (resp_body h) with
            | RpcResult (ResToolText _ e) => Some e
            | _ => None
            end)
  | Throw _ => None
  end.

(** ** Dates: ECMAScript time values *)

(** A time value is a number of milliseconds since the epoch. The local
    time zone is UTC, as it is in the Workers runtime, so that local time
    and time value coincide. The functions are those of the ECMAScript
    specification of [Date]. *)

Definition msPerDay : Z := 86400000.
Definition msPerHour : Z := 3600000.
Definition msPerMinute : Z := 60000.
Definition msPerSecond : Z := 1000.

Definition Day (t : Z) : Z := t / msPerDay.
Definition TimeWithinDay (t : Z) : Z := t mod msPerDay.

Definition leap_year (y : Z) : bool :=
  (y mod 4 =? 0) && (negb (y mod 100 =? 0) || (y mod 400 =? 0)).

Definition DaysInYear (y : Z) : Z := if leap_year y then 366 else 365.

Definition DayFromYear (y : Z) : Z :=
  365 * (y - 1970) + (y - 1969) / 4 - (y - 1901) / 100 + (y - 1601) / 400.

(** The largest year that starts no later than [t]: a year's length is
    365.2425 days on average, which places the year within one of the
    estimate. *)
Definition YearFromTime (t : Z) : Z :=
  let d := Day t in
  let y0 := 1970 + (400 * d) / 146097 in
  if d <? DayFromYear y0 then y0 - 1
  else if DayFromYear (y0 + 1) <=? d then y0 + 1
  else y0.

Definition DayWithinYear (t : Z) : Z := Day t - DayFromYear (YearFromTime t).

(** The day of the year on which month [m] (0 to 11) starts. *)
Definition month_start (m : Z) (leap : bool) : Z :=
  let l := if leap then 1 else 0 in
  if m <=? 0 then 0
  else if m =? 1 then 31
  else if m =? 2 then 59 + l
  else if m =? 3 then 90 + l
  else if m =? 4 then 120 + l
  else if m =? 5 then 151 + l
  else if m =? 6 then 181 + l
  else if m =? 7 then 212 + l
  else if m =? 8 then 243 + l
  else if m =? 9 then 273 + l
  else if m =? 10 then 304 + l
  else 334 + l.

Definition MonthFromTime (t : Z) : Z :=
  let d := DayWithinYear t in
  let leap := leap_year (YearFromTime t) in
  if d <? month_start 1 leap then 0
  else if d <? month_start 2 leap then 1
  else if d <? month_start 3 leap then 2
  else if d <? month_start 4 leap then 3
  else if d <? month_start 5 leap then 4
  else if d <? month_start 6 leap then 5
  else if d <? month_start 7 leap then 6
  else if d <? month_start 8 leap then 7
  else if d <? month_start 9 leap then 8
  else if d <? month_start 10 leap then 9
  else if d <? month_start 11 leap then 10
  else 11.

Definition DateFromTime (t : Z) : Z :=
  DayWithinYear t - month_start (MonthFromTime t) (leap_year (YearFromTime t)) + 1.

Definition HourFromTime (t : Z) : Z := (t / msPerHour) mod 24.
Definition MinFromTime (t : Z) : Z := (t / msPerMinute) mod 60.
Definition SecFromTime (t : Z) : Z := (t / msPerSecond) mod 60.
Definition msFromTime (t : Z) : Z := t mod msPerSecond.

Definition MakeTime (hour min sec ms : Z) : Z :=
  hour * msPerHour + min * msPerMinute + sec * msPerSecond + ms.

(** The day number of the given date; months beyond 0..11 carry into
    the year, days beyond the month into the following months. *)
Definition MakeDay (year month date : Z) : Z :=
  let ym := year + month / 12 in
  let mn := month mod 12 in
  DayFromYear ym + month_start mn (leap_year ym) + date - 1.

Definition MakeDate (day time : Z) : Z := day * msPerDay + time.

(** A time value out of range is no date ([NaN]). *)
Definition TimeClip (t : Z) : option Z :=
  if Z.abs t <=? 8640000000000000 then Some t else None.

(** [d.setHours(d.getHours() + n)] and its siblings, on a valid date. *)
Definition setHours_plus (t n : Z) : option Z :=
  TimeClip (MakeDate (Day t)
              (MakeTime (HourFromTime t + n) (MinFromTime t) (SecFromTime t) (msFromTime t))).

Definition setDate_plus (t n : Z) : option Z :=
  TimeClip (MakeDate (MakeDay (YearFromTime t) (MonthFromTime t) (DateFromTime t + n))
              (TimeWithinDay t)).

Definition setMonth_plus (t n : Z) : option Z :=
  TimeClip (MakeDate (MakeDay (YearFromTime t) (MonthFromTime t + n) (DateFromTime t))
              (TimeWithinDay t)).

Definition setFullYear_plus (t n : Z) : option Z :=
  TimeClip (MakeDate (MakeDay (YearFromTime t + n) (MonthFromTime t) (DateFromTime t))
              (TimeWithinDay t)).

(** Decimal digits of a natural number, padded with zeros on the left. *)
Definition pad (width : nat) (n : Z) : jsstring :=
  let digits := String_of_Z n in
  repeat 48%N (width - length digits) ++ digits.

(** The text of [toISOString] for a valid date. *)
Definition iso_text (t : Z) : jsstring :=
  let y := YearFromTime t in
  (if (0 <=? y) && (y <=? 9999) then pad 4 y
   else (if y <? 0 then js "-" else js "+") ++ pad 6 (Z.abs y))
  ++ js "-" ++ pad 2 (MonthFromTime t + 1)
  ++ js "-" ++ pad 2 (DateFromTime t)
  ++ js "T" ++ pad 2 (HourFromTime t)
  ++ js ":" ++ pad 2 (MinFromTime t)
  ++ js ":" ++ pad 2 (SecFromTime t)
  ++ js "." ++ pad 3 (msFromTime t)
  ++ js "Z".

(** [d.toISOString()]: a RangeError on an invalid date. *)
Definition toISOString (d : option Z) : result thrown jsstring :=
  match d with
  | Some t => Ok (iso_text t)
  | None => Throw (TNative RangeErrorC (js "Invalid time value"))
  end.

(** ** Expiration (lib/expiration.ts) *)

Definition is_digit (u : N) : bool := ((48 <=? u) && (u <=? 57))%N.

(** The unit letters of the pattern, [d], [h], [m], [y]. *)
Definition is_unit (u : N) : bool :=
  ((u =? 100) || (u =? 104) || (u =? 109) || (u =? 121))%N.

(** The longest prefix of digits, and what follows it. *)
Fixpoint span_digits (s : jsstring) : jsstring * jsstring :=
  match s with
  | u :: s' =>
      if is_digit u then let '(ds, rest) := span_digits s' in (u :: ds, rest)
      else ([], s)
  | [] => ([], [])
  end.

(** [expiresIn.match(/^(\d+)([dhmy])$/)]: the two groups. *)
Definition match_expiration (s : jsstring) : option (jsstring * N) :=
  match span_digits s with
  | ((_ :: _) as amountStr, [u]) => if is_unit u then Some (amountStr, u) else None
  | _ => None
  end.

(** [parseInt(amountStr, 10)] on a string of digits. *)
Definition parseInt (amountStr : jsstring) : Z :=
  fold_left (fun acc u => acc * 10 + (Z.of_N u - 48)) amountStr 0.

(** The [limits] table of [parseExpiresIn]. *)
Definition limits (u : N) : Z :=
  if (u =? 104)%N then 8760
  else if (u =? 100)%N then 365
  else if (u =? 109)%N then 12
  else 10.

(** A string between double quotes. *)
Definition quoted (s : jsstring) : jsstring := [34%N] ++ s ++ [34%N].

Definition parseExpiresIn (expiresIn : option jsstring) (now : Z)
    : result thrown (option jsstring) :=
  match expiresIn with
  | None => Ok None
  | Some s =>
      if negb (truthy s) || jsstring_eqb s (js "never") then Ok None
      else
        match match_expiration s with
        | None =>
            Throw (TMcp (new_ValidationError
                           (js "Invalid expiration format: " ++ quoted s
                            ++ js ". Use formats like " ++ quoted (js "1h")
                            ++ js ", " ++ quoted (js "7d") ++ js ", " ++ quoted (js "30d")
                            ++ js ", " ++ quoted (js "3m") ++ js ", " ++ quoted (js "1y")
                            ++ js ", or " ++ quoted (js "never") ++ js ".")
                           None None))
        | Some (amountStr, u) =>
            let amount := parseInt amountStr in
            if amount <=? 0 then
              Throw (TMcp (new_ValidationError
                             (js "Expiration amount must be greater than 0") None None))
            else if limits u <? amount then
              Throw (TMcp (new_ValidationError
                             (js "Expiration too far in the future. Maximum: "
                              ++ String_of_Z (limits u) ++ [u])
                             None None))
            else
              let date :=
                if (u =? 104)%N then setHours_plus now amount
                else if (u =? 100)%N then setDate_plus now amount
                else if (u =? 109)%N then setMonth_plus now amount
                else setFullYear_plus now amount in
              match toISOString date with
              | Ok text => Ok (Some text)
              | Throw e => Throw e
              end
        end
  end.

(** A string of the accepted form: digits, at least one, then a unit. *)
Definition duration_token (s amountStr : jsstring) (u : N) : Prop :=
  s = amountStr ++ [u] /\ amountStr <> [] /\
  List.Forall (fun c => is_digit c = true) amountStr /\ is_unit u = true.

(** The instants [Date.now()] can yield in this model: from the epoch
    to 8e15 ms after it, far beyond the year 200000. *)
Definition plausible_now (now : Z) : Prop := 0 <= now <= 8000000000000000.


(** The day number on which the month with index [k], counted from
    January of year 0, starts. *)
Definition month_index_start (k : Z) : Z :=
  DayFromYear (k / 12) + month_start (k mod 12) (leap_year (k / 12)).


(** ** What a run of calls admitted *)

(** The instants of a run at which the call was admitted. *)
Fixpoint admitted_times (times : list Z) (answers : list (result thrown RateLimitResult))
    : list Z :=
  match times, answers with
  | t :: times', Ok r :: answers' =>
      if allowed r then t :: admitted_times times' answers'
      else admitted_times times' answers'
  | _ :: times', Throw _ :: answers' => admitted_times times' answers'
  | _, _ => []
  end.

(** The instants of a list that lie in the window of [window_ms]
    milliseconds ending at [t], the bounds read as the filter of the
    limiter reads them: after [t - window_ms], up to [t]. *)
Definition in_window (window_ms t : Z) (l : list Z) : list Z :=
  List.filter (fun a => (t - window_ms <? a) && (a <=? t)) l.

(** *** Schemas whose keywords all become checks *)

(** [jsonSchemaToZod] skips a keyword whose value is falsy and a
    [required] name that is not declared, and [z.unknown()] accepts a
    missing value. A schema is honoured when nothing of it is lost that
    way: no upper bound of 0, no empty pattern, every required name
    declared with a type; an object without [properties] requires
    nothing. *)
Definition typed (s : Schema) : bool :=
  match s with SchUntyped => false | _ => true end.

Definition positive_bound (o : option N) : bool :=
  match o with Some n => negb (n =? 0)%N | None => true end.

Fixpoint honoured (schema : Schema) : bool :=
  match schema with
  | SchString enum minLength maxLength pattern =>
      match enum with
      | Some _ => true
      | None =>
          positive_bound maxLength
          && match pattern with Some p => truthy p | None => true end
      end
  | SchNumber _ _ _ => true
  | SchBoolean => true
  | SchArray items minItems maxItems =>
      positive_bound maxItems
      && match items with Some s => honoured s | None => true end
  | SchObject properties required =>
      match properties with
      | None => match default [] required with [] => true | _ :: _ => false end
      | Some ps =>
          forallb
            (fun key => existsb (fun kv => jsstring_eqb key (fst kv) && typed (snd kv)) ps)
            (default [] required)
          && (fix each (ps : list (jsstring * Schema)) : bool :=
                match ps with
                | [] => true
                | (_, s) :: ps' => honoured s && each ps'
                end) ps
      end
  | SchUntyped => true
  end.

Definition honoured_tool (inputSchema : InputSchema) : bool :=
  honoured (SchObject (Some (properties inputSchema)) (required inputSchema)).

(** ** Regular expressions of the source *)

(** The patterns the source writes as literals are anchored at both ends
    and use character classes, sequence, alternation and repetition
    only; [test] on such a pattern tells whether the whole string is in
    its language. [Void] matches nothing and arises in derivatives. *)
Inductive regex :=
| Void
| Eps
| Class (p : N -> bool)
| Seq (r1 r2 : regex)
| Alt (r1 r2 : regex)
| Star (r : regex).

Fixpoint nullable (r : regex) : bool :=
  match r with
  | Void => false
  | Eps => true
  | Class _ => false
  | Seq r1 r2 => nullable r1 && nullable r2
  | Alt r1 r2 => nullable r1 || nullable r2
  | Star _ => true
  end.

(** What is left of [r] to match after the code unit [u]. *)
Fixpoint deriv (u : N) (r : regex) : regex :=
  match r with
  | Void => Void
  | Eps => Void
  | Class p => if p u then Eps else Void
  | Seq r1 r2 =>
      if nullable r1 then Alt (Seq (deriv u r1) r2) (deriv u r2)
      else Seq (deriv u r1) r2
  | Alt r1 r2 => Alt (deriv u r1) (deriv u r2)
  | Star r1 => Seq (deriv u r1) (Star r1)
  end.

(** [/^r$/.test(s)]. *)
Definition regex_test_anchored (r : regex) (s : jsstring) : bool :=
  nullable (fold_left (fun r u => deriv u r) s r).

(** [r{n}], [r{0,n}], [r{lo,hi}], [r+], [r?] and a literal character. *)
Fixpoint exactly (n : nat) (r : regex) : regex :=
  match n with
  | O => Eps
  | S n' => Seq r (exactly n' r)
  end.

Fixpoint at_most (n : nat) (r : regex) : regex :=
  match n with
  | O => Eps
  | S n' => Alt Eps (Seq r (at_most n' r))
  end.

Definition between (lo hi : nat) (r : regex) : regex :=
  Seq (exactly lo r) (at_most (hi - lo) r).
Definition one_or_more (r : regex) : regex := Seq r (Star r).
Definition optional (r : regex) : regex := Alt Eps r.
Definition literal (c : string) : regex := Class (fun u => bool_decide ([u] = js c)).

(** [\d] (without the [u] flag: the ten ASCII digits). *)
Definition digit : regex := Class is_digit.

(** The language of a pattern. *)
Inductive in_language : regex -> jsstring -> Prop :=
| in_Eps : in_language Eps []
| in_Class p u : p u = true -> in_language (Class p) [u]
| in_Seq r1 r2 s1 s2 :
    in_language r1 s1 -> in_language r2 s2 -> in_language (Seq r1 r2) (s1 ++ s2)
| in_Alt_l r1 r2 s : in_language r1 s -> in_language (Alt r1 r2) s
| in_Alt_r r1 r2 s : in_language r2 s -> in_language (Alt r1 r2) s
| in_Star_nil r : in_language (Star r) []
| in_Star_more r s1 s2 :
    in_language r s1 -> in_language (Star r) s2 -> in_language (Star r) (s1 ++ s2).

(** ** Argument checks (lib/validation.ts) *)

(** A value of type [unknown]: [undefined] or a JSON value. *)
Abbreviation unknown := (option json).

(** A code unit that [[a-f0-9]] matches under the [i] flag, which is
    also what [[0-9a-fA-F]] matches without it: a digit or one of the
    letters a to f in either case. (Without the [u] flag no code unit
    outside ASCII is equated with an ASCII letter.) *)
Definition hex_digit_any_case (u : N) : bool :=
  (is_digit u || ((97 <=? u) && (u <=? 102)) || ((65 <=? u) && (u <=? 70)))%N.

(** [/^[a-f0-9]+$/i], the pattern of [schemas.cfId]. *)
Definition cfId_pattern : regex := one_or_more (Class hex_digit_any_case).

Definition hex_or_colon (u : N) : bool := hex_digit_any_case u || (u =? 58)%N.

(** [/^(\d{1,3}\.){3}\d{1,3}(\/\d{1,2})?$|^([0-9a-fA-F:]+)(\/\d{1,3})?$/],
    the pattern of [schemas.ipCidr]. *)
Definition ipCidr_pattern : regex :=
  Alt (Seq (exactly 3 (Seq (between 1 3 digit) (literal ".")))
         (Seq (between 1 3 digit) (optional (Seq (literal "/") (between 1 2 digit)))))
      (Seq (one_or_more (Class hex_or_colon))
         (optional (Seq (literal "/") (between 1 3 digit)))).

(** [validateTokenType]: [schemas.tokenType] is [z.enum(['user', 'account'])]. *)
Definition validateTokenType (type : unknown) : result thrown jsstring :=
  let refused :=
    Throw (TMcp (new_ValidationError
                   (js "Invalid token type: must be " ++ quoted (js "user") ++ js " or "
                    ++ quoted (js "account"))
                   None None)) in
  match type with
  | Some (JStr s) => if includes_name [js "user"; js "account"] s then Ok s else refused
  | _ => refused
  end.

(** [validateCfId]: [schemas.cfId] is a string of length 32 that matches
    the pattern. [fieldName] is ['ID'] when the argument is left out. *)
Definition validateCfId (id : unknown) (fieldName : option jsstring)
    : result thrown jsstring :=
  let fieldName := default (js "ID") fieldName in
  let refused :=
    Throw (TMcp (new_ValidationError
                   (js "Invalid " ++ fieldName ++ js ": must be a 32-character hex string")
                   None None)) in
  match id with
  | Some (JStr s) =>
      if Nat.eqb (length s) 32 && regex_test_anchored cfId_pattern s then Ok s else refused
  | _ => refused
  end.

Definition validateOptionalCfId (id : unknown) (fieldName : option jsstring)
    : result thrown (option jsstring) :=
  let fieldName := default (js "ID") fieldName in
  match id with
  | None | Some JNull | Some (JStr []) => Ok None
  | _ =>
      match validateCfId id (Some fieldName) with
      | Ok s => Ok (Some s)
      | Throw e => Throw e
      end
  end.

(** What the conversion of an object to a string throws when neither
    [toString] nor [valueOf] yields a primitive value. *)
Definition cannot_convert : thrown :=
  TNative TypeErrorC (js "Cannot convert object to primitive value").

(** The text of a value inside a template literal, which converts it
    with [String]. A number prints as the platform prints it
    ([display]). An array prints its elements joined by commas, a
    [null] element as nothing. An object is converted by its [toString]:
    a parsed object inherits the one that prints [[object Object]],
    unless it has a property of that name, which is no function; then
    [valueOf] is asked, which is no function either or returns the
    object, and the conversion throws a TypeError. *)
Fixpoint template_text (display : Q -> jsstring) (x : json) {struct x}
    : result thrown jsstring :=
  match x with
  | JStr s => Ok s
  | JNull => Ok (js "null")
  | JBool true => Ok (js "true")
  | JBool false => Ok (js "false")
  | JNum q => Ok (display q)
  | JArr items =>
      (fix joined (items : list json) : result thrown jsstring :=
         match items with
         | [] => Ok []
         | item :: rest =>
             match match item with
                   | JNull => Ok []
                   | _ => template_text display item
                   end with
             | Ok text =>
                 match rest with
                 | [] => Ok text
                 | _ :: _ =>
                     match joined rest with
                     | Ok more => Ok (text ++ js "," ++ more)
                     | Throw e => Throw e
                     end
                 end
             | Throw e => Throw e
             end
         end) items
  | JObj props =>
      if bool_decide (is_Some (props !! js "toString")) then Throw cannot_convert
      else Ok (js "[object Object]")
  end.

(** The [throw] of the loop of [validateIpCidrArray]: the message is
    built first, and building it converts the element to a string. *)
Definition invalid_ip {A : Type} (display : Q -> jsstring) (fieldName : jsstring)
    (i : nat) (ip : json) : result thrown A :=
  match template_text display ip with
  | Ok text =>
      Throw (TMcp (new_ValidationError
                     (js "Invalid " ++ fieldName ++ js "[" ++ String_of_Z (Z.of_nat i)
                      ++ js "]: " ++ quoted text
                      ++ js " is not a valid IP address or CIDR range")
                     None None))
  | Throw e => Throw e
  end.

(** The loop of [validateIpCidrArray], from index [i] on. *)
Fixpoint validate_each_ip (display : Q -> jsstring) (fieldName : jsstring) (i : nat)
    (ips : list json) : result thrown (list jsstring) :=
  match ips with
  | [] => Ok []
  | ip :: rest =>
      match ip with
      | JStr s =>
          if regex_test_anchored ipCidr_pattern s then
            match validate_each_ip display fieldName (S i) rest with
            | Ok validated => Ok (s :: validated)
            | Throw e => Throw e
            end
          else invalid_ip display fieldName i ip
      | _ => invalid_ip display fieldName i ip
      end
  end.

Definition validateIpCidrArray (display : Q -> jsstring) (ips : unknown)
    (fieldName : option jsstring) : result thrown (option (list jsstring)) :=
  let fieldName := default (js "IP addresses") fieldName in
  match ips with
  | None | Some JNull => Ok None
  | Some (JArr []) => Ok None
  | Some (JArr items) =>
      match validate_each_ip display fieldName 0 items with
      | Ok validated => Ok (Some validated)
      | Throw e => Throw e
      end
  | Some _ =>
      Throw (TMcp (new_ValidationError (fieldName ++ js " must be an array") None None))
  end.

(** *** The shapes the two patterns admit *)

(** Between [lo] and [hi] decimal digits. *)
Definition digits_between (lo hi : nat) (s : jsstring) : Prop :=
  (lo <= length s <= hi)%nat /\ List.Forall (fun u => is_digit u = true) s.

(** Nothing, or a slash and up to [width] digits. *)
Definition prefix_length (width : nat) (s : jsstring) : Prop :=
  s = [] \/ exists m, s = js "/" ++ m /\ digits_between 1 width m.

(** Four groups of one to three digits separated by dots, with an
    optional prefix length of one or two digits. *)
Definition dotted_quad (s : jsstring) : Prop :=
  exists a b c d suffix,
    s = a ++ js "." ++ b ++ js "." ++ c ++ js "." ++ d ++ suffix /\
    digits_between 1 3 a /\ digits_between 1 3 b /\ digits_between 1 3 c /\
    digits_between 1 3 d /\ prefix_length 2 suffix.

(** Hexadecimal digits and colons, at least one, with an optional prefix
    length of one to three digits. *)
Definition hex_and_colons (s : jsstring) : Prop :=
  exists h suffix,
    s = h ++ suffix /\ h <> [] /\ List.Forall (fun u => hex_or_colon u = true) h /\
    prefix_length 3 suffix.

(** ** More of lib/expiration.ts *)

Definition VALID_EXPIRATION_SHORTCUTS : list jsstring :=
  List.map js ["1h"; "1d"; "7d"; "30d"; "90d"; "1y"; "never"]%string.

(** [/^\d+[dhmy]$/]. *)
Definition expiration_pattern : regex := Seq (one_or_more digit) (Class is_unit).

Definition isValidExpirationFormat (expiresIn : jsstring) : bool :=
  jsstring_eqb expiresIn (js "never") || regex_test_anchored expiration_pattern expiresIn.

(** [`${n} unit${n === 1 ? '' : 's'}`]. *)
Definition counted (n : Z) (unit : string) : jsstring :=
  String_of_Z n ++ js " " ++ js unit ++ (if n =? 1 then [] else js "s").

(** [formatExpiration], read at the instant [now]. [Date_parse] is the
    platform's parser of date strings, [None] standing for an invalid
    date, whose time value is [NaN]: every comparison with it is false
    and the last branch prints it. [Math.floor(a / b)] is the integer
    quotient: from the epoch on the difference of two time values and
    the divisor add up to less than 2^53, so the floating-point quotient
    is not rounded up to the next integer. *)
Definition formatExpiration (Date_parse : jsstring -> option Z)
    (expiresOn : option jsstring) (now : Z) : jsstring :=
  match expiresOn with
  | None => js "Never"
  | Some text =>
      if negb (truthy text) then js "Never"
      else
        match Date_parse text with
        | None => js "NaN years"
        | Some expires =>
            let diffMs := expires - now in
            if diffMs <? 0 then js "Expired"
            else
              let diffHours := diffMs / (1000 * 60 * 60) in
              let diffDays := diffMs / (1000 * 60 * 60 * 24) in
              if diffHours <? 24 then counted diffHours "hour"
              else if diffDays <? 30 then counted diffDays "day"
              else
                let diffMonths := diffDays / 30 in
                if diffMonths <? 12 then counted diffMonths "month"
                else
                  let diffYears := diffDays / 365 in
                  counted diffYears "year"
        end
  end.

(** The error of [parseExpiresIn] for a string that is not of the form. *)
Definition invalid_expiration_format (s : jsstring) : thrown :=
  TMcp (new_ValidationError
          (js "Invalid expiration format: " ++ quoted s
           ++ js ". Use formats like " ++ quoted (js "1h")
           ++ js ", " ++ quoted (js "7d") ++ js ", " ++ quoted (js "30d")
           ++ js ", " ++ quoted (js "3m") ++ js ", " ++ quoted (js "1y")
           ++ js ", or " ++ quoted (js "never") ++ js ".")
          None None).

(** The [resetAt] of each admitted call of a run: the window the call
    was counted in. *)
Fixpoint admitted_windows (answers : list (result thrown RateLimitResult)) : list Z :=
  match answers with
  | Ok r :: answers' =>
      if allowed r then resetAt r :: admitted_windows answers'
      else admitted_windows answers'
  | Throw _ :: answers' => admitted_windows answers'
  | [] => []
  end.

(** How many times [r] occurs in a list of instants. *)
Definition occurrences (r : Z) (l : list Z) : Z :=
  Z.of_nat (length (List.filter (Z.eqb r) l)).

(** ** Templates (templates.ts) *)

Inductive ResourceScope := all_accounts | specific_account | all_zones | specific_zone.

Record TemplatePermission := mkPermission {
  perm_name : jsstring;
  perm_patterns : option (list jsstring)
}.

Record TokenTemplate := mkTemplate {
  template_id : jsstring;
  template_name : jsstring;
  template_description : jsstring;
  template_permissions : list TemplatePermission;
  template_scope : ResourceScope
}.

Definition permission (n : string) (ps : list string) : TemplatePermission :=
  {| perm_name := js n; perm_patterns := Some (List.map js ps) |}.

Definition template (i n d : string) (scope : ResourceScope)
    (perms : list TemplatePermission) : TokenTemplate :=
  {| template_id := js i; template_name := js n; template_description := js d;
     template_permissions := perms; template_scope := scope |}.

Definition TEMPLATES : list TokenTemplate :=
  [ template "full_access" "Full Access"
      "Complete read/write access to all account and zone resources"
      all_accounts
      [ permission "Account Settings Write" ["Account Settings:Edit"];
        permission "Workers Scripts Write" ["Workers Scripts:Edit"; "Worker Scripts:Edit"];
        permission "Workers KV Storage Write" ["Workers KV Storage:Edit"];
        permission "Workers R2 Storage Write" ["Workers R2 Storage:Edit"; "R2:Edit"];
        permission "D1 Write" ["D1:Edit"];
        permission "Durable Objects Write" ["Durable Objects:Edit"];
        permission "Queues Write" ["Queues:Edit"];
        permission "Pages Write" ["Cloudflare Pages:Edit"];
        permission "Images Write" ["Cloudflare Images:Edit"];
        permission "Stream Write" ["Cloudflare Stream:Edit"];
        permission "Zone Settings Write" ["Zone Settings:Edit"];
        permission "DNS Write" ["DNS:Edit"];
        permission "SSL and Certificates Write" ["SSL and Certificates:Edit"];
        permission "Firewall Services Write" ["Firewall Services:Edit"];
        permission "Cache Purge" ["Cache Purge:Purge"];
        permission "Zone Write" ["Zone:Edit"] ];
    template "workers_deploy" "Workers Deploy"
      "Deploy Workers, KV, R2, D1, Queues, Durable Objects"
      all_accounts
      [ permission "Workers Scripts Write" ["Workers Scripts:Edit"];
        permission "Workers Routes Write" ["Workers Routes:Edit"];
        permission "Workers KV Storage Write" ["Workers KV Storage:Edit"];
        permission "Workers R2 Storage Write" ["Workers R2 Storage:Edit"; "R2:Edit"];
        permission "D1 Write" ["D1:Edit"];
        permission "Durable Objects Write" ["Durable Objects:Edit"];
        permission "Queues Write" ["Queues:Edit"];
        permission "Vectorize Write" ["Vectorize:Edit"];
        permission "Workers AI Write" ["Workers AI:Edit"; "AI:Edit"] ];
    template "pages_deploy" "Pages Deploy"
      "Deploy Cloudflare Pages projects"
      all_accounts
      [ permission "Cloudflare Pages Write" ["Cloudflare Pages:Edit"; "Pages:Edit"] ];
    template "dns_only" "DNS Only"
      "DNS record management only"
      all_zones
      [ permission "DNS Write" ["DNS:Edit"] ];
    template "dns_read" "DNS Read"
      "DNS record read-only access"
      all_zones
      [ permission "DNS Read" ["DNS:Read"] ];
    template "cache_purge" "Cache Purge"
      "Cache purge only (for CDN invalidation)"
      all_zones
      [ permission "Cache Purge" ["Cache Purge:Purge"] ];
    template "analytics_read" "Analytics Read"
      "Read-only analytics access"
      all_accounts
      [ permission "Analytics Read" ["Analytics:Read"; "Account Analytics:Read"];
        permission "Zone Analytics Read" ["Zone Analytics:Read"] ];
    template "api_tokens_manage" "API Tokens Manage"
      "Create and manage API tokens (bootstrap token)"
      all_accounts
      [ permission "API Tokens Write" ["API Tokens:Edit"] ];
    template "zero_trust_admin" "Zero Trust Admin"
      "Full access to Zero Trust / Access settings"
      all_accounts
      [ permission "Access: Organizations, Identity Providers, and Groups Write" ["Access:Edit"];
        permission "Access: Apps and Policies Write" ["Access: Apps and Policies:Edit"];
        permission "Zero Trust Write" ["Zero Trust:Edit"] ];
    template "waf_admin" "WAF Admin"
      "Manage WAF rules and security settings"
      all_zones
      [ permission "Firewall Services Write" ["Firewall Services:Edit"];
        permission "WAF Write" ["WAF:Edit"];
        permission "Zone WAF Write" ["Zone WAF:Edit"] ] ]%string.

Definition getTemplate (id : jsstring) : option TokenTemplate :=
  List.find (fun t => jsstring_eqb (template_id t) id) TEMPLATES.

Definition listTemplates : list TokenTemplate := TEMPLATES.

(** ** The provider client (cloudflare-client.ts) *)

Record PermissionGroup := mkGroup {
  group_id : jsstring;
  group_name : jsstring;
  group_description : option jsstring;
  group_scopes : list jsstring
}.

(** A code unit that [\s] matches and [trim] removes: white space and
    line terminators. *)
Definition is_space (u : N) : bool :=
  ((9 <=? u) && (u <=? 13) || (u =? 32) || (u =? 0xA0) || (u =? 0x1680)
   || (0x2000 <=? u) && (u <=? 0x200A) || (u =? 0x2028) || (u =? 0x2029)
   || (u =? 0x202F) || (u =? 0x205F) || (u =? 0x3000) || (u =? 0xFEFF))%N.

(** [s.split(/\s+/)]: [word] is the piece being read, [gap] tells that
    the last code unit was a space. A string that starts or ends with a
    space yields an empty first or last piece. *)
Fixpoint split_spaces (word : jsstring) (gap : bool) (s : jsstring) : list jsstring :=
  match s with
  | [] => [word]
  | u :: s' =>
      if is_space u then
        if gap then split_spaces [] true s' else word :: split_spaces [] true s'
      else split_spaces (word ++ [u]) false s'
  end.

Definition split_whitespace (s : jsstring) : list jsstring := split_spaces [] false s.

(** [groups.find(g => g.name.toLowerCase() === lowerName)]. *)
Definition find_exact (rt : Runtime) (groups : list PermissionGroup) (lowerName : jsstring)
    : option PermissionGroup :=
  List.find (fun g => jsstring_eqb (toLowerCase rt (group_name g)) lowerName) groups.

(** [groups.find(g => g.name.toLowerCase().includes(lower))]. *)
Definition find_including (rt : Runtime) (groups : list PermissionGroup) (lower : jsstring)
    : option PermissionGroup :=
  List.find (fun g => includes (toLowerCase rt (group_name g)) lower) groups.

(** The loop over [perm.patterns], left at the first pattern that finds
    a group. *)
Fixpoint find_by_patterns (rt : Runtime) (groups : list PermissionGroup)
    (patterns : list jsstring) : option PermissionGroup :=
  match patterns with
  | [] => None
  | pattern :: rest =>
      match find_including rt groups (toLowerCase rt pattern) with
      | Some g => Some g
      | None => find_by_patterns rt groups rest
      end
  end.

(** The group [resolvePermissionGroups] settles on for one permission:
    the exact name, else the first pattern found, else every word of
    the name. *)
Definition resolve_permission (rt : Runtime) (groups : list PermissionGroup)
    (perm : TemplatePermission) : option PermissionGroup :=
  let lowerName := toLowerCase rt (perm_name perm) in
  let exact := find_exact rt groups lowerName in
  let by_pattern :=
    match exact, perm_patterns perm with
    | None, Some patterns => find_by_patterns rt groups patterns
    | _, _ => exact
    end in
  match by_pattern with
  | Some g => Some g
  | None =>
      let words := split_whitespace lowerName in
      List.find
        (fun g => forallb (fun w => includes (toLowerCase rt (group_name g)) w) words)
        groups
  end.

(** [resolvePermissionGroups], on the groups [listPermissionGroups]
    returned. *)
Fixpoint resolvePermissionGroups (rt : Runtime) (groups : list PermissionGroup)
    (permissions : list TemplatePermission) : result thrown (list (jsstring * jsstring)) :=
  match permissions with
  | [] => Ok []
  | perm :: rest =>
      match resolve_permission rt groups perm with
      | Some g =>
          match resolvePermissionGroups rt groups rest with
          | Ok resolved => Ok ((group_id g, group_name g) :: resolved)
          | Throw e => Throw e
          end
      | None =>
          Throw (TNative PlainError (js "Required permission not found: " ++ perm_name perm))
      end
  end.

(** *** The cache of permission groups *)

Definition PERMISSION_CACHE_TTL_MS : Z := 5 * 60 * 1000.

(** The module-level cache, and the paths requested so far. *)
Record ClientState := mkClientState {
  permissionGroupsCache : option (list PermissionGroup * Z);
  requested : list jsstring
}.

(** [listPermissionGroups] at instant [now]; [fetched] is the outcome of
    the request, if one is sent. *)
Definition listPermissionGroups (fetched : result thrown (list PermissionGroup)) (now : Z)
    (st : ClientState) : result thrown (list PermissionGroup) * ClientState :=
  let refetch :=
    let st' := {| permissionGroupsCache := permissionGroupsCache st;
                  requested := requested st ++ [js "/user/tokens/permission_groups"] |} in
    match fetched with
    | Ok groups =>
        (Ok groups,
         {| permissionGroupsCache := Some (groups, now + PERMISSION_CACHE_TTL_MS);
            requested := requested st' |})
    | Throw e => (Throw e, st')
    end in
  match permissionGroupsCache st with
  | Some (data, expiresAt) => if now <? expiresAt then (Ok data, st) else refetch
  | None => refetch
  end.

(** *** The resources of a policy *)

(** The [resources] that [createTokenFromTemplate] builds. *)
Definition template_resources (scope : ResourceScope) (type : jsstring)
    (accountId : option jsstring) : gmap jsstring jsstring :=
  let for_accounts : gmap jsstring jsstring :=
    match scope with
    | all_accounts | specific_account =>
        if jsstring_eqb type (js "account") && truthy_opt accountId then
          {[ js "com.cloudflare.api.account." ++ default [] accountId := js "*" ]}
        else {[ js "com.cloudflare.api.account.*" := js "*" ]}
    | _ => ∅
    end in
  match scope with
  | all_zones | specific_account =>
      <[ js "com.cloudflare.api.account.zone.*" := js "*" ]> for_accounts
  | _ => for_accounts
  end.

(** The [resources] of the custom policy of [create_token] (tools.ts). *)
Definition custom_resources (resourceScope accountId : option jsstring)
    : gmap jsstring jsstring :=
  let scope := or_literal resourceScope (js "all_accounts") in
  let for_accounts : gmap jsstring jsstring :=
    if jsstring_eqb scope (js "all_accounts") then
      {[ js "com.cloudflare.api.account.*" := js "*" ]}
    else if jsstring_eqb scope (js "specific_account") && truthy_opt accountId then
      {[ js "com.cloudflare.api.account." ++ default [] accountId := js "*" ]}
    else ∅ in
  if jsstring_eqb scope (js "all_zones") then
    <[ js "com.cloudflare.api.account.zone.*" := js "*" ]> for_accounts
  else for_accounts.

(** ** The account allow-list (tools.ts) *)

(** [s.split(',')]. *)
Fixpoint split_on (sep : N) (word : jsstring) (s : jsstring) : list jsstring :=
  match s with
  | [] => [word]
  | u :: s' =>
      if (u =? sep)%N then word :: split_on sep [] s' else split_on sep (word ++ [u]) s'
  end.

Fixpoint trim_start (s : jsstring) : jsstring :=
  match s with
  | u :: s' => if is_space u then trim_start s' else s
  | [] => []
  end.

(** [s.trim()]. *)
Definition trim (s : jsstring) : jsstring := rev (trim_start (rev (trim_start s))).

(** [env.ALLOWED_ACCOUNT_IDS.split(',').map(s => s.trim())]. *)
Definition allowed_accounts (setting : jsstring) : list jsstring :=
  List.map trim (split_on 44 [] setting).

(** Whether a JSON value is truthy. *)
Definition truthy_json (v : json) : bool :=
  match v with
  | JNull => false
  | JBool b => b
  | JNum q => negb (Qeq_bool q 0)
  | JStr s => truthy s
  | JArr _ | JObj _ => true
  end.

(** [allowed.includes(v)]: only a string is equal to an entry. *)
Definition allowed_includes (allowed : list jsstring) (v : json) : bool :=
  match v with
  | JStr s => includes_name allowed s
  | _ => false
  end.

(** The check [executeTool] makes before the [switch], for every tool:
    whether a call that names an account is refused. *)
Definition access_denied (env : Env) (args : gmap jsstring json) : bool :=
  match ALLOWED_ACCOUNT_IDS env, args !! js "accountId" with
  | Some setting, Some accountId =>
      truthy setting && truthy_json accountId
      && negb (allowed_includes (allowed_accounts setting) accountId)
  | _, _ => false
  end.

(** The check the case [get_account] makes of its own, with no test that
    an account is named: [!allowed.includes(args.accountId)], where an
    absent property is [undefined] and is no entry. *)
Definition get_account_denied (env : Env) (args : gmap jsstring json) : bool :=
  match ALLOWED_ACCOUNT_IDS env with
  | Some setting =>
      truthy setting
      && negb match args !! js "accountId" with
              | Some accountId => allowed_includes (allowed_accounts setting) accountId
              | None => false
              end
  | None => false
  end.

(** [new Error('Access denied: account not in allowed list')]. *)
Definition access_denied_error : thrown :=
  TNative PlainError (js "Access denied: account not in allowed list").

(** What [executeTool] does with the validated arguments, an object,
    once the limiter has let the call through: the check before the
    [switch], then the case of the tool, which for [get_account] starts
    with a check of its own. [provider] is the rest of the case. *)
Definition restricted (env : Env) (provider : ToolBody) : ToolBody :=
  fun toolName args =>
    let props := match args with JObj props => props | _ => ∅ end in
    if access_denied env props then Throw access_denied_error
    else if jsstring_eqb toolName (js "get_account") && get_account_denied env props
         then Throw access_denied_error
         else provider toolName args.

Record Account := mkAccount {
  account_id : jsstring;
  account_name : jsstring;
  account_type : jsstring
}.

(** The accounts [list_accounts] lets through. *)
Definition visible_accounts (env : Env) (accounts : list Account) : list Account :=
  match ALLOWED_ACCOUNT_IDS env with
  | Some setting =>
      if truthy setting then
        List.filter (fun a => includes_name (allowed_accounts setting) (account_id a))
          accounts
      else accounts
  | None => accounts
  end.

(** ** The catalogue of tools, as [executeTool] dispatches it *)

(** The [case] labels of the [switch] of [executeTool]. *)
Definition TOOL_CASES : list jsstring :=
  List.map js
    ["list_permission_groups"; "list_templates"; "get_template"; "list_tokens";
     "get_token"; "create_token"; "revoke_token"; "verify_token"; "rotate_token";
     "list_accounts"; "get_account"]%string.

(* ===================================================================== *)
(** * Part II: properties *)
(* ===================================================================== *)

(** ** The rate limiter *)

Lemma rate_config_cases operation :
  rate_config operation = {| requests := 10; windowSeconds := 60 |} \/
  rate_config operation = {| requests := 100; windowSeconds := 60 |}.
Proof.
  unfold rate_config, RATE_LIMITS, RATE_LIMITS_default.
  destruct (jsstring_eqb operation (js "token-ops")); [left; reflexivity|].
  destruct (jsstring_eqb operation (js "default")); right; reflexivity.
Qed.

Lemma rate_config_positive operation :
  0 < requests (rate_config operation) /\ windowSeconds (rate_config operation) = 60.
Proof. destruct (rate_config_cases operation) as [-> | ->]; simpl; lia. Qed.

Lemma rate_config_token_ops :
  rate_config (js "token-ops") = {| requests := 10; windowSeconds := 60 |}.
Proof. reflexivity. Qed.

Lemma surviving_In window_ms now history ts :
  In ts (surviving window_ms now history) <-> In ts history /\ now - window_ms < ts.
Proof. unfold surviving. rewrite filter_In, Z.ltb_lt. reflexivity. Qed.

Lemma surviving_all window_ms now history :
  (forall ts, In ts history -> now - window_ms < ts) ->
  surviving window_ms now history = history.
Proof.
  unfold surviving. induction history as [|ts h IH]; intros Hall; [reflexivity|].
  simpl. assert ((now - window_ms <? ts) = true) as ->
    by (apply Z.ltb_lt, Hall; left; reflexivity).
  f_equal. apply IH. intros ts' Hin. apply Hall. right. exact Hin.
Qed.

Lemma surviving_none window_ms now history :
  (forall ts, In ts history -> ts <= now - window_ms) ->
  surviving window_ms now history = [].
Proof.
  unfold surviving. induction history as [|ts h IH]; intros Hall; [reflexivity|].
  simpl. assert ((now - window_ms <? ts) = false) as ->
    by (apply Z.ltb_ge, Hall; left; reflexivity).
  apply IH. intros ts' Hin. apply Hall. right. exact Hin.
Qed.

Lemma surviving_ascending window_ms now history :
  ascending history -> ascending (surviving window_ms now history).
Proof.
  unfold ascending, surviving. induction 1 as [|ts h Hs IH Hall]; simpl.
  - constructor.
  - destruct (now - window_ms <? ts); [|exact IH].
    constructor; [exact IH|].
    rewrite List.Forall_forall in *. intros x Hx.
    apply filter_In in Hx. apply Hall, Hx.
Qed.

Lemma fold_min_lower_bound ts l :
  List.Forall (Z.le ts) l -> fold_right Z.min ts l = ts.
Proof. induction 1 as [|x l Hx _ IH]; simpl; [reflexivity|]. rewrite IH. lia. Qed.

(** In a list kept in admission order the first timestamp is the oldest. *)
Lemma oldest_ascending ts l : ascending (ts :: l) -> oldest (ts :: l) = Some ts.
Proof.
  intros Hs. apply StronglySorted_inv in Hs as [_ Hall].
  simpl. f_equal. apply fold_min_lower_bound, Hall.
Qed.

Lemma oldest_is_minimum l ts :
  oldest l = Some ts -> In ts l /\ forall x, In x l -> ts <= x.
Proof.
  destruct l as [|a l]; [discriminate|]. simpl. intros [= <-].
  induction l as [|b l IH]; simpl.
  - split; [left; reflexivity|]. intros x [->|[]]. lia.
  - destruct IH as [Hin Hle].
    destruct (Z.min_spec b (fold_right Z.min a l)) as [[Hlt ->]|[Hge ->]].
    + split; [right; left; reflexivity|].
      intros x [->|[->|Hx]]; [specialize (Hle x (or_introl eq_refl))|lia|
                              specialize (Hle x (or_intror Hx))]; lia.
    + split; [destruct Hin as [Ha|Hl]; [left; exact Ha|right; right; exact Hl]|].
      intros x [->|[->|Hx]]; [apply Hle; left; reflexivity|lia|
                              apply Hle; right; exact Hx].
Qed.

Lemma ascending_snoc l now :
  ascending l -> (forall ts, In ts l -> ts <= now) -> ascending (l ++ [now]).
Proof.
  unfold ascending. induction 1 as [|ts h Hs IH Hall]; intros Hle; simpl.
  - repeat constructor.
  - constructor.
    + apply IH. intros x Hx. apply Hle. right. exact Hx.
    + apply List.Forall_app. split; [exact Hall|].
      constructor; [|constructor]. apply Hle. left. reflexivity.
Qed.

(** A stored value the schema refuses counts as no history. *)
Lemma malformed_entry_is_empty_history now key w expiry :
  kv w !! key = Some {| kv_val := KvOther; kv_expiration := expiry |} ->
  stored_history now key w = [].
Proof.
  intros H. unfold stored_history, stored_data. rewrite H. simpl.
  destruct (now <? expiry); reflexivity.
Qed.

(** The store names of two identities coincide only for equal identities,
    whether they differ in the client or in the operation class. *)
Lemma limiter_key_client_inj operation c1 c2 :
  limiter_key operation c1 = limiter_key operation c2 -> c1 = c2.
Proof.
  unfold limiter_key. intros H.
  do 3 apply app_inv_head in H. exact H.
Qed.

Lemma limiter_key_operation_inj o1 o2 clientId :
  limiter_key o1 clientId = limiter_key o2 clientId -> o1 = o2.
Proof.
  unfold limiter_key. intros H.
  apply app_inv_head in H. rewrite !app_assoc in H.
  apply app_inv_tail in H. apply app_inv_tail in H. exact H.
Qed.

Lemma memory_key_client_inj operation c1 c2 :
  memory_key operation c1 = memory_key operation c2 -> c1 = c2.
Proof.
  unfold memory_key. intros H. do 2 apply app_inv_head in H. exact H.
Qed.

Lemma memory_key_operation_inj o1 o2 clientId :
  memory_key o1 clientId = memory_key o2 clientId -> o1 = o2.
Proof.
  unfold memory_key. intros H. rewrite !app_assoc in H.
  apply app_inv_tail in H. apply app_inv_tail in H. exact H.
Qed.

Lemma other_identity_keys o1 c1 o2 c2 :
  other_identity o1 c1 o2 c2 ->
  limiter_key o1 c1 <> limiter_key o2 c2 /\ memory_key o1 c1 <> memory_key o2 c2.
Proof.
  intros [[-> Hc]|[Ho ->]]; split; intros H.
  - exact (Hc (limiter_key_client_inj _ _ _ H)).
  - exact (Hc (memory_key_client_inj _ _ _ H)).
  - exact (Ho (limiter_key_operation_inj _ _ _ H)).
  - exact (Ho (memory_key_operation_inj _ _ _ H)).
Qed.

(** A call touches the state of its own identity only. *)
Lemma checkRateLimit_frame env operation clientId now faults w :
  let w' := snd (checkRateLimit env operation clientId now faults w) in
  (forall key, key <> limiter_key operation clientId -> kv w' !! key = kv w !! key) /\
  (forall key, key <> memory_key operation clientId ->
               rateLimitMap w' !! key = rateLimitMap w !! key).
Proof.
  unfold checkRateLimit. destruct (RATE_LIMIT_KV env) as [b|].
  - unfold mbind, M_bind, kv_get, try_catch, kv_put, console_error, tell, mret, M_ret.
    simpl. destruct (get_throws faults); simpl; [split; reflexivity|].
    match goal with
    | |- context [requests ?c <=? ?n] => destruct (requests c <=? n)
    end; simpl; [split; reflexivity|].
    destruct (put_throws faults); simpl; [split; reflexivity|].
    split; [|reflexivity]. intros key Hne. apply lookup_insert_ne. congruence.
  - unfold checkRateLimitInMemory, mbind, M_bind, map_get, map_set, map_increment,
      mret, M_ret. simpl.
    destruct (rateLimitMap w !! memory_key operation clientId) as [e|]; simpl.
    + destruct (mem_resetAt e <? now); simpl.
      * split; [reflexivity|]. intros key Hne. apply lookup_insert_ne. congruence.
      * destruct (requests (rate_config operation) <=? mem_count e); simpl;
          [split; reflexivity|].
        split; [reflexivity|]. intros key Hne. apply lookup_insert_ne. congruence.
    + split; [reflexivity|]. intros key Hne. apply lookup_insert_ne. congruence.
Qed.

(** The answer depends on the state of the caller's own identity only. *)
Lemma checkRateLimit_local env operation clientId now faults w1 w2 :
  kv w1 !! limiter_key operation clientId = kv w2 !! limiter_key operation clientId ->
  rateLimitMap w1 !! memory_key operation clientId
    = rateLimitMap w2 !! memory_key operation clientId ->
  fst (checkRateLimit env operation clientId now faults w1)
  = fst (checkRateLimit env operation clientId now faults w2).
Proof.
  intros Hkv Hmap. unfold checkRateLimit. destruct (RATE_LIMIT_KV env) as [b|].
  - unfold mbind, M_bind, kv_get, try_catch, kv_put, console_error, tell, mret, M_ret.
    simpl. rewrite Hkv. destruct (get_throws faults); simpl; [reflexivity|].
    match goal with
    | |- context [requests ?c <=? ?n] => destruct (requests c <=? n)
    end; simpl; [reflexivity|].
    destruct (put_throws faults); reflexivity.
  - unfold checkRateLimitInMemory, mbind, M_bind, map_get, map_set, map_increment,
      mret, M_ret. simpl. rewrite Hmap.
    destruct (rateLimitMap w2 !! memory_key operation clientId) as [e|]; simpl;
      [|reflexivity].
    destruct (mem_resetAt e <? now); simpl; [reflexivity|].
    destruct (requests (rate_config operation) <=? mem_count e); reflexivity.
Qed.

Lemma checkRateLimit_independent env o1 c1 o2 c2 now1 now2 faults1 faults2 w :
  other_identity o1 c1 o2 c2 ->
  fst (checkRateLimit env o2 c2 now2 faults2
         (snd (checkRateLimit env o1 c1 now1 faults1 w)))
  = fst (checkRateLimit env o2 c2 now2 faults2 w).
Proof.
  intros Hother. apply other_identity_keys in Hother as [Hk Hm].
  destruct (checkRateLimit_frame env o1 c1 now1 faults1 w) as [Fk Fm].
  apply checkRateLimit_local; [apply Fk|apply Fm]; congruence.
Qed.

Lemma run_limiter_cons env operation clientId now later w :
  run_limiter env operation clientId (now :: later) w =
    let p := checkRateLimit env operation clientId now no_faults w in
    let q := run_limiter env operation clientId later (snd p) in
    (fst p :: fst q, snd q).
Proof.
  simpl. destruct (checkRateLimit env operation clientId now no_faults w) as [r w'].
  simpl. destruct (run_limiter env operation clientId later w') as [rs w''].
  reflexivity.
Qed.

Lemma empty_world_fresh operation clientId : fresh_identity operation clientId empty_world.
Proof. split; apply lookup_empty. Qed.

(** *** With a bound KV namespace *)

Section WithStore.

Variable env : Env.
Hypothesis Hkv : RATE_LIMIT_KV env = Some KVBinding.

(** The limiter with a store that answers, as one function of the state. *)
Lemma checkRateLimit_kv_unfold operation clientId now w :
  checkRateLimit env operation clientId now no_faults w =
    let cfg := rate_config operation in
    let key := limiter_key operation clientId in
    let window_ms := windowSeconds cfg * 1000 in
    let kept := surviving window_ms now (stored_history now key w) in
    let reset := match kept with ts0 :: _ => ts0 + window_ms | [] => now + window_ms end in
    if requests cfg <=? Z.of_nat (length kept) then
      (Ok {| allowed := false; remaining := 0; resetAt := reset |},
       emit (EvKvGet key) w)
    else
      (Ok {| allowed := true;
             remaining := Z.max 0 (requests cfg - Z.of_nat (length kept)) - 1;
             resetAt := reset |},
       {| kv := <[ key := {| kv_val := KvData
                               {| count := Z.of_nat (length (kept ++ [now]));
                                  timestamps := kept ++ [now];
                                  version := match stored_data now key w with
                                             | Some d => version d | None => 0 end + 1 |};
                             kv_expiration := now + windowSeconds cfg * 2 * 1000 |} ]> (kv w);
          rateLimitMap := rateLimitMap w;
          trace := (trace w ++ [EvKvGet key]) ++ [EvKvPut key] |}).
Proof.
  unfold checkRateLimit. rewrite Hkv.
  unfold mbind, M_bind, kv_get, surviving, stored_history, stored_data. simpl.
  destruct (kv w !! limiter_key operation clientId) as [e|]; simpl;
    [destruct (now <? kv_expiration e); simpl;
       [destruct (kv_val e) as [d|]; simpl|]|];
    match goal with
    | |- context [requests ?c <=? ?n] => destruct (requests c <=? n)
    end; reflexivity.
Qed.

(** A burst in the window opened by [first], with a store: the state
    holds the admitted timestamps, [first] at their head; [k] calls have
    been answered so far. *)
Lemma kv_burst operation clientId first :
  forall times w hist c v expiry k,
    kv w !! limiter_key operation clientId
      = Some {| kv_val := KvData {| count := c; timestamps := first :: hist; version := v |};
                kv_expiration := expiry |} ->
    Z.of_nat (S (length hist)) = Z.min (Z.of_nat k) (requests (rate_config operation)) ->
    (forall ts, In ts hist -> first <= ts) ->
    first + windowSeconds (rate_config operation) * 1000 <= expiry ->
    (forall t, In t times ->
               first <= t < first + windowSeconds (rate_config operation) * 1000) ->
    fst (run_limiter env operation clientId times w)
    = List.map (fun i => Ok (burst_answer (rate_config operation) first i))
        (seq k (length times)).
Proof.
  induction times as [|t times IH]; intros w hist c v expiry k Hw Hk Hhist Hexp Htimes;
    [reflexivity|].
  rewrite run_limiter_cons. cbn zeta. cbn [fst snd length seq List.map].
  destruct (rate_config_positive operation) as [HR HW].
  assert (first <= t < first + windowSeconds (rate_config operation) * 1000) as Ht
    by (apply Htimes; left; reflexivity).
  rewrite checkRateLimit_kv_unfold. cbn zeta.
  assert (stored_history t (limiter_key operation clientId) w = first :: hist) as Hsh.
  { unfold stored_history, stored_data. rewrite Hw. simpl.
    assert ((t <? expiry) = true) as -> by (apply Z.ltb_lt; lia). reflexivity. }
  rewrite Hsh.
  rewrite surviving_all
    by (intros ts [<-|Hin]; [|specialize (Hhist ts Hin)]; lia).
  cbn [length].
  destruct (requests (rate_config operation) <=? Z.of_nat (S (length hist))) eqn:Hfull.
  - apply Z.leb_le in Hfull. cbn [fst snd]. f_equal.
    + f_equal. unfold burst_answer.
      assert ((Z.of_nat k <? requests (rate_config operation)) = false) as ->
        by (apply Z.ltb_ge; lia).
      reflexivity.
    + apply (IH _ hist c v expiry); auto; [lia|].
      intros t' Ht'. apply Htimes. right. exact Ht'.
  - cbn [fst snd]. apply Z.leb_gt in Hfull. f_equal.
    + f_equal. unfold burst_answer.
      assert ((Z.of_nat k <? requests (rate_config operation)) = true) as ->
        by (apply Z.ltb_lt; lia).
      f_equal. lia.
    + eapply (IH _ (hist ++ [t])).
      * cbn [kv]. rewrite lookup_insert_eq. reflexivity.
      * rewrite length_app. simpl. lia.
      * intros ts Hin. apply in_app_or in Hin as [Hin|[<-|[]]]; [apply Hhist, Hin|lia].
      * lia.
      * intros t' Ht'. apply Htimes. right. exact Ht'.
Qed.

Lemma kv_tracks_view operation clientId w hist now :
  kv_tracks operation clientId w hist ->
  surviving (windowSeconds (rate_config operation) * 1000) now
    (stored_history now (limiter_key operation clientId) w)
  = surviving (windowSeconds (rate_config operation) * 1000) now hist.
Proof.
  intros [_ [[-> Hnone]|(c & v & expiry & Hsome & Hexp)]];
    unfold stored_history, stored_data.
  - rewrite Hnone. reflexivity.
  - rewrite Hsome. cbn [kv_expiration kv_val safeParse].
    destruct (now <? expiry) eqn:Hlive; [reflexivity|].
    apply Z.ltb_ge in Hlive. destruct (rate_config_positive operation) as [_ HW].
    symmetry. apply surviving_none.
    intros ts Hin. specialize (Hexp ts Hin). lia.
Qed.

Lemma kv_run_refines operation clientId :
  forall times w hist,
    kv_tracks operation clientId w hist ->
    ascending times ->
    (forall ts t, In ts hist -> In t times -> ts <= t) ->
    fst (run_limiter env operation clientId times w)
    = List.map Ok (sliding_window_run (rate_config operation) hist times).
Proof.
  induction times as [|t times IH]; intros w hist Htr Hasc Hle; [reflexivity|].
  rewrite run_limiter_cons. cbn zeta. cbn [fst snd sliding_window_run].
  destruct (rate_config_positive operation) as [HR HW].
  rewrite checkRateLimit_kv_unfold. cbn zeta.
  rewrite (kv_tracks_view _ _ _ _ _ Htr).
  unfold sliding_window_step.
  set (kept := surviving (windowSeconds (rate_config operation) * 1000) t hist).
  assert (ascending kept) as Hkept by (apply surviving_ascending, Htr).
  assert (match kept with
          | ts0 :: _ => ts0 + windowSeconds (rate_config operation) * 1000
          | [] => t + windowSeconds (rate_config operation) * 1000
          end
          = match oldest kept with
            | Some ts => ts + windowSeconds (rate_config operation) * 1000
            | None => t + windowSeconds (rate_config operation) * 1000
            end) as ->.
  { destruct kept as [|ts0 kept']; [reflexivity|].
    rewrite (oldest_ascending _ _ Hkept). reflexivity. }
  apply StronglySorted_inv in Hasc as [Hasc Hall].
  rewrite List.Forall_forall in Hall.
  destruct (requests (rate_config operation) <=? Z.of_nat (length kept)) eqn:Hfull;
    cbn [fst snd List.map]; f_equal.
  - apply IH; [|exact Hasc|].
    + destruct Htr as [Hs Hst]. split; [exact Hs|]. exact Hst.
    + intros ts t' Hts Ht'. apply Hle; [exact Hts|right; exact Ht'].
  - apply Z.leb_gt in Hfull. do 2 f_equal. lia.
  - assert (forall ts, In ts kept -> ts <= t) as Hkt.
    { intros ts Hin. apply surviving_In in Hin as [Hin _].
      apply Hle; [exact Hin|left; reflexivity]. }
    apply IH; [|exact Hasc|].
    + split; [apply ascending_snoc; assumption|].
      right. eexists _, _, _. split.
      * cbn [kv]. rewrite lookup_insert_eq. reflexivity.
      * intros ts Hin. apply in_app_or in Hin as [Hin|[<-|[]]];
          [specialize (Hkt ts Hin)|]; lia.
    + intros ts t' Hin Ht'. specialize (Hall t' Ht').
      apply in_app_or in Hin as [Hin|[<-|[]]]; [specialize (Hkt ts Hin)|]; lia.
Qed.

(** With a store the limiter is a sliding window. *)
Lemma kv_implements_sliding_window :
  implements_sliding_window env.
Proof.
  intros operation clientId times w _ [Hfresh _] Hasc.
  apply kv_run_refines.
  - split; [constructor|]. left. split; [reflexivity|exact Hfresh].
  - exact Hasc.
  - intros ts t [].
Qed.

(** One call with a store, on the stored state: the answer is the
    sliding window's, an admitted call stores the surviving timestamps
    followed by [now], a rejected call stores nothing. *)
Lemma checkRateLimit_kv_step operation clientId now w :
  let cfg := rate_config operation in
  let key := limiter_key operation clientId in
  let hist := stored_history now key w in
  let kept := surviving (windowSeconds cfg * 1000) now hist in
  let p := checkRateLimit env operation clientId now no_faults w in
  ascending hist ->
  (forall ts, In ts hist -> ts < now - windowSeconds cfg * 1000 -> ~ In ts kept) /\
  fst p = Ok (fst (sliding_window_step cfg hist now)) /\
  (kept = [] -> exists r, fst p = Ok r /\ resetAt r = now + windowSeconds cfg * 1000) /\
  (Z.of_nat (length kept) < requests cfg ->
     stored_history now key (snd p) = kept ++ [now]) /\
  (requests cfg <= Z.of_nat (length kept) -> kv (snd p) = kv w).
Proof.
  intros cfg key hist kept p Hasc. subst p cfg key.
  rewrite checkRateLimit_kv_unfold. cbn zeta.
  fold hist. fold kept.
  destruct (rate_config_positive operation) as [HR HW].
  assert (ascending kept) as Hkept by (apply surviving_ascending, Hasc).
  split; [|split; [|split; [|split]]].
  - intros ts _ Hold Hin. apply surviving_In in Hin as [_ Hnew]. lia.
  - unfold sliding_window_step. fold kept.
    destruct (requests (rate_config operation) <=? Z.of_nat (length kept)) eqn:Hfull;
      cbn [fst snd].
    + destruct kept as [|ts0 kept']; [reflexivity|].
      rewrite (oldest_ascending _ _ Hkept). reflexivity.
    + apply Z.leb_gt in Hfull.
      destruct kept as [|ts0 kept']; [|rewrite (oldest_ascending _ _ Hkept)];
        cbn [oldest]; do 2 f_equal; lia.
  - intros ->. cbn [length].
    assert ((requests (rate_config operation) <=? Z.of_nat 0) = false) as ->
      by (apply Z.leb_gt; lia).
    eexists. split; [reflexivity|]. reflexivity.
  - intros Hroom.
    assert ((requests (rate_config operation) <=? Z.of_nat (length kept)) = false) as ->
      by (apply Z.leb_gt; lia).
    cbn [fst snd]. unfold stored_history, stored_data. cbn [kv].
    rewrite lookup_insert_eq. cbn [kv_expiration kv_val safeParse timestamps].
    assert ((now <? now + windowSeconds (rate_config operation) * 2 * 1000) = true) as ->
      by (apply Z.ltb_lt; lia).
    reflexivity.
  - intros Hfull.
    assert ((requests (rate_config operation) <=? Z.of_nat (length kept)) = true) as ->
      by (apply Z.leb_le; lia).
    reflexivity.
Qed.

(** A write that fails is logged and the request is admitted all the same. *)
Lemma kv_write_failure_still_allows operation clientId now w :
  let cfg := rate_config operation in
  let key := limiter_key operation clientId in
  let kept := surviving (windowSeconds cfg * 1000) now (stored_history now key w) in
  let p := checkRateLimit env operation clientId now
             {| get_throws := false; put_throws := true |} w in
  Z.of_nat (length kept) < requests cfg ->
  (exists r, fst p = Ok r /\ allowed r = true) /\
  kv (snd p) = kv w /\
  trace (snd p) = trace w ++ [EvKvGet key; EvKvPut key;
                              EvLog LError (js "Rate limit KV write failed")].
Proof.
  intros cfg key kept p Hroom. subst p. unfold checkRateLimit. rewrite Hkv.
  unfold mbind, M_bind, kv_get, try_catch, kv_put, console_error, tell, mret, M_ret.
  cbn [get_throws put_throws].
  unfold kept, surviving, stored_history, stored_data, key, cfg in Hroom.
  match goal with
  | |- context [requests ?c <=? ?n] =>
      assert ((requests c <=? n) = false) as Hno
  end.
  { apply Z.leb_gt.
    destruct (kv w !! limiter_key operation clientId) as [e|]; [|exact Hroom].
    destruct (now <? kv_expiration e); [|exact Hroom].
    destruct (kv_val e); exact Hroom. }
  cbn zeta. cbn [fst snd]. rewrite Hno. cbn [fst snd emit kv trace].
  split; [eexists; split; reflexivity|]. split; [reflexivity|].
  rewrite <- !app_assoc. reflexivity.
Qed.

End WithStore.

(** *** Without one: the in-memory counter *)

Section WithoutStore.

Variable env : Env.
Hypothesis Hkv : RATE_LIMIT_KV env = None.

(** The limiter without a configured store, as one function of the state. *)
Lemma checkRateLimit_memory_unfold operation clientId now faults w :
  checkRateLimit env operation clientId now faults w =
    let cfg := rate_config operation in
    let key := memory_key operation clientId in
    let window_ms := windowSeconds cfg * 1000 in
    let opened :=
      (Ok {| allowed := true; remaining := requests cfg - 1; resetAt := now + window_ms |},
       {| kv := kv w;
          rateLimitMap := <[ key := {| mem_count := 1; mem_resetAt := now + window_ms |} ]>
                            (rateLimitMap w);
          trace := (trace w ++ [EvMapGet key]) ++ [EvMapSet key] |}) in
    match rateLimitMap w !! key with
    | None => opened
    | Some e =>
        if mem_resetAt e <? now then opened
        else if requests cfg <=? mem_count e then
          (Ok {| allowed := false; remaining := 0; resetAt := mem_resetAt e |},
           emit (EvMapGet key) w)
        else
          (Ok {| allowed := true; remaining := requests cfg - (mem_count e + 1);
                 resetAt := mem_resetAt e |},
           {| kv := kv w;
              rateLimitMap :=
                <[ key := {| mem_count := mem_count e + 1; mem_resetAt := mem_resetAt e |} ]>
                  (rateLimitMap w);
              trace := trace w ++ [EvMapGet key] |})
    end.
Proof.
  unfold checkRateLimit. rewrite Hkv.
  unfold checkRateLimitInMemory, mbind, M_bind, map_get. simpl.
  destruct (rateLimitMap w !! memory_key operation clientId) as [e|]; simpl;
    [|reflexivity].
  destruct (mem_resetAt e <? now); [reflexivity|].
  destruct (requests (rate_config operation) <=? mem_count e); reflexivity.
Qed.

(** The same burst against the in-memory counter. *)
Lemma memory_burst operation clientId first :
  forall times w n k,
    rateLimitMap w !! memory_key operation clientId
      = Some {| mem_count := n;
                mem_resetAt := first + windowSeconds (rate_config operation) * 1000 |} ->
    n = Z.min (Z.of_nat k) (requests (rate_config operation)) ->
    (forall t, In t times ->
               first <= t < first + windowSeconds (rate_config operation) * 1000) ->
    fst (run_limiter env operation clientId times w)
    = List.map (fun i => Ok (burst_answer (rate_config operation) first i))
        (seq k (length times)).
Proof.
  induction times as [|t times IH]; intros w n k Hw Hn Htimes; [reflexivity|].
  rewrite run_limiter_cons. cbn zeta. cbn [fst snd length seq List.map].
  assert (first <= t < first + windowSeconds (rate_config operation) * 1000) as Ht
    by (apply Htimes; left; reflexivity).
  rewrite checkRateLimit_memory_unfold. cbn zeta. rewrite Hw.
  cbn [mem_resetAt mem_count].
  assert ((first + windowSeconds (rate_config operation) * 1000 <? t) = false) as ->
    by (apply Z.ltb_ge; lia).
  destruct (requests (rate_config operation) <=? n) eqn:Hfull.
  - apply Z.leb_le in Hfull. cbn [fst snd]. f_equal.
    + f_equal. unfold burst_answer.
      assert ((Z.of_nat k <? requests (rate_config operation)) = false) as ->
        by (apply Z.ltb_ge; lia).
      reflexivity.
    + apply (IH _ n); [exact Hw|lia|]. intros t' Ht'. apply Htimes. right. exact Ht'.
  - cbn [fst snd]. apply Z.leb_gt in Hfull. f_equal.
    + f_equal. unfold burst_answer.
      assert ((Z.of_nat k <? requests (rate_config operation)) = true) as ->
        by (apply Z.ltb_lt; lia).
      f_equal. lia.
    + apply (IH _ (n + 1)).
      * cbn [rateLimitMap]. rewrite lookup_insert_eq. reflexivity.
      * lia.
      * intros t' Ht'. apply Htimes. right. exact Ht'.
Qed.

End WithoutStore.

(** From a fresh identity, with or without a store: calls that all fall
    in the window opened by the first are answered by [burst_answer]. *)
Lemma fresh_burst env operation clientId first later w :
  fresh_identity operation clientId w ->
  (forall t, In t later ->
             first <= t < first + windowSeconds (rate_config operation) * 1000) ->
  fst (run_limiter env operation clientId (first :: later) w)
  = List.map (fun i => Ok (burst_answer (rate_config operation) first i))
      (seq 0 (S (length later))).
Proof.
  intros [Hk Hm] Hlater. rewrite run_limiter_cons. cbn zeta.
  cbn [fst snd length seq List.map].
  destruct (rate_config_positive operation) as [HR HW].
  assert (burst_answer (rate_config operation) first 0
          = {| allowed := true; remaining := requests (rate_config operation) - 1;
               resetAt := first + windowSeconds (rate_config operation) * 1000 |}) as Hb.
  { unfold burst_answer.
    assert ((Z.of_nat 0 <? requests (rate_config operation)) = true) as ->
      by (apply Z.ltb_lt; lia).
    f_equal. }
  destruct (RATE_LIMIT_KV env) as [[]|] eqn:Hkv.
  - rewrite (checkRateLimit_kv_unfold env Hkv). cbn zeta.
    assert (stored_history first (limiter_key operation clientId) w = []) as ->
      by (unfold stored_history, stored_data; rewrite Hk; reflexivity).
    cbn [surviving List.filter length].
    assert ((requests (rate_config operation) <=? Z.of_nat 0) = false) as ->
      by (apply Z.leb_gt; lia).
    cbn [fst snd]. f_equal.
    + rewrite Hb. do 2 f_equal. lia.
    + eapply (kv_burst env Hkv _ _ first later _ [] _ _ _ 1%nat).
      * cbn [kv]. rewrite lookup_insert_eq. reflexivity.
      * simpl. lia.
      * intros ts [].
      * lia.
      * exact Hlater.
  - rewrite (checkRateLimit_memory_unfold env Hkv). cbn zeta. rewrite Hm.
    cbn [fst snd]. f_equal.
    + rewrite Hb. reflexivity.
    + apply (memory_burst env Hkv _ _ first later _ 1 1%nat); [|lia|exact Hlater].
      cbn [rateLimitMap]. rewrite lookup_insert_eq. reflexivity.
Qed.

(** *** Specification-level properties of the limiter *)

(** C2, as stated, fails: without a configured store [checkRateLimit]
    hands the call to the in-memory counter, which restarts the whole
    window when it has elapsed. Calls at 0 s, 59 s and 61 s: the third is
    answered with 9 remaining, while the sliding window still holds the
    call made at 59 s and answers 8. *)
Lemma checkRateLimit_without_store_is_not_sliding :
  fst (run_limiter env_without_kv (js "token-ops") (js "client-1")
         [0; 59000; 61000] empty_world)
  = [ Ok {| allowed := true; remaining := 9; resetAt := 60000 |};
      Ok {| allowed := true; remaining := 8; resetAt := 60000 |};
      Ok {| allowed := true; remaining := 9; resetAt := 121000 |} ] /\
  sliding_window_run (rate_config (js "token-ops")) [] [0; 59000; 61000]
  = [ {| allowed := true; remaining := 9; resetAt := 60000 |};
      {| allowed := true; remaining := 8; resetAt := 60000 |};
      {| allowed := true; remaining := 8; resetAt := 119000 |} ] /\
  ~ implements_sliding_window env_without_kv.
Proof.
  assert (fst (run_limiter env_without_kv (js "token-ops") (js "client-1")
                 [0; 59000; 61000] empty_world)
          = [ Ok {| allowed := true; remaining := 9; resetAt := 60000 |};
              Ok {| allowed := true; remaining := 8; resetAt := 60000 |};
              Ok {| allowed := true; remaining := 9; resetAt := 121000 |} ]) as Hcode
    by (vm_compute; reflexivity).
  assert (sliding_window_run (rate_config (js "token-ops")) [] [0; 59000; 61000]
          = [ {| allowed := true; remaining := 9; resetAt := 60000 |};
              {| allowed := true; remaining := 8; resetAt := 60000 |};
              {| allowed := true; remaining := 8; resetAt := 119000 |} ]) as Hwin
    by (vm_compute; reflexivity).
  split; [exact Hcode|]. split; [exact Hwin|].
  intros Himpl.
  specialize (Himpl (js "token-ops") (js "client-1") [0; 59000; 61000] empty_world
                eq_refl (empty_world_fresh _ _)).
  rewrite Hcode, Hwin in Himpl.
  assert (ascending [0; 59000; 61000]) as Hasc
    by (repeat constructor; lia).
  specialize (Himpl Hasc). discriminate Himpl.
Qed.

(** C2, amended: when a KV namespace is bound and answers,
    [checkRateLimit] is a sliding window per (operation class, client):
    every run of calls from a fresh identity is answered as the sliding
    window answers it; on one call, every stored timestamp older than
    [now] minus the window is dropped, a full window is rejected with 0
    remaining and the oldest survivor plus the window as reset instant,
    an admitted call has [max - (new count)] remaining and stores the
    survivors followed by [now], a rejected call stores nothing, and with
    no survivor the reset instant is [now] plus the window; under 10 per
    60 s, eleven calls within one window from a fresh identity get 9, 8,
    ..., 0 and then a rejection with 0 remaining; the answers to another
    client or another operation class are not affected. *)
Theorem checkRateLimit_sliding_window_with_store env :
  RATE_LIMIT_KV env = Some KVBinding ->
  implements_sliding_window env /\
  (forall operation clientId now w,
     plain_operation operation = true ->
     let cfg := rate_config operation in
     let key := limiter_key operation clientId in
     let hist := stored_history now key w in
     let kept := surviving (windowSeconds cfg * 1000) now hist in
     let p := checkRateLimit env operation clientId now no_faults w in
     ascending hist ->
     (forall ts, In ts hist -> ts < now - windowSeconds cfg * 1000 -> ~ In ts kept) /\
     fst p = Ok (fst (sliding_window_step cfg hist now)) /\
     (kept = [] -> exists r, fst p = Ok r /\ resetAt r = now + windowSeconds cfg * 1000) /\
     (Z.of_nat (length kept) < requests cfg ->
        stored_history now key (snd p) = kept ++ [now]) /\
     (requests cfg <= Z.of_nat (length kept) -> kv (snd p) = kv w)) /\
  (forall clientId first later w,
     fresh_identity (js "token-ops") clientId w ->
     length later = 10%nat ->
     (forall t, In t later -> first <= t < first + 60000) ->
     fst (run_limiter env (js "token-ops") clientId (first :: later) w)
     = List.map
         (fun left => Ok {| allowed := true; remaining := left; resetAt := first + 60000 |})
         [9; 8; 7; 6; 5; 4; 3; 2; 1; 0]
       ++ [Ok {| allowed := false; remaining := 0; resetAt := first + 60000 |}]) /\
  (forall o1 c1 o2 c2 now1 now2 faults1 faults2 w,
     other_identity o1 c1 o2 c2 ->
     fst (checkRateLimit env o2 c2 now2 faults2
            (snd (checkRateLimit env o1 c1 now1 faults1 w)))
     = fst (checkRateLimit env o2 c2 now2 faults2 w)).
Proof.
  intros Hkv. split; [|split; [|split]].
  - apply kv_implements_sliding_window, Hkv.
  - intros operation clientId now w _. apply (checkRateLimit_kv_step env Hkv).
  - intros clientId first later w Hfresh Hlen Hwin.
    rewrite (fresh_burst env _ _ first later w Hfresh)
      by (rewrite rate_config_token_ops; exact Hwin).
    rewrite Hlen, rate_config_token_ops. reflexivity.
  - intros. apply checkRateLimit_independent. assumption.
Qed.

Lemma checkRateLimit_sliding_window_with_store_witness :
  RATE_LIMIT_KV env_with_kv = Some KVBinding /\
  fst (run_limiter env_with_kv (js "token-ops") (js "client-1")
         [1000; 2000; 3000; 4000; 5000; 6000; 7000; 8000; 9000; 10000; 11000]
         empty_world)
  = List.map
      (fun left => Ok {| allowed := true; remaining := left; resetAt := 1000 + 60000 |})
      [9; 8; 7; 6; 5; 4; 3; 2; 1; 0]
    ++ [Ok {| allowed := false; remaining := 0; resetAt := 1000 + 60000 |}].
Proof.
  split; [reflexivity|].
  apply (checkRateLimit_sliding_window_with_store env_with_kv eq_refl).
  - apply empty_world_fresh.
  - reflexivity.
  - intros t Hin. simpl in Hin. intuition lia.
Defined.

(** C10: a rejected call writes nothing. Whatever the store and its
    faults, when [checkRateLimit] answers [allowed = false] both stores
    are exactly as before (entry, timestamps and version included) and no
    write was issued; conversely a call that answered and changed a store
    or issued a write admitted the request. *)
Theorem rejected_call_writes_nothing env operation clientId now faults w r :
  fst (checkRateLimit env operation clientId now faults w) = Ok r ->
  (allowed r = false ->
     wrote_nothing w (snd (checkRateLimit env operation clientId now faults w))) /\
  (~ wrote_nothing w (snd (checkRateLimit env operation clientId now faults w)) ->
     allowed r = true).
Proof.
  intros Hr.
  assert (allowed r = false ->
          wrote_nothing w (snd (checkRateLimit env operation clientId now faults w)))
    as Hrej.
  { revert Hr. unfold checkRateLimit. destruct (RATE_LIMIT_KV env) as [b|].
    - unfold mbind, M_bind, kv_get, try_catch, kv_put, console_error, tell, mret, M_ret.
      cbn zeta. destruct (get_throws faults); cbn [fst snd]; [discriminate|].
      match goal with
      | |- context [requests ?c <=? ?n] => destruct (requests c <=? n)
      end; cbn [fst snd].
      + intros _ _. split; [reflexivity|]. split; [reflexivity|].
        eexists. split; [reflexivity|].
        intros key. split; intros [H|[]]; discriminate H.
      + destruct (put_throws faults); cbn [fst snd]; intros [= <-]; discriminate.
    - unfold checkRateLimitInMemory, mbind, M_bind, map_get, map_set, map_increment,
        mret, M_ret. cbn zeta.
      destruct (rateLimitMap w !! memory_key operation clientId) as [e|]; cbn [fst snd].
      + destruct (mem_resetAt e <? now); cbn [fst snd]; [intros [= <-]; discriminate|].
        destruct (requests (rate_config operation) <=? mem_count e); cbn [fst snd].
        * intros _ _. split; [reflexivity|]. split; [reflexivity|].
          eexists. split; [reflexivity|].
          intros key. split; intros [H|[]]; discriminate H.
        * intros [= <-]; discriminate.
      + intros [= <-]; discriminate. }
  split; [exact Hrej|].
  intros Hwrote. destruct (allowed r); [reflexivity|].
  exfalso. apply Hwrote, Hrej. reflexivity.
Qed.

Lemma rejected_call_writes_nothing_witness :
  fst (checkRateLimit env_with_kv (js "token-ops") (js "203.0.113.7") 11000 no_faults
         world_after_ten_calls)
  = Ok {| allowed := false; remaining := 0; resetAt := 61000 |} /\
  wrote_nothing world_after_ten_calls
    (snd (checkRateLimit env_with_kv (js "token-ops") (js "203.0.113.7") 11000 no_faults
            world_after_ten_calls)).
Proof.
  assert (fst (checkRateLimit env_with_kv (js "token-ops") (js "203.0.113.7") 11000
                 no_faults world_after_ten_calls)
          = Ok {| allowed := false; remaining := 0; resetAt := 61000 |}) as Hr
    by (vm_compute; reflexivity).
  split; [exact Hr|].
  apply (rejected_call_writes_nothing _ _ _ _ _ _ _ Hr). reflexivity.
Defined.

(** C6 fails on the read: [get] is awaited outside any [try], so a store
    that rejects the read makes [checkRateLimit] throw. Whatever the
    operation, client, instant and state, the call ends in the store's
    exception after the read; no answer is produced and no write tried. *)
Theorem kv_read_failure_is_propagated operation clientId now put_fails w :
  checkRateLimit env_with_kv operation clientId now
    {| get_throws := true; put_throws := put_fails |} w
  = (Throw (TNative PlainError (js "KV GET failed")),
     emit (EvKvGet (limiter_key operation clientId)) w).
Proof. reflexivity. Qed.

(** ** The authenticator's comparison *)

Lemma xor_fold_zero acc a b :
  length a = length b ->
  (xor_fold acc a b = 0%N <-> acc = 0%N /\ a = b).
Proof.
  revert acc b. induction a as [|x a IH]; intros acc [|y b] Hlen; simpl in *;
    try discriminate.
  - split; [intros ->; split; reflexivity|intros [-> _]; reflexivity].
  - injection Hlen as Hlen. rewrite (IH _ _ Hlen). rewrite N.lor_eq_0_iff.
    split.
    + intros [[-> Hx] ->]. apply N.lxor_eq in Hx. subst. split; reflexivity.
    + intros [-> [= -> ->]]. rewrite N.lxor_nilpotent. repeat split.
Qed.

(** On buffers of one length [timingSafeEqual] is equality. *)
Lemma timingSafeEqual_same_length a b :
  length a = length b -> timingSafeEqual a b = Some (bool_decide (a = b)).
Proof.
  intros Hlen. unfold timingSafeEqual. rewrite Hlen, Nat.eqb_refl. f_equal.
  destruct (xor_fold_zero 0 a b Hlen) as [H1 H2].
  case_bool_decide as Hab.
  - apply N.eqb_eq, H2. split; [reflexivity|exact Hab].
  - apply N.eqb_neq. intros Hz. apply Hab, H1, Hz.
Qed.

Lemma timingSafeEqual_other_length a b :
  length a <> length b -> timingSafeEqual a b = None.
Proof.
  intros Hlen. unfold timingSafeEqual.
  apply Nat.eqb_neq in Hlen. rewrite Hlen. reflexivity.
Qed.

(** A string compared with itself: the answer is [true]. *)
Lemma secureCompare_reflexive x : secureCompare x x = Ok true.
Proof.
  unfold secureCompare. rewrite Nat.eqb_refl. simpl.
  rewrite timingSafeEqual_same_length by reflexivity.
  rewrite bool_decide_eq_true_2 by reflexivity. reflexivity.
Qed.

(** Strings of code units below 128 are their own UTF-8 encoding. *)
Lemma Buffer_from_ascii s : ascii_only s -> Buffer_from s = s.
Proof.
  induction 1 as [|u s Hu _ IH]; [reflexivity|].
  cbn [Buffer_from]. unfold is_high_surrogate, is_low_surrogate.
  assert ((0xD800 <=? u)%N = false) as -> by (apply N.leb_gt; lia).
  assert ((0xDC00 <=? u)%N = false) as -> by (apply N.leb_gt; lia).
  cbn [andb]. unfold utf8_of_code_point.
  assert ((u <? 0x80)%N = true) as -> by (apply N.ltb_lt; lia).
  rewrite IH. reflexivity.
Qed.

(** On ASCII strings [secureCompare] is string equality. *)
Lemma secureCompare_ascii x y :
  ascii_only x -> ascii_only y -> secureCompare x y = Ok (bool_decide (x = y)).
Proof.
  intros Hx Hy. unfold secureCompare.
  rewrite !Buffer_from_ascii by assumption.
  destruct (Nat.eqb (length x) (length y)) eqn:Hlen; cbn [negb].
  - apply Nat.eqb_eq in Hlen. rewrite timingSafeEqual_same_length by exact Hlen.
    reflexivity.
  - apply Nat.eqb_neq in Hlen. rewrite timingSafeEqual_same_length by reflexivity.
    rewrite bool_decide_eq_false_2; [reflexivity|].
    intros ->. apply Hlen. reflexivity.
Qed.

(** The comparison never answers [true] for strings of different length,
    and never throws for them. *)
Lemma secureCompare_other_length x y :
  length x <> length y -> secureCompare x y = Ok false.
Proof.
  intros Hlen. unfold secureCompare. apply Nat.eqb_neq in Hlen. rewrite Hlen.
  cbn [negb]. rewrite timingSafeEqual_same_length by reflexivity. reflexivity.
Qed.

(** C4 fails outside ASCII. The guard compares [a.length] and [b.length],
    counts of UTF-16 code units, while [timingSafeEqual] compares, and
    requires equal, the byte lengths of the UTF-8 buffers. For the key
    "test-api-key" and the presented "test-api-keé" (12 code units each,
    12 and 13 bytes) the call throws a RangeError instead of returning
    [false]; and the unequal strings "\uD800" and "\uD801" are both
    encoded as U+FFFD, so the call returns [true]. *)
Theorem secureCompare_is_not_string_equality :
  let presented := js "test-api-ke" ++ [233%N] in
  let expected := js "test-api-key" in
  length presented = length expected /\
  presented <> expected /\
  secureCompare presented expected
    = Throw (TNative RangeErrorC timing_safe_equal_length_message) /\
  [0xD800%N] <> [0xD801%N] /\
  secureCompare [0xD800%N] [0xD801%N] = Ok true.
Proof. repeat split; try discriminate; vm_compute; reflexivity. Qed.

(** ** Error classification *)

(** The source's test for "lacks a correlation id" and for "one is
    supplied": the value is absent or the empty string. *)
Lemma categorizeError_classified_unchanged rt (e : McpError) :
  categorizeError rt (TMcp e) None = e.
Proof. reflexivity. Qed.

Lemma categorizeError_keeps_own_id rt (e : McpError) cid :
  truthy_opt (correlationId e) = true -> categorizeError rt (TMcp e) cid = e.
Proof.
  intros H. unfold categorizeError. rewrite H, andb_false_r. reflexivity.
Qed.

(** C5: classification is idempotent on classified errors. Without a
    correlation id the very same error comes back; with one supplied, an
    error that lacks an id comes back with the id attached and the same
    code, message, details and retryable flag. ("Supplied" and "lacks"
    are the source's tests: a non-empty string, resp. absent or empty.) *)
Theorem categorizeError_idempotent rt (e : McpError) :
  categorizeError rt (TMcp e) None = e /\
  forall cid : jsstring,
    truthy cid = true ->
    truthy_opt (correlationId e) = false ->
    let e' := categorizeError rt (TMcp e) (Some cid) in
    code e' = code e /\ message e' = message e /\ details e' = details e /\
    retryable e' = retryable e /\ correlationId e' = Some cid.
Proof.
  split; [reflexivity|]. intros cid Hcid Hlacks.
  unfold categorizeError. cbn [truthy_opt]. rewrite Hcid, Hlacks.
  cbn. repeat split.
Qed.

Lemma categorizeError_idempotent_witness :
  let rt := {| toLowerCase := fun s => s; regex_test := fun _ _ => true |} in
  let e := new_ValidationError (js "Test error") None None in
  truthy (js "new-correlation-id") = true /\
  truthy_opt (correlationId e) = false /\
  categorizeError rt (TMcp e) None = e /\
  correlationId (categorizeError rt (TMcp e) (Some (js "new-correlation-id")))
  = Some (js "new-correlation-id") /\
  code (categorizeError rt (TMcp e) (Some (js "new-correlation-id"))) = VALIDATION_ERROR.
Proof.
  intros rt e.
  split; [reflexivity|]. split; [reflexivity|].
  destruct (categorizeError_idempotent rt e) as [H1 H2].
  split; [exact H1|].
  destruct (H2 (js "new-correlation-id") eq_refl eq_refl) as (Hc & _ & _ & _ & Hid).
  split; [exact Hid|exact Hc].
Defined.

(** The copy is a plain [McpError]: what the subclass added is gone. *)
Lemma categorizeError_copy_loses_class rt (e : McpError) (cid : jsstring) :
  truthy cid = true ->
  truthy_opt (correlationId e) = false ->
  cls (categorizeError rt (TMcp e) (Some cid)) = McpErrorC.
Proof.
  intros Hcid Hlacks. unfold categorizeError. cbn [truthy_opt].
  rewrite Hcid, Hlacks. reflexivity.
Qed.
(** ** Validation *)

Section Validation.

Variable rt : Runtime.

(** Induction over schemas, through the item schema and the property list. *)
Lemma Schema_nested_ind (P : Schema -> Prop) :
  (forall enum minLength maxLength pattern, P (SchString enum minLength maxLength pattern)) ->
  (forall integer minimum maximum, P (SchNumber integer minimum maximum)) ->
  P SchBoolean ->
  (forall items minItems maxItems,
     (forall s, items = Some s -> P s) -> P (SchArray items minItems maxItems)) ->
  (forall props required,
     (forall ps, props = Some ps -> List.Forall (fun kv => P (snd kv)) ps) ->
     P (SchObject props required)) ->
  P SchUntyped ->
  forall s, P s.
Proof.
  intros Hstr Hnum Hbool Harr Hobj Hany.
  fix IH 1. intros [enum mn mx pat|int mn mx| |items mn mx|props req|].
  - apply Hstr.
  - apply Hnum.
  - apply Hbool.
  - apply Harr. destruct items as [s|]; intros s' [= <-]. apply IH.
  - apply Hobj. destruct props as [ps|]; intros ps' [= <-].
    induction ps as [|[k s] ps IHps]; constructor; [apply IH|exact IHps].
  - apply Hany.
Qed.

Lemma ZodType_nested_ind (P : ZodType -> Prop) :
  (forall mn mx regex, P (ZString mn mx regex)) ->
  (forall values, P (ZEnum values)) ->
  (forall int mn mx, P (ZNumber int mn mx)) ->
  P ZBoolean ->
  (forall element mn mx, P element -> P (ZArray element mn mx)) ->
  P ZRecordUnknown ->
  (forall shape, List.Forall (fun kz => P (snd kz)) shape -> P (ZObject shape)) ->
  (forall inner, P inner -> P (ZOptional inner)) ->
  P ZUnknown ->
  forall z, P z.
Proof.
  intros Hstr Henum Hnum Hbool Harr Hrec Hobj Hopt Hany.
  fix IH 1. intros [mn mx re|vals|int mn mx| |el mn mx| |shape|inner|].
  - apply Hstr.
  - apply Henum.
  - apply Hnum.
  - apply Hbool.
  - apply Harr, IH.
  - apply Hrec.
  - apply Hobj. induction shape as [|[k z] shape IHs]; constructor; [apply IH|exact IHs].
  - apply Hopt, IH.
  - apply Hany.
Qed.

(** The equations of the nested loops. *)
Lemma jsonSchemaToZod_object ps required :
  jsonSchemaToZod (SchObject (Some ps) required)
  = ZObject (List.map (property_validator (default [] required)) ps).
Proof.
  simpl. f_equal. induction ps as [|[k s] ps IH]; [reflexivity|].
  simpl. f_equal. exact IH.
Qed.

Lemma zparse_object shape path props :
  zparse rt (ZObject shape) path (JObj props)
  = let fields := List.map (field_outcome rt props path) shape in
    settle (concat (List.map (fun f => issues_of (snd f)) fields))
      (JObj (delete proto_name (rebuild props (List.map fst shape) fields))).
Proof.
  cbn [zparse]. unfold rebuild.
  assert ((fix parse_fields (sh : list (jsstring * ZodType))
             : list (jsstring * result (list issue) (option json)) :=
             match sh with
             | [] => []
             | (key, zk) :: sh' =>
                 (key,
                  match props !! key with
                  | Some x =>
                      match zparse rt zk (path ++ [key]) x with
                      | Ok x' => Ok (Some x')
                      | Throw found => Throw found
                      end
                  | None =>
                      if accepts_undefined zk then Ok None
                      else Throw (check true (path ++ [key]) invalid_type)
                  end) :: parse_fields sh'
             end) shape
          = List.map (field_outcome rt props path) shape) as ->; [|reflexivity].
  induction shape as [|[k z] shape IH]; [reflexivity|].
  cbn [List.map]. rewrite <- IH. reflexivity.
Qed.

Lemma conforms_object ps required props :
  conforms rt (SchObject (Some ps) required) (JObj props)
  <-> (forall key, In key (default [] required) -> is_Some (props !! key)) /\
      List.Forall
        (fun kv => match props !! fst kv with
                   | Some x => conforms rt (snd kv) x
                   | None => True
                   end) ps.
Proof.
  cbn [conforms].
  assert ((fix each (ps0 : list (jsstring * Schema)) : Prop :=
             match ps0 with
             | [] => True
             | (key, s) :: ps' =>
                 match props !! key with
                 | Some x => conforms rt s x
                 | None => True
                 end /\ each ps'
             end) ps
          <-> List.Forall
                (fun kv => match props !! fst kv with
                           | Some x => conforms rt (snd kv) x
                           | None => True
                           end) ps) as Heach.
  { induction ps as [|[k s] ps IH].
    - split; [constructor|trivial].
    - split.
      + intros [H1 H2]. constructor; [exact H1|apply IH, H2].
      + intros H. inversion H as [|? ? H1 H2]; subst. split; [exact H1|apply IH, H2]. }
  rewrite Heach. reflexivity.
Qed.


Lemma includes_name_In names key : includes_name names key = true <-> In key names.
Proof.
  unfold includes_name. rewrite existsb_exists. split.
  - intros (x & Hin & Heq). apply bool_decide_eq_true in Heq. subst. exact Hin.
  - intros Hin. exists key. split; [exact Hin|]. apply bool_decide_eq_true. reflexivity.
Qed.

Lemma includes_name_not_In names key : includes_name names key = false <-> ~ In key names.
Proof.
  rewrite <- includes_name_In. destruct (includes_name names key); split; intros H;
    try reflexivity; try discriminate; try (intros H'; discriminate H').
  exfalso. apply H. reflexivity.
Qed.

Lemma settle_nil {A : Type} (value : A) : settle [] value = Ok value.
Proof. reflexivity. Qed.

Lemma settle_Ok {A : Type} issues (value r : A) :
  settle issues value = Ok r -> issues = [] /\ r = value.
Proof. destruct issues; simpl; [intros [= <-]; split; reflexivity|discriminate]. Qed.

Lemma settle_Throw {A : Type} issues (value : A) found :
  settle issues value = Throw found -> found <> [].
Proof. destruct issues; simpl; [discriminate|intros [= <-]; discriminate]. Qed.

Lemma size_issues_within mn mx size path :
  within mn mx size -> size_issues (truthy_bound mn) (truthy_bound mx) size path = [].
Proof.
  intros [Hmin Hmax]. unfold size_issues, truthy_bound, check.
  destruct mn as [n|]; [destruct (n =? 0)%N|];
    destruct mx as [m|]; try destruct (m =? 0)%N;
    repeat match goal with
           | |- context [(?a <? ?b)%N] =>
               assert ((a <? b)%N = false) as -> by (apply N.ltb_ge; lia)
           end; reflexivity.
Qed.

(** Looking a name up in the rebuilt object, when every declared property
    came back as it was. *)
Lemma rebuild_unchanged props declared keys key :
  rebuild props declared (List.map (fun k => (k, Ok (props !! k))) keys) !! key
  = if includes_name keys key then
      match props !! key with
      | Some x => Some x
      | None =>
          filter (fun kv => includes_name declared (fst kv) = false) props !! key
      end
    else filter (fun kv => includes_name declared (fst kv) = false) props !! key.
Proof.
  unfold rebuild. induction keys as [|k keys IH]; [reflexivity|].
  cbn [List.map foldr fst snd includes_name existsb].
  unfold jsstring_eqb at 1. case_bool_decide as Hk.
  - subst k. cbn [orb]. destruct (props !! key) as [x|] eqn:Hx.
    + apply lookup_insert_eq.
    + rewrite IH. fold (includes_name keys key).
      destruct (includes_name keys key); reflexivity.
  - cbn [orb]. fold (includes_name keys key). rewrite <- IH.
    destruct (props !! k) as [x|]; [|reflexivity].
    apply lookup_insert_ne. congruence.
Qed.

(** An object whose declared properties all parse to themselves parses
    to itself, less the property [__proto__]. *)
Lemma zparse_object_unchanged shape path props :
  List.Forall
    (fun kz => match props !! fst kz with
               | Some x => zparse rt (snd kz) (path ++ [fst kz]) x = Ok x
               | None => accepts_undefined (snd kz) = true
               end) shape ->
  zparse rt (ZObject shape) path (JObj props) = Ok (JObj (delete proto_name props)).
Proof.
  intros Hall. rewrite zparse_object. cbn zeta.
  assert (List.map (field_outcome rt props path) shape
          = List.map (fun k => (k, Ok (props !! k))) (List.map fst shape)) as ->.
  { induction Hall as [|[k z] shape Hkz _ IH]; [reflexivity|].
    cbn [List.map]. rewrite IH. f_equal. unfold field_outcome. cbn [fst snd] in *.
    destruct (props !! k) as [x|]; rewrite Hkz; reflexivity. }
  assert (concat (List.map (fun f : jsstring * result (list issue) (option json) =>
                              issues_of (snd f))
                    (List.map (fun k => (k, Ok (props !! k))) (List.map fst shape)))
          = []) as ->.
  { induction (List.map fst shape) as [|k keys IH]; [reflexivity|]. exact IH. }
  rewrite settle_nil. do 3 f_equal. apply map_eq. intros key.
  rewrite rebuild_unchanged.
  destruct (includes_name (List.map fst shape) key) eqn:Hdecl.
  - destruct (props !! key) as [x|] eqn:Hx; [reflexivity|].
    apply map_lookup_filter_None_2. left. exact Hx.
  - destruct (props !! key) as [x|] eqn:Hx.
    + apply map_lookup_filter_Some_2; [exact Hx|exact Hdecl].
    + apply map_lookup_filter_None_2. left. exact Hx.
Qed.

Lemma imap_all_Ok (f : nat -> json -> result (list issue) json) items :
  (forall i x, In x items -> f i x = Ok x) -> imap f items = List.map Ok items.
Proof.
  revert f. induction items as [|x items IH]; intros f Hf; [reflexivity|].
  rewrite imap_cons. cbn [List.map]. f_equal.
  - apply Hf. left. reflexivity.
  - apply IH. intros i y Hy. apply Hf. right. exact Hy.
Qed.

Lemma issues_of_all_Ok (items : list json) :
  concat (List.map issues_of (List.map (@Ok (list issue) json) items)) = [].
Proof. induction items as [|x items IH]; [reflexivity|exact IH]. Qed.

Lemma values_of_all_Ok (items : list json) : values_of (List.map Ok items) = items.
Proof.
  unfold values_of. induction items as [|x items IH]; [reflexivity|].
  cbn [List.map]. f_equal. exact IH.
Qed.

(** Under a schema that rebuilds no object, a value that conforms is
    accepted by the validator built from the schema and comes back as
    it is. *)
Lemma flat_value_is_returned schema :
  flat schema = true ->
  forall v path, conforms rt schema v -> zparse rt (jsonSchemaToZod schema) path v = Ok v.
Proof.
  induction schema as [enum mn mx pat|int mn mx| |items mn mx IH|props req IH|]
    using Schema_nested_ind; intros Hflat v path Hc.
  - destruct v as [| | |s| |]; try contradiction. cbn [conforms] in Hc.
    cbn [jsonSchemaToZod]. destruct enum as [values|]; cbn [zparse].
    + apply includes_name_In in Hc. rewrite Hc. reflexivity.
    + destruct Hc as [Hsize Hpat]. rewrite (size_issues_within _ _ _ _ Hsize).
      unfold truthy_pattern. destruct pat as [p|]; [|reflexivity].
      destruct (truthy p); [|reflexivity]. rewrite Hpat. reflexivity.
  - destruct v as [| |q| | |]; try contradiction. cbn [conforms] in Hc.
    destruct Hc as (Hint & Hmin & Hmax). cbn [jsonSchemaToZod zparse].
    assert (int && negb (is_integer q) = false) as ->.
    { destruct int; [|reflexivity]. rewrite Hint by reflexivity. reflexivity. }
    assert (match mn with Some m => negb (Qle_bool m q) | None => false end = false) as ->.
    { destruct mn as [m|]; [|reflexivity]. apply Qle_bool_iff in Hmin. rewrite Hmin.
      reflexivity. }
    assert (match mx with Some m => negb (Qle_bool q m) | None => false end = false) as ->.
    { destruct mx as [m|]; [|reflexivity]. apply Qle_bool_iff in Hmax. rewrite Hmax.
      reflexivity. }
    reflexivity.
  - destruct v; try contradiction. reflexivity.
  - destruct v as [| | | |elements|]; try contradiction. cbn [conforms] in Hc.
    destruct Hc as [Hsize Hitems]. cbn [jsonSchemaToZod zparse].
    rewrite (size_issues_within _ _ _ _ Hsize). cbn [app].
    rewrite imap_all_Ok.
    + rewrite issues_of_all_Ok, values_of_all_Ok. reflexivity.
    + intros i x Hx. destruct items as [s|]; [|reflexivity].
      apply (IH s eq_refl); [exact Hflat|].
      rewrite List.Forall_forall in Hitems. apply Hitems, Hx.
  - discriminate Hflat.
  - reflexivity.
Qed.

(** An object that conforms to a schema whose properties rebuild no
    object comes back without its property [__proto__], and otherwise
    as it is. *)
Lemma flat_object_is_returned ps req props path :
  forallb (fun kv => flat (snd kv)) ps = true ->
  conforms rt (SchObject (Some ps) req) (JObj props) ->
  zparse rt (jsonSchemaToZod (SchObject (Some ps) req)) path (JObj props)
  = Ok (JObj (delete proto_name props)).
Proof.
  intros Hflat Hc. rewrite jsonSchemaToZod_object.
  apply conforms_object in Hc as [Hreq Hprops].
  apply zparse_object_unchanged.
  induction ps as [|[k s] ps IHps]; [constructor|].
  cbn [forallb snd] in Hflat. apply andb_true_iff in Hflat as [Hs Hrest].
  inversion Hprops as [|? ? Hcs Hcrest]; subst.
  cbn [List.map]. constructor; [|apply IHps; assumption].
  unfold property_validator. cbn [fst snd] in *.
  destruct (props !! k) as [x|] eqn:Hx.
  - destruct (includes_name (default [] req) k); cbn [zparse];
      apply flat_value_is_returned; assumption.
  - destruct (includes_name (default [] req) k) eqn:Hk; [|reflexivity].
    apply includes_name_In in Hk. destruct (Hreq k Hk) as [x Hsome]. congruence.
Qed.

(** A failed parse names at least one issue. *)
Lemma zparse_Throw_nonempty z :
  forall path v found, zparse rt z path v = Throw found -> found <> [].
Proof.
  induction z as [mn mx re|vals|int mn mx| |el mn mx _| |shape _|inner IH|]
    using ZodType_nested_ind; intros path v found; cbn [zparse].
  all: try (destruct v; try (intros [= <-]; discriminate); try discriminate;
            try apply settle_Throw; fail).
  apply IH.
Qed.

Lemma concat_nil_inv {A : Type} (ls : list (list A)) :
  concat ls = [] -> List.Forall (fun l => l = []) ls.
Proof.
  induction ls as [|l ls IH]; simpl; intros H; [constructor|].
  apply app_eq_nil in H as [-> H]. constructor; [reflexivity|apply IH, H].
Qed.

Lemma imap_accepts (f : nat -> json -> result (list issue) json) items :
  (forall i x, In x items -> exists r, f i x = Ok r) ->
  concat (List.map issues_of (imap f items)) = [].
Proof.
  revert f. induction items as [|x items IH]; intros f Hf; [reflexivity|].
  rewrite imap_cons. cbn [List.map]. simpl.
  destruct (Hf 0%nat x (or_introl eq_refl)) as [r ->]. cbn [issues_of app].
  apply IH. intros i y Hy. apply Hf. right. exact Hy.
Qed.

Lemma property_validator_names req ps :
  List.map fst (List.map (property_validator req) ps) = List.map fst ps.
Proof. induction ps as [|[k s] ps IH]; [reflexivity|]. cbn [List.map fst]. f_equal. exact IH. Qed.

(** A value that conforms to a schema is accepted by the validator built
    from the schema. *)
Lemma conforming_value_is_accepted schema :
  forall v path, conforms rt schema v ->
                 exists r, zparse rt (jsonSchemaToZod schema) path v = Ok r.
Proof.
  induction schema as [enum mn mx pat|int mn mx| |items mn mx IH|props req IH|]
    using Schema_nested_ind; intros v path Hc.
  - exists v. apply flat_value_is_returned; [reflexivity|exact Hc].
  - exists v. apply flat_value_is_returned; [reflexivity|exact Hc].
  - exists v. apply flat_value_is_returned; [reflexivity|exact Hc].
  - destruct v as [| | | |elements|]; try contradiction. cbn [conforms] in Hc.
    destruct Hc as [Hsize Hitems]. cbn [jsonSchemaToZod zparse].
    rewrite (size_issues_within _ _ _ _ Hsize). cbn [app].
    rewrite imap_accepts; [eexists; reflexivity|].
    intros i x Hx. destruct items as [s|]; [|eexists; reflexivity].
    apply (IH s eq_refl). rewrite List.Forall_forall in Hitems. apply Hitems, Hx.
  - destruct v as [| | | | |obj]; try contradiction.
    destruct props as [ps|]; [|eexists; reflexivity].
    rewrite jsonSchemaToZod_object, zparse_object. cbn zeta.
    apply conforms_object in Hc as [Hreq Hprops].
    assert (concat
              (List.map (fun f : jsstring * result (list issue) (option json) =>
                           issues_of (snd f))
                 (List.map (field_outcome rt obj path)
                    (List.map (property_validator (default [] req)) ps))) = []) as ->;
      [|eexists; reflexivity].
    specialize (IH ps eq_refl).
    induction ps as [|[k s] ps IHps]; [reflexivity|].
    inversion IH as [|? ? IHs IHrest]; subst.
    inversion Hprops as [|? ? Hcs Hcrest]; subst.
    cbn [List.map]. simpl concat. rewrite (IHps IHrest Hcrest), app_nil_r.
    unfold field_outcome, property_validator. cbn [fst snd] in *.
    destruct (obj !! k) as [x|] eqn:Hx.
    + destruct (includes_name (default [] req) k); cbn [zparse];
        destruct (IHs x (path ++ [k]) Hcs) as [r ->]; reflexivity.
    + destruct (includes_name (default [] req) k) eqn:Hk; [|reflexivity].
      apply includes_name_In in Hk. destruct (Hreq k Hk) as [x Hsome]. congruence.
  - exists v. reflexivity.
Qed.

(** The elements of an accepted array, one by one. *)
Lemma imap_parsed (Q : json -> json -> Prop)
    (f : nat -> json -> result (list issue) json) items :
  (forall i x r, f i x = Ok r -> Q x r) ->
  (forall i x found, f i x = Throw found -> found <> []) ->
  concat (List.map issues_of (imap f items)) = [] ->
  Forall2 Q items (values_of (imap f items)).
Proof.
  revert f. induction items as [|x items IH]; intros f HQ Hne Hnone; [constructor|].
  rewrite imap_cons in *. unfold values_of in *. cbn [List.map] in *. simpl in Hnone.
  apply app_eq_nil in Hnone as [Hx Hrest].
  destruct (f 0%nat x) as [r|found] eqn:Hp.
  - constructor; [apply (HQ 0%nat), Hp|]. apply IH; [| |exact Hrest].
    + intros i. apply (HQ (S i)).
    + intros i. apply (Hne (S i)).
  - simpl in Hx. subst found. exfalso. apply (Hne _ _ _ Hp). reflexivity.
Qed.

(** The properties an accepted object is rebuilt with. *)
Lemma rebuild_lookup_absent props declared path shape key :
  props !! key = None ->
  rebuild props declared (List.map (field_outcome rt props path) shape) !! key = None.
Proof.
  intros Hk. unfold rebuild. induction shape as [|[k z] shape IH]; cbn [List.map foldr].
  - apply map_lookup_filter_None_2. left. exact Hk.
  - destruct (snd (field_outcome rt props path (k, z))) as [[x'|]|found] eqn:Hf;
      [|exact IH|exact IH].
    cbn [fst field_outcome]. rewrite lookup_insert_ne; [exact IH|].
    intros ->. unfold field_outcome in Hf. cbn [fst snd] in Hf. rewrite Hk in Hf.
    destruct (accepts_undefined z); discriminate Hf.
Qed.

Lemma rebuild_lookup_undeclared props declared path shape key :
  ~ In key (List.map fst shape) ->
  rebuild props declared (List.map (field_outcome rt props path) shape) !! key
  = filter (fun kv => includes_name declared (fst kv) = false) props !! key.
Proof.
  intros Hk. unfold rebuild. induction shape as [|[k z] shape IH]; cbn [List.map foldr];
    [reflexivity|].
  cbn [List.map fst In] in Hk.
  destruct (snd (field_outcome rt props path (k, z))) as [[x'|]|found];
    [|apply IH; tauto|apply IH; tauto].
  cbn [fst field_outcome]. rewrite lookup_insert_ne; [apply IH; tauto|].
  intros ->. apply Hk. left. reflexivity.
Qed.

Lemma rebuild_lookup_declared props declared path shape key x :
  props !! key = Some x ->
  In key (List.map fst shape) ->
  concat (List.map (fun f : jsstring * result (list issue) (option json) => issues_of (snd f))
            (List.map (field_outcome rt props path) shape)) = [] ->
  exists zk x',
    In (key, zk) shape /\ zparse rt zk (path ++ [key]) x = Ok x' /\
    rebuild props declared (List.map (field_outcome rt props path) shape) !! key = Some x'.
Proof.
  intros Hx. unfold rebuild.
  induction shape as [|[k z] shape IH]; cbn [List.map foldr fst In]; [intros []|].
  intros Hin Hnone. simpl in Hnone. apply app_eq_nil in Hnone as [Hhead Hrest].
  destruct (decide (k = key)) as [->|Hne].
  - unfold field_outcome at 1. unfold field_outcome in Hhead. cbn [fst snd] in *.
    rewrite Hx in *.
    destruct (zparse rt z (path ++ [key]) x) as [x'|found] eqn:Hp.
    + exists z, x'. split; [left; reflexivity|]. split; [exact Hp|].
      apply lookup_insert_eq.
    + simpl in Hhead. subst found. apply zparse_Throw_nonempty in Hp. contradiction.
  - destruct Hin as [Heq|Hin]; [contradiction|].
    destruct (IH Hin Hrest) as (zk & x' & Hzk & Hp & Hlook).
    exists zk, x'. split; [right; exact Hzk|]. split; [exact Hp|].
    destruct (snd (field_outcome rt props path (k, z))) as [[y|]|found];
      [|exact Hlook|exact Hlook].
    cbn [fst field_outcome]. rewrite lookup_insert_ne; [exact Hlook|exact Hne].
Qed.

(** Each property of an accepted object, against the property it was
    rebuilt from, when each declared property is parsed in a way that
    satisfies [Q]. *)
Lemma rebuild_related (Q : json -> json -> Prop) shape path props :
  (forall x, Q x x) ->
  List.Forall (fun kz => forall path v r, zparse rt (snd kz) path v = Ok r -> Q v r) shape ->
  concat (List.map (fun f : jsstring * result (list issue) (option json) => issues_of (snd f))
            (List.map (field_outcome rt props path) shape)) = [] ->
  forall key,
    option_Forall2 Q (props !! key)
      (rebuild props (List.map fst shape) (List.map (field_outcome rt props path) shape)
         !! key).
Proof.
  intros Hrefl Hall Hnone key. destruct (props !! key) as [x|] eqn:Hx.
  - destruct (includes_name (List.map fst shape) key) eqn:Hdecl.
    + apply includes_name_In in Hdecl.
      destruct (rebuild_lookup_declared props (List.map fst shape) path shape key x
                  Hx Hdecl Hnone) as (zk & x' & Hin & Hp & ->).
      constructor. rewrite List.Forall_forall in Hall. exact (Hall (key, zk) Hin _ _ _ Hp).
    + rewrite rebuild_lookup_undeclared by (apply includes_name_not_In; exact Hdecl).
      rewrite (map_lookup_filter_Some_2 _ _ _ _ Hx Hdecl). constructor. apply Hrefl.
  - rewrite rebuild_lookup_absent by exact Hx. constructor.
Qed.

Lemma proto_free_delete (props : gmap jsstring json) :
  ~ has_proto (JObj props) -> delete proto_name props = props.
Proof.
  intros Hfree. apply delete_id.
  destruct (props !! proto_name) as [x|] eqn:Hx; [|reflexivity].
  exfalso. apply Hfree, has_proto_own. exists x. exact Hx.
Qed.

(** Whatever a validator accepts it returns as it received it, but for
    properties [__proto__]: no value is converted, no other property
    dropped or added. *)
Lemma accepted_value z :
  forall path v r,
    zparse rt z path v = Ok r -> agree_but_proto v r /\ (~ has_proto v -> r = v).
Proof.
  induction z as [mn mx re|vals|int mn mx| |el mn mx IH| |shape IH|inner IH|]
    using ZodType_nested_ind; intros path v r.
  - cbn [zparse]. destruct v; try discriminate.
    intros H. apply settle_Ok in H as [_ ->]. split; [constructor|reflexivity].
  - cbn [zparse]. destruct v; try discriminate.
    intros H. apply settle_Ok in H as [_ ->]. split; [constructor|reflexivity].
  - cbn [zparse]. destruct v; try discriminate.
    intros H. apply settle_Ok in H as [_ ->]. split; [constructor|reflexivity].
  - cbn [zparse]. destruct v; try discriminate. intros [= <-].
    split; [constructor|reflexivity].
  - cbn [zparse]. destruct v as [| | | |items|]; try discriminate.
    intros H. apply settle_Ok in H as [Hnone ->].
    apply app_eq_nil in Hnone as [_ Hnone].
    assert (Forall2 (fun x x' => agree_but_proto x x' /\ (~ has_proto x -> x' = x)) items
              (values_of
                 (imap (fun i x => zparse rt el (path ++ [String_of_Z (Z.of_nat i)]) x)
                    items))) as Hall.
    { apply imap_parsed; [|intros i x found; apply zparse_Throw_nonempty|exact Hnone].
      intros i x x' Hp. exact (IH _ _ _ Hp). }
    split.
    + apply agree_items. eapply Forall2_impl; [exact Hall|].
      intros x x' [Hagree _]. exact Hagree.
    + intros Hfree. f_equal.
      assert (forall x, In x items -> ~ has_proto x) as Hitems
        by (intros x Hin Hx; apply Hfree; exact (has_proto_in_item items x Hin Hx)).
      clear -Hall Hitems. induction Hall as [|x x' items items' [_ Heq] _ IHall];
        [reflexivity|].
      f_equal.
      * apply Heq, Hitems. left. reflexivity.
      * apply IHall. intros y Hy. apply Hitems. right. exact Hy.
  - cbn [zparse]. destruct v as [| | | | |props]; try discriminate. intros [= <-]. split.
    + apply agree_props; [apply lookup_delete_eq|].
      intros key Hk. rewrite lookup_delete_ne by congruence.
      destruct (props !! key); constructor. apply agree_same.
    + intros Hfree. f_equal. apply proto_free_delete, Hfree.
  - destruct v as [| | | | |props]; try (cbn [zparse]; discriminate).
    rewrite zparse_object. cbn zeta. intros H. apply settle_Ok in H as [Hnone ->].
    pose proof (rebuild_related
                  (fun x x' => agree_but_proto x x' /\ (~ has_proto x -> x' = x))
                  shape path props
                  (fun x => conj (agree_same x) (fun _ => eq_refl)) IH Hnone) as Hlook.
    split.
    + apply agree_props; [apply lookup_delete_eq|].
      intros key Hk. rewrite lookup_delete_ne by congruence.
      destruct (Hlook key) as [x x' [Hagree _]|]; constructor. exact Hagree.
    + intros Hfree. f_equal. apply map_eq. intros key.
      destruct (decide (key = proto_name)) as [->|Hk].
      * rewrite lookup_delete_eq.
        destruct (props !! proto_name) as [x|] eqn:Hx; [|reflexivity].
        exfalso. apply Hfree, has_proto_own. exists x. exact Hx.
      * rewrite lookup_delete_ne by congruence. specialize (Hlook key).
        destruct (props !! key) as [x|] eqn:Hx.
        -- inversion Hlook as [? x' [_ Heq] Ha Hb|]; subst. f_equal. apply Heq.
           intros Hproto. apply Hfree.
           exact (has_proto_in_property props key x Hx Hproto).
        -- inversion Hlook. reflexivity.
  - cbn [zparse]. apply IH.
  - cbn [zparse]. intros [= <-]. split; [constructor|reflexivity].
Qed.

(** The object a tool's validator returns. *)
Lemma accepted_object shape path props r :
  zparse rt (ZObject shape) path (JObj props) = Ok r ->
  exists props',
    r = JObj props' /\
    props' !! proto_name = None /\
    (forall key, key <> proto_name -> ~ In key (List.map fst shape) ->
                 props' !! key = props !! key) /\
    (forall key, key <> proto_name ->
                 option_Forall2
                   (fun x x' => agree_but_proto x x' /\ (~ has_proto x -> x' = x))
                   (props !! key) (props' !! key)).
Proof.
  rewrite zparse_object. cbn zeta. intros H. apply settle_Ok in H as [Hnone ->].
  eexists. split; [reflexivity|]. split; [apply lookup_delete_eq|]. split.
  - intros key Hk Hundeclared. rewrite lookup_delete_ne by congruence.
    rewrite rebuild_lookup_undeclared by exact Hundeclared.
    destruct (props !! key) as [x|] eqn:Hx.
    + apply map_lookup_filter_Some_2; [exact Hx|].
      apply includes_name_not_In. exact Hundeclared.
    + apply map_lookup_filter_None_2. left. exact Hx.
  - intros key Hk. rewrite lookup_delete_ne by congruence.
    apply rebuild_related; [intros x; split; [constructor|reflexivity]| |exact Hnone].
    apply List.Forall_forall. intros kz _ p v r. apply accepted_value.
Qed.

End Validation.
(** ** The endpoint *)

Section Endpoint.

Variable rt : Runtime.
Variable message_of : issue_code -> jsstring.
Variable body : ToolBody.

(** The limiter does not look at the trace. *)
Lemma checkRateLimit_after_emit env operation clientId now fl e w :
  fst (checkRateLimit env operation clientId now fl (emit e w))
  = fst (checkRateLimit env operation clientId now fl w).
Proof. apply checkRateLimit_local; reflexivity. Qed.

Lemma checkRateLimit_trace_grows env operation clientId now fl w :
  exists evs, trace (snd (checkRateLimit env operation clientId now fl w)) = trace w ++ evs /\
              forall tool, ~ In (EvToolBody tool) evs /\ ~ In EvReadBody evs.
Proof.
  unfold checkRateLimit. destruct (RATE_LIMIT_KV env) as [b|].
  - unfold mbind, M_bind, kv_get, try_catch, kv_put, console_error, tell, mret, M_ret.
    cbn zeta. destruct (get_throws fl); cbn [fst snd emit trace].
    { eexists. split; [reflexivity|]. intros t. split; intros [H|[]]; discriminate H. }
    match goal with
    | |- context [requests ?c <=? ?n] => destruct (requests c <=? n)
    end; cbn [fst snd emit trace].
    { eexists. split; [reflexivity|]. intros t. split; intros [H|[]]; discriminate H. }
    destruct (put_throws fl); cbn [fst snd emit trace]; rewrite <- ?app_assoc;
      (eexists; split; [reflexivity|]); intros t; split; cbn [In app];
      intros H; repeat destruct H as [H|H]; try discriminate H; exact H.
  - unfold checkRateLimitInMemory, mbind, M_bind, map_get, map_set, map_increment,
      mret, M_ret. cbn zeta.
    destruct (rateLimitMap w !! memory_key operation clientId) as [en|];
      cbn [fst snd emit trace];
      [destruct (mem_resetAt en <? now); cbn [fst snd emit trace];
       [|destruct (requests (rate_config operation) <=? mem_count en);
         cbn [fst snd emit trace]]|];
      rewrite <- ?app_assoc; (eexists; split; [reflexivity|]); intros t; split;
      cbn [In app]; intros H; repeat destruct H as [H|H]; try discriminate H; exact H.
Qed.

(** A generated correlation id is never empty, so the endpoint always
    has one. *)
Lemma correlation_id_truthy {Body : Type} (req : HttpRequest Body) amb :
  truthy (getOrCreateCorrelationId req amb) = true.
Proof.
  unfold getOrCreateCorrelationId, or_literal.
  destruct (extractCorrelationId req) as [s|]; [|reflexivity].
  destruct (truthy s) eqn:Hs; [exact Hs|reflexivity].
Qed.

(** The guard of [executeTool]: a rejection by the limiter is thrown as a
    [RateLimitError] that carries the seconds to wait and no correlation
    id; the tool is not run. *)
Lemma executeTool_rejected toolName t args validated env clientIp amb w r :
  find_tool toolName = Some t ->
  includes_name RATE_LIMITED_TOOLS toolName = true ->
  truthy clientIp = true ->
  validateArgs rt message_of toolName args (inputSchema t) = Ok validated ->
  fst (checkRateLimit env (js "token-ops") clientIp (at_limiter amb) (faults amb) w) = Ok r ->
  allowed r = false ->
  let retryAfter := ceil_div (resetAt r - at_retry amb) 1000 in
  let w' := snd (checkRateLimit env (js "token-ops") clientIp (at_limiter amb) (faults amb)
                   (emit (EvValidate toolName) w)) in
  executeTool rt message_of body toolName args env (Some clientIp) amb w
  = (Throw (TMcp (new_RateLimitError
                    (js "Rate limit exceeded. Try again in " ++ String_of_Z retryAfter
                     ++ js "s")
                    (Some retryAfter) None)),
     w').
Proof.
  intros Hfind Hlimited Hip Hvalid Hcheck Hrej. cbn zeta.
  unfold executeTool. rewrite Hfind.
  unfold mbind, M_bind, tell, lift. cbn [fst snd]. rewrite Hvalid, Hlimited.
  cbn [truthy_opt andb]. rewrite Hip.
  change (default [] (Some clientIp)) with clientIp.
  rewrite <- (checkRateLimit_after_emit _ _ _ _ _ (EvValidate toolName)) in Hcheck.
  destruct (checkRateLimit env (js "token-ops") clientIp (at_limiter amb) (faults amb)
              (emit (EvValidate toolName) w)) as [res w1].
  cbn [fst snd] in *. subst res. cbv beta iota. rewrite Hrej. reflexivity.
Qed.


Lemma endpoint_clientIp_truthy {Body : Type} (req : HttpRequest Body) :
  truthy (endpoint_clientIp req) = true.
Proof.
  unfold endpoint_clientIp, or_literal.
  destruct (or_else _ _) as [s|]; [|reflexivity].
  destruct (truthy s) eqn:Hs; [exact Hs|reflexivity].
Qed.

(** What [handleMCPRequest] answers when the limiter rejects: an error
    result, and no rate-limit information. [categorizeError] is given the
    correlation id of the request; the [RateLimitError] has none, so a
    plain [McpError] copy comes back and the [instanceof RateLimitError]
    test fails. *)
Lemma handleMCPRequest_rejected request toolName t validated env clientIp cid amb w r :
  method request = js "tools/call" ->
  or_literal (match params request with Some p => name p | None => None end) [] = toolName ->
  truthy toolName = true ->
  find_tool toolName = Some t ->
  includes_name RATE_LIMITED_TOOLS toolName = true ->
  truthy clientIp = true ->
  truthy cid = true ->
  validateArgs rt message_of toolName (arguments_or_empty (params request)) (inputSchema t)
    = Ok validated ->
  fst (checkRateLimit env (js "token-ops") clientIp (at_limiter amb) (faults amb) w) = Ok r ->
  allowed r = false ->
  fst (handleMCPRequest rt message_of body request env clientIp cid amb w)
  = Ok {| response :=
            {| response_id := rpc_id request;
               payload :=
                 RpcResult
                   (ResToolText
                      (js "Error: "
                       ++ (js "Rate limit exceeded. Try again in "
                           ++ String_of_Z (ceil_div (resetAt r - at_retry amb) 1000)
                           ++ js "s"))
                      true) |};
          rateLimitInfo := None |}.
Proof.
  intros Hm Hname Htruthy Hfind Hlimited Hip Hcid Hvalid Hcheck Hrej.
  unfold handleMCPRequest. rewrite Hm, Hname.
  change (jsstring_eqb (js "tools/call") (js "initialize")) with false.
  change (jsstring_eqb (js "tools/call") (js "tools/list")) with false.
  change (jsstring_eqb (js "tools/call") (js "tools/call")) with true.
  cbv beta iota. rewrite Htruthy, Hfind. cbn [negb].
  unfold try_catch at 1 2. unfold mbind at 1, M_bind at 1.
  rewrite (executeTool_rejected _ _ _ _ _ _ _ _ _ Hfind Hlimited Hip Hvalid Hcheck Hrej).
  cbv beta iota.
  unfold categorizeError. cbn [truthy_opt correlationId new_RateLimitError].
  rewrite Hcid. cbn [andb negb].
  unfold logger, mbind, M_bind, tell, mret, M_ret. cbn [fst snd].
  reflexivity.
Qed.


(** *** Authentication comes first *)

(** A call without the key, with an empty key, or with a key that
    [secureCompare] finds different is answered 401 with the JSON-RPC
    error -32000 and the correlation id; the only thing done is the
    warning on the console. *)
Lemma unauthenticated_is_refused env (req : HttpRequest MCPRequest) amb w :
  (forall k, header req "X-API-Key" = Some k -> truthy k = true ->
             secureCompare k (MCP_API_KEY env) = Ok false) ->
  let cid := getOrCreateCorrelationId req amb in
  mcp_endpoint rt message_of body env req amb w
  = (Ok (respond cid
           {| response_id := JNull; payload := RpcError (-32000) (js "Unauthorized") cid |}
           401 None),
     emit (EvLog LWarn (js "Unauthorized request")) w).
Proof.
  intros Hcmp. cbn zeta. unfold mcp_endpoint.
  destruct (header req "X-API-Key") as [k|] eqn:Hk.
  - destruct (truthy k) eqn:Htk.
    + rewrite (Hcmp k eq_refl Htk). reflexivity.
    + reflexivity.
  - reflexivity.
Qed.

(** Whatever becomes of a call that is not authenticated, an exception
    included: the stores are untouched and nothing but console output
    happened; the body was not read, no argument validated, the limiter
    and the tool not called. *)
Lemma unauthenticated_reaches_nothing env (req : HttpRequest MCPRequest) amb w :
  (forall k, header req "X-API-Key" = Some k -> truthy k = true ->
             secureCompare k (MCP_API_KEY env) <> Ok true) ->
  let w' := snd (mcp_endpoint rt message_of body env req amb w) in
  same_stores w' w /\
  exists evs, trace w' = trace w ++ evs /\ List.Forall is_log evs.
Proof.
  intros Hcmp. cbn zeta. unfold mcp_endpoint.
  assert (forall w0 : World,
             same_stores (emit (EvLog LWarn (js "Unauthorized request")) w0) w0 /\
             exists evs, trace (emit (EvLog LWarn (js "Unauthorized request")) w0)
                         = trace w0 ++ evs /\ List.Forall is_log evs) as Hwarn.
  { intros w0. split; [split; reflexivity|].
    eexists. split; [reflexivity|]. repeat constructor. }
  destruct (header req "X-API-Key") as [k|] eqn:Hk; [|apply Hwarn].
  destruct (truthy k) eqn:Htk; [|apply Hwarn].
  specialize (Hcmp k eq_refl Htk).
  unfold mbind, M_bind, lift.
  destruct (secureCompare k (MCP_API_KEY env)) as [[|]|e]; cbv beta iota.
  - contradiction.
  - apply Hwarn.
  - cbn [snd]. split; [split; reflexivity|].
    exists []. split; [symmetry; apply app_nil_r|constructor].
Qed.

(** *** A rejection by the limiter, seen from outside *)

Lemma response_without_extra_headers cid r st :
  response_header (respond cid r st None) "X-RateLimit-Remaining" = None /\
  response_header (respond cid r st None) "X-RateLimit-Reset" = None.
Proof.
  unfold response_header, respond, set_header. cbn [resp_headers default foldl fst snd].
  split.
  - rewrite lookup_insert_ne by (vm_compute; discriminate).
    rewrite lookup_insert_ne by (vm_compute; discriminate).
    apply lookup_empty.
  - rewrite lookup_insert_ne by (vm_compute; discriminate).
    rewrite lookup_insert_ne by (vm_compute; discriminate).
    apply lookup_empty.
Qed.


(** C1 fails at the last step. When the limiter rejects a mutating tool,
    [executeTool] throws a [RateLimitError] without correlation id;
    [handleMCPRequest] passes it to [categorizeError] with the id of the
    request, gets a plain [McpError] copy back, finds it is no
    [RateLimitError] and attaches no rate-limit information. The endpoint
    therefore answers with status 200 and without the X-RateLimit
    headers; the rejection is only in the body, as an error result. *)
Theorem limiter_rejection_is_answered_200
    env (req : HttpRequest MCPRequest) request toolName t validated amb w apiKey r :
  header req "X-API-Key" = Some apiKey ->
  truthy apiKey = true ->
  secureCompare apiKey (MCP_API_KEY env) = Ok true ->
  truthy (CLOUDFLARE_BOOTSTRAP_TOKEN env) = true ->
  req_body req = Some request ->
  method request = js "tools/call" ->
  or_literal (match params request with Some p => name p | None => None end) [] = toolName ->
  truthy toolName = true ->
  find_tool toolName = Some t ->
  includes_name RATE_LIMITED_TOOLS toolName = true ->
  validateArgs rt message_of toolName (arguments_or_empty (params request)) (inputSchema t)
    = Ok validated ->
  fst (checkRateLimit env (js "token-ops") (endpoint_clientIp req) (at_limiter amb)
         (faults amb) w) = Ok r ->
  allowed r = false ->
  exists resp,
    fst (mcp_endpoint rt message_of body env req amb w) = Ok resp /\
    status resp = 200 /\
    response_header resp "X-RateLimit-Remaining" = None /\
    response_header resp "X-RateLimit-Reset" = None /\
    payload (resp_body resp)
    = RpcResult
        (ResToolText
           (js "Error: "
            ++ (js "Rate limit exceeded. Try again in "
                ++ String_of_Z (ceil_div (resetAt r - at_retry amb) 1000) ++ js "s"))
           true).
Proof.
  intros Hkey Htk Hcmp Hboot Hbody Hm Hname Htn Hfind Hlim Hvalid Hcheck Hrej.
  unfold mcp_endpoint. rewrite Hkey, Htk, Hcmp, Hbody.
  unfold mbind at 1, M_bind at 1, lift at 1. cbv beta iota. cbn [negb].
  rewrite Hboot. cbn [negb].
  unfold mbind, M_bind, logger, tell. cbv beta iota.
  set (w2 := emit (EvLog LInfo (js "Processing MCP request")) (emit EvReadBody w)).
  pose proof (handleMCPRequest_rejected request toolName t validated env
                (endpoint_clientIp req) (getOrCreateCorrelationId req amb) amb w2 r
                Hm Hname Htn Hfind Hlim (endpoint_clientIp_truthy req)
                (correlation_id_truthy req amb) Hvalid) as Hh.
  unfold w2 in Hh at 1. rewrite !checkRateLimit_after_emit in Hh.
  specialize (Hh Hcheck Hrej).
  destruct (handleMCPRequest rt message_of body request env (endpoint_clientIp req)
              (getOrCreateCorrelationId req amb) amb w2) as [res w3].
  cbn [fst] in Hh. subst res. cbv beta iota. cbn [fst rateLimitInfo response].
  eexists. split; [reflexivity|]. split; [reflexivity|].
  destruct (response_without_extra_headers (getOrCreateCorrelationId req amb)
              {| response_id := rpc_id request;
                 payload :=
                   RpcResult
                     (ResToolText
                        (js "Error: "
                         ++ (js "Rate limit exceeded. Try again in "
                             ++ String_of_Z (ceil_div (resetAt r - at_retry amb) 1000)
                             ++ js "s")) true) |} 200) as [H1 H2].
  split; [exact H1|]. split; [exact H2|]. reflexivity.
Qed.


(** *** Which identity the limiter is asked about *)

Lemma same_stores_refl w : same_stores w w.
Proof. split; reflexivity. Qed.

Lemma same_stores_trans w1 w2 w3 :
  same_stores w1 w2 -> same_stores w2 w3 -> same_stores w1 w3.
Proof. intros [H1 H2] [H3 H4]. split; congruence. Qed.

Lemma same_stores_emit e w : same_stores (emit e w) w.
Proof. split; reflexivity. Qed.

(** The stores the limiter leaves depend on the stores it finds. *)
Lemma checkRateLimit_stores_local env operation clientId now fl w1 w2 :
  same_stores w1 w2 ->
  same_stores (snd (checkRateLimit env operation clientId now fl w1))
              (snd (checkRateLimit env operation clientId now fl w2)).
Proof.
  intros [Hkv Hmap]. destruct w1 as [k1 m1 t1], w2 as [k2 m2 t2].
  cbn [kv rateLimitMap] in Hkv, Hmap. subst k2 m2.
  unfold checkRateLimit. destruct (RATE_LIMIT_KV env) as [b|].
  - unfold mbind, M_bind, kv_get, try_catch, kv_put, console_error, tell, mret, M_ret.
    cbn zeta. cbn [kv rateLimitMap trace emit].
    destruct (get_throws fl); cbn [fst snd]; [split; reflexivity|].
    match goal with
    | |- context [requests ?c <=? ?n] => destruct (requests c <=? n)
    end; cbn [fst snd]; [split; reflexivity|].
    destruct (put_throws fl); cbn [fst snd emit]; split; reflexivity.
  - unfold checkRateLimitInMemory, mbind, M_bind, map_get, map_set, map_increment,
      mret, M_ret. cbn zeta. cbn [kv rateLimitMap trace emit].
    destruct (m1 !! memory_key operation clientId) as [en|];
      cbn [fst snd emit];
      [destruct (mem_resetAt en <? now); cbn [fst snd emit];
       [|destruct (requests (rate_config operation) <=? mem_count en);
         cbn [fst snd emit]]|];
      split; reflexivity.
Qed.

(** For a mutating tool with valid arguments, all [executeTool] does to
    the stores is the limiter's call for the identity it was given. *)
Lemma executeTool_stores toolName t args validated env clientIp amb w :
  find_tool toolName = Some t ->
  includes_name RATE_LIMITED_TOOLS toolName = true ->
  truthy clientIp = true ->
  validateArgs rt message_of toolName args (inputSchema t) = Ok validated ->
  same_stores
    (snd (executeTool rt message_of body toolName args env (Some clientIp) amb w))
    (snd (checkRateLimit env (js "token-ops") clientIp (at_limiter amb) (faults amb) w)).
Proof.
  intros Hfind Hlimited Hip Hvalid.
  unfold executeTool. rewrite Hfind.
  unfold mbind, M_bind, tell, lift. cbn [fst snd]. rewrite Hvalid, Hlimited.
  cbn [truthy_opt andb]. rewrite Hip.
  change (default [] (Some clientIp)) with clientIp.
  pose proof (checkRateLimit_stores_local env (js "token-ops") clientIp (at_limiter amb)
                (faults amb) _ _ (same_stores_emit (EvValidate toolName) w)) as Hloc.
  destruct (checkRateLimit env (js "token-ops") clientIp (at_limiter amb) (faults amb)
              (emit (EvValidate toolName) w)) as [[res|e] w1]; cbn [snd] in Hloc;
    cbv beta iota; [|exact Hloc].
  destruct (allowed res); cbn [negb]; unfold throw, mret, M_ret; cbv beta iota;
    [|exact Hloc].
  cbn [snd]. exact (same_stores_trans _ _ _ (same_stores_emit _ _) Hloc).
Qed.

Lemma handleMCPRequest_stores request toolName t validated env clientIp cid amb w :
  method request = js "tools/call" ->
  or_literal (match params request with Some p => name p | None => None end) [] = toolName ->
  truthy toolName = true ->
  find_tool toolName = Some t ->
  includes_name RATE_LIMITED_TOOLS toolName = true ->
  truthy clientIp = true ->
  validateArgs rt message_of toolName (arguments_or_empty (params request)) (inputSchema t)
    = Ok validated ->
  exists res w',
    handleMCPRequest rt message_of body request env clientIp cid amb w = (Ok res, w') /\
    same_stores w'
      (snd (checkRateLimit env (js "token-ops") clientIp (at_limiter amb) (faults amb) w)).
Proof.
  intros Hm Hname Htruthy Hfind Hlimited Hip Hvalid.
  pose proof (executeTool_stores toolName t (arguments_or_empty (params request))
                validated env clientIp amb w Hfind Hlimited Hip Hvalid) as Hex.
  unfold handleMCPRequest. rewrite Hm, Hname.
  change (jsstring_eqb (js "tools/call") (js "initialize")) with false.
  change (jsstring_eqb (js "tools/call") (js "tools/list")) with false.
  change (jsstring_eqb (js "tools/call") (js "tools/call")) with true.
  cbv beta iota. rewrite Htruthy, Hfind. cbn [negb].
  unfold try_catch at 1 2. unfold mbind at 1, M_bind at 1.
  destruct (executeTool rt message_of body toolName (arguments_or_empty (params request))
              env (Some clientIp) amb w) as [[text|e] w1]; cbn [snd] in Hex;
    cbv beta iota; unfold logger, mbind, M_bind, tell, mret, M_ret; cbn [fst snd].
  - eexists _, _. split; [reflexivity|exact Hex].
  - eexists _, _. split; [reflexivity|].
    exact (same_stores_trans _ _ _ (same_stores_emit _ _) Hex).
Qed.

(** The endpoint asks the limiter about [endpoint_clientIp]: for an
    authenticated call of a mutating tool with valid arguments, what the
    request does to the stores is the limiter's call for that identity. *)
Lemma endpoint_limits_by_clientIp
    env (req : HttpRequest MCPRequest) request toolName t validated amb w apiKey :
  header req "X-API-Key" = Some apiKey ->
  truthy apiKey = true ->
  secureCompare apiKey (MCP_API_KEY env) = Ok true ->
  truthy (CLOUDFLARE_BOOTSTRAP_TOKEN env) = true ->
  req_body req = Some request ->
  method request = js "tools/call" ->
  or_literal (match params request with Some p => name p | None => None end) [] = toolName ->
  truthy toolName = true ->
  find_tool toolName = Some t ->
  includes_name RATE_LIMITED_TOOLS toolName = true ->
  validateArgs rt message_of toolName (arguments_or_empty (params request)) (inputSchema t)
    = Ok validated ->
  same_stores
    (snd (mcp_endpoint rt message_of body env req amb w))
    (snd (checkRateLimit env (js "token-ops") (endpoint_clientIp req) (at_limiter amb)
            (faults amb) w)).
Proof.
  intros Hkey Htk Hcmp Hboot Hbody Hm Hname Htn Hfind Hlim Hvalid.
  unfold mcp_endpoint. rewrite Hkey, Htk, Hcmp, Hbody.
  unfold mbind at 1, M_bind at 1, lift at 1. cbv beta iota. cbn [negb].
  rewrite Hboot. cbn [negb].
  unfold mbind, M_bind, logger, tell. cbv beta iota.
  set (w2 := emit (EvLog LInfo (js "Processing MCP request")) (emit EvReadBody w)).
  destruct (handleMCPRequest_stores request toolName t validated env
              (endpoint_clientIp req) (getOrCreateCorrelationId req amb) amb w2
              Hm Hname Htn Hfind Hlim (endpoint_clientIp_truthy req) Hvalid)
    as (res & w3 & Hres & Hst).
  rewrite Hres. cbv beta iota. cbn [snd].
  apply (same_stores_trans _ _ _ (same_stores_emit _ _)).
  apply (same_stores_trans _ _ _ Hst).
  apply checkRateLimit_stores_local. unfold w2.
  exact (same_stores_trans _ _ _ (same_stores_emit _ _) (same_stores_emit _ _)).
Qed.

End Endpoint.

Lemma limiter_rejection_is_answered_200_witness :
  fst (checkRateLimit env_with_kv (js "token-ops") (endpoint_clientIp create_token_request)
         (at_limiter (ambient_at 11000)) (faults (ambient_at 11000)) world_after_ten_calls)
  = Ok {| allowed := false; remaining := 0; resetAt := 61000 |} /\
  exists resp,
    fst (mcp_endpoint ascii_runtime plain_messages succeeding_body env_with_kv
           create_token_request (ambient_at 11000) world_after_ten_calls) = Ok resp /\
    status resp = 200 /\
    response_header resp "X-RateLimit-Remaining" = None /\
    response_header resp "X-RateLimit-Reset" = None /\
    payload (resp_body resp)
    = RpcResult (ResToolText (js "Error: Rate limit exceeded. Try again in 50s") true).
Proof.
  assert (fst (checkRateLimit env_with_kv (js "token-ops")
                 (endpoint_clientIp create_token_request)
                 (at_limiter (ambient_at 11000)) (faults (ambient_at 11000))
                 world_after_ten_calls)
          = Ok {| allowed := false; remaining := 0; resetAt := 61000 |}) as Hr
    by (vm_compute; reflexivity).
  split; [exact Hr|].
  apply (limiter_rejection_is_answered_200 ascii_runtime plain_messages succeeding_body
           env_with_kv create_token_request create_token_call (js "create_token")
           create_token_tool
           create_token_arguments (ambient_at 11000) world_after_ten_calls
           (js "test-api-key") {| allowed := false; remaining := 0; resetAt := 61000 |});
    try (vm_compute; reflexivity).
Defined.
(** Eleven [create_token] calls, one second apart, from one address:
    every answer has status 200 and no rate-limit header; the eleventh
    is the limiter's rejection, told in the body only. *)
Example eleven_create_token_calls :
  List.map digest
    (fst (serve ascii_runtime plain_messages succeeding_body env_with_kv
            create_token_request 11 1000 empty_world))
  = repeat (Some (200, None, None, Some false)) 10
    ++ [Some (200, None, None, Some true)].
Proof. vm_compute. reflexivity. Qed.

(** C3 fails for a key of the expected length in code units and another
    length in bytes: [secureCompare] throws, the handler has no [try]
    around it, and the call ends in that exception instead of the 401
    answer. Nothing else has happened by then: the world is as it was. *)
Theorem unauthenticated_call_escapes_as_exception
    rt message_of body (b : option MCPRequest) amb w :
  header (mistyped_key_request b) "X-API-Key" <> Some (MCP_API_KEY env_with_kv) /\
  mcp_endpoint rt message_of body env_with_kv (mistyped_key_request b) amb w
  = (Throw (TNative RangeErrorC timing_safe_equal_length_message), w).
Proof.
  split; [vm_compute; discriminate|].
  unfold mcp_endpoint.
  assert (header (mistyped_key_request b) "X-API-Key" = Some (js "test-api-ke" ++ [233%N]))
    as -> by (vm_compute; reflexivity).
  assert (truthy (js "test-api-ke" ++ [233%N]) = true) as -> by reflexivity.
  assert (secureCompare (js "test-api-ke" ++ [233%N]) (MCP_API_KEY env_with_kv)
          = Throw (TNative RangeErrorC timing_safe_equal_length_message)) as ->
    by (vm_compute; reflexivity).
  reflexivity.
Qed.

(** An unauthenticated call with an ASCII key, as the README's keys are:
    refused with 401 before anything else. *)
Example wrong_ascii_key_is_refused :
  let req : HttpRequest MCPRequest :=
    {| req_headers := {[ js "x-api-key" := js "not-the-key" ]};
       req_body := Some create_token_call |} in
  let p := mcp_endpoint ascii_runtime plain_messages succeeding_body env_with_kv req
             (ambient_at 1000) empty_world in
  (exists resp, fst p = Ok resp /\ status resp = 401 /\
     payload (resp_body resp)
     = RpcError (-32000) (js "Unauthorized") (js "ctm-mkz1x2ab-4fzzzxjy")) /\
  trace (snd p) = [EvLog LWarn (js "Unauthorized request")].
Proof.
  cbv zeta. rewrite unauthenticated_is_refused.
  - split; [eexists; split; [reflexivity|]; split; reflexivity|reflexivity].
  - intros k Hk _. vm_compute in Hk. injection Hk as <-. vm_compute. reflexivity.
Qed.

(** C8, as stated, fails for the endpoint: it never reads [X-Client-ID].
    Two callers that name themselves "alice" and "bob" from one address
    are one bucket: after ten calls by alice the first call by bob is
    rejected, though [getClientId] tells them apart. *)
Lemma limiter_bucket_ignores_client_id_header :
  let alice := create_token_request_from "alice" in
  let bob := create_token_request_from "bob" in
  getClientId alice = js "client:alice" /\
  getClientId bob = js "client:bob" /\
  endpoint_clientIp alice = js "203.0.113.7" /\
  endpoint_clientIp bob = js "203.0.113.7" /\
  let after_alice :=
    serve ascii_runtime plain_messages succeeding_body env_with_kv alice 10 1000
      empty_world in
  List.map digest (fst after_alice) = repeat (Some (200, None, None, Some false)) 10 /\
  kv (snd after_alice) !! limiter_key (js "token-ops") (js "client:alice") = None /\
  kv (snd after_alice) !! limiter_key (js "token-ops") (js "alice") = None /\
  is_Some (kv (snd after_alice) !! limiter_key (js "token-ops") (js "203.0.113.7")) /\
  digest (fst (mcp_endpoint ascii_runtime plain_messages succeeding_body env_with_kv bob
                 (ambient_at 11000) (snd after_alice)))
  = Some (200, None, None, Some true).
Proof.
  cbv zeta. repeat split; try (vm_compute; reflexivity).
  vm_compute. eexists. reflexivity.
Qed.
(** C8, amended: there are two derivations and neither can fail.
    [getClientId] prefers a non-empty [X-Client-ID], then the
    [CF-Connecting-IP] address, then "unknown"; the endpoint, which is
    what the limiter is asked about, takes [CF-Connecting-IP], then
    [X-Forwarded-For], then "unknown": for an authenticated call of a
    mutating tool with valid arguments, what the request does to the
    stores is the limiter's call for that identity. *)
Theorem identity_derivation :
  (forall (Body : Type) (req : HttpRequest Body),
     getClientId req
     = match header req "X-Client-ID", header req "CF-Connecting-IP" with
       | Some (c :: customId), _ => js "client:" ++ c :: customId
       | _, Some (c :: ip) => js "ip:" ++ c :: ip
       | _, _ => js "ip:unknown"
       end /\
     endpoint_clientIp req
     = match header req "CF-Connecting-IP", header req "X-Forwarded-For" with
       | Some (c :: ip), _ => c :: ip
       | _, Some (c :: forwarded) => c :: forwarded
       | _, _ => js "unknown"
       end /\
     truthy (getClientId req) = true /\
     truthy (endpoint_clientIp req) = true) /\
  (forall rt message_of body env (req : HttpRequest MCPRequest) request toolName t
          validated amb w apiKey,
     header req "X-API-Key" = Some apiKey ->
     truthy apiKey = true ->
     secureCompare apiKey (MCP_API_KEY env) = Ok true ->
     truthy (CLOUDFLARE_BOOTSTRAP_TOKEN env) = true ->
     req_body req = Some request ->
     method request = js "tools/call" ->
     or_literal (match params request with Some p => name p | None => None end) []
       = toolName ->
     truthy toolName = true ->
     find_tool toolName = Some t ->
     includes_name RATE_LIMITED_TOOLS toolName = true ->
     validateArgs rt message_of toolName (arguments_or_empty (params request))
       (inputSchema t) = Ok validated ->
     same_stores
       (snd (mcp_endpoint rt message_of body env req amb w))
       (snd (checkRateLimit env (js "token-ops") (endpoint_clientIp req) (at_limiter amb)
               (faults amb) w))).
Proof.
  split.
  - intros Body req. repeat split.
    + unfold getClientId, or_literal.
      destruct (header req "X-Client-ID") as [[|c customId]|];
        destruct (header req "CF-Connecting-IP") as [[|d ip]|]; reflexivity.
    + unfold endpoint_clientIp, or_literal, or_else.
      destruct (header req "CF-Connecting-IP") as [[|c ip]|];
        destruct (header req "X-Forwarded-For") as [[|d f]|]; reflexivity.
    + unfold getClientId, or_literal.
      destruct (header req "X-Client-ID") as [[|c customId]|];
        destruct (header req "CF-Connecting-IP") as [[|d ip]|]; reflexivity.
    + apply endpoint_clientIp_truthy.
  - intros. eapply endpoint_limits_by_clientIp; eassumption.
Qed.

Lemma identity_derivation_witness :
  let req := create_token_request_from "alice" in
  header req "X-API-Key" = Some (js "test-api-key") /\
  secureCompare (js "test-api-key") (MCP_API_KEY env_with_kv) = Ok true /\
  req_body req = Some create_token_call /\
  find_tool (js "create_token") <> None /\
  endpoint_clientIp req = js "203.0.113.7" /\
  same_stores
    (snd (mcp_endpoint ascii_runtime plain_messages succeeding_body env_with_kv req
            (ambient_at 1000) empty_world))
    (snd (checkRateLimit env_with_kv (js "token-ops") (js "203.0.113.7") 1000 no_faults
            empty_world)).
Proof.
  cbv zeta.
  split; [vm_compute; reflexivity|]. split; [vm_compute; reflexivity|].
  split; [reflexivity|]. split; [vm_compute; discriminate|].
  split; [vm_compute; reflexivity|].
  destruct identity_derivation as [_ Hstores].
  apply (Hstores ascii_runtime plain_messages succeeding_body env_with_kv
           (create_token_request_from "alice") create_token_call (js "create_token")
           create_token_tool
           create_token_arguments (ambient_at 1000) empty_world (js "test-api-key"));
    vm_compute; reflexivity.
Defined.

Lemma create_token_arguments_with_proto_conform :
  conforms_to_tool ascii_runtime (inputSchema create_token_tool)
    create_token_arguments_with_proto.
Proof.
  unfold conforms_to_tool. apply conforms_object. split.
  - intros key [<-|[<-|[]]]; vm_compute; eexists; reflexivity.
  - repeat constructor; vm_compute; auto.
Qed.

(** C9, as stated, fails: [validateArgs] returns a conforming map
    without its own property [__proto__], a property that [JSON.parse]
    creates like any other and that the schema does not declare. *)
Lemma validateArgs_drops_the_proto_property :
  conforms_to_tool ascii_runtime (inputSchema create_token_tool)
    create_token_arguments_with_proto /\
  validateArgs ascii_runtime plain_messages (js "create_token")
    create_token_arguments_with_proto (inputSchema create_token_tool)
  = Ok create_token_arguments /\
  create_token_arguments <> create_token_arguments_with_proto.
Proof.
  split; [exact create_token_arguments_with_proto_conform|]. split.
  - vm_compute. reflexivity.
  - intros Heq.
    apply (f_equal (fun v => match v with
                             | JObj props => props !! proto_name
                             | _ => None
                             end)) in Heq.
    vm_compute in Heq. discriminate Heq.
Qed.

(** C9, amended: under a schema whose property names are read as own
    properties, every argument map that conforms to the schema of a
    tool is accepted by [validateArgs], and the map returned has no
    property [__proto__] and otherwise the properties of the input:
    each undeclared one with its value as it is, each declared one with
    its value but for properties [__proto__] of objects inside it, so
    that a value without such a property comes back as it is. More
    generally whatever [validateArgs] accepts it returns but for
    properties [__proto__]: no value is ever coerced into another, and
    arguments without that property are returned unchanged. *)
Theorem validateArgs_returns_arguments_but_proto
    rt message_of toolName inputSchema args :
  plain_tool inputSchema = true ->
  (conforms_to_tool rt inputSchema args ->
   exists props props',
     args = JObj props /\
     validateArgs rt message_of toolName args inputSchema = Ok (JObj props') /\
     props' !! proto_name = None /\
     (forall key, key <> proto_name ->
                  ~ In key (List.map fst (properties inputSchema)) ->
                  props' !! key = props !! key) /\
     (forall key, key <> proto_name ->
                  option_Forall2 agree_but_proto (props !! key) (props' !! key)) /\
     (forall key x, key <> proto_name -> props !! key = Some x -> ~ has_proto x ->
                    props' !! key = Some x)) /\
  (forall validated,
     validateArgs rt message_of toolName args inputSchema = Ok validated ->
     agree_but_proto args validated /\ (~ has_proto args -> validated = args)).
Proof.
  intros _. unfold validateArgs, buildToolValidator, conforms_to_tool. split.
  - intros Hc. destruct args as [| | | | |props]; try contradiction.
    assert (conforms rt
              (SchObject (Some (properties inputSchema))
                 (Some (default [] (required inputSchema)))) (JObj props)) as Hc'
      by (apply conforms_object; apply conforms_object in Hc; exact Hc).
    destruct (conforming_value_is_accepted rt _ _ [] Hc') as [r Hr].
    rewrite Hr. rewrite jsonSchemaToZod_object in Hr.
    destruct (accepted_object rt _ _ _ _ Hr) as (props' & -> & Hproto & Hund & Hrel).
    exists props, props'. split; [reflexivity|]. split; [reflexivity|].
    split; [exact Hproto|]. split; [|split].
    + intros key Hk Hdecl. apply Hund; [exact Hk|].
      rewrite property_validator_names. exact Hdecl.
    + intros key Hk. destruct (Hrel key Hk) as [x x' [Ha _]|]; constructor. exact Ha.
    + intros key x Hk Hx Hfree. specialize (Hrel key Hk). rewrite Hx in Hrel.
      inversion Hrel as [? x' [_ Heq] Ha Hb|]; subst. rewrite (Heq Hfree). reflexivity.
  - intros validated.
    destruct (zparse rt _ [] args) as [v|found] eqn:Hp; [|discriminate].
    intros [= <-]. exact (accepted_value rt _ _ _ _ Hp).
Qed.

Lemma validateArgs_returns_arguments_but_proto_witness :
  plain_tool (inputSchema create_token_tool) = true /\
  conforms_to_tool ascii_runtime (inputSchema create_token_tool)
    create_token_arguments_with_proto /\
  exists props',
    validateArgs ascii_runtime plain_messages (js "create_token")
      create_token_arguments_with_proto (inputSchema create_token_tool)
    = Ok (JObj props') /\
    props' !! proto_name = None /\
    props' !! js "note" = Some (JStr (js "kept as it is")).
Proof.
  assert (plain_tool (inputSchema create_token_tool) = true) as Hplain
    by (vm_compute; reflexivity).
  pose proof create_token_arguments_with_proto_conform as Hc.
  split; [exact Hplain|]. split; [exact Hc|].
  destruct (validateArgs_returns_arguments_but_proto ascii_runtime plain_messages
              (js "create_token") (inputSchema create_token_tool)
              create_token_arguments_with_proto Hplain) as [Hconf _].
  destruct (Hconf Hc) as (props & props' & Hargs & Hv & Hproto & Hund & _).
  exists props'. split; [exact Hv|]. split; [exact Hproto|].
  injection Hargs as <-. rewrite Hund.
  - vm_compute. reflexivity.
  - vm_compute. discriminate.
  - vm_compute. intuition discriminate.
Defined.

(** Nothing is coerced: the string "true" is no boolean, the string "42"
    no number, and a missing required property is an issue. *)
Example no_coercion :
  zparse ascii_runtime ZBoolean [] (JStr (js "true"))
    = Throw [ {| issue_path := []; issue_kind := invalid_type |} ] /\
  zparse ascii_runtime (ZNumber false None None) [] (JStr (js "42"))
    = Throw [ {| issue_path := []; issue_kind := invalid_type |} ] /\
  zparse ascii_runtime
    (jsonSchemaToZod (SchObject (Some [(js "name", string_schema)]) (Some [js "name"])))
    [] (JObj {[ js "age" := JNum 25 ]})
    = Throw [ {| issue_path := [js "name"]; issue_kind := invalid_type |} ].
Proof. repeat split. Qed.

(** ** Dates and expiration *)

Lemma year_length y : DayFromYear (y + 1) - DayFromYear y = DaysInYear y.
Proof.
  unfold DayFromYear, DaysInYear, leap_year.
  destruct (Z.eqb_spec (y mod 4) 0) as [H4|H4];
    destruct (Z.eqb_spec (y mod 100) 0) as [H100|H100];
    destruct (Z.eqb_spec (y mod 400) 0) as [H400|H400]; cbn [andb orb negb];
    Z.to_euclidean_division_equations; lia.
Qed.

Lemma time_of_day_parts t :
  MakeTime (HourFromTime t) (MinFromTime t) (SecFromTime t) (msFromTime t) = TimeWithinDay t.
Proof.
  unfold MakeTime, HourFromTime, MinFromTime, SecFromTime, msFromTime, TimeWithinDay,
    msPerHour, msPerMinute, msPerSecond, msPerDay.
  Z.to_euclidean_division_equations. lia.
Qed.

Lemma day_and_time t : MakeDate (Day t) (TimeWithinDay t) = t.
Proof.
  unfold MakeDate, Day, TimeWithinDay, msPerDay. Z.to_euclidean_division_equations. lia.
Qed.

Lemma MonthFromTime_range t : 0 <= MonthFromTime t <= 11.
Proof.
  unfold MonthFromTime. cbv zeta.
  repeat match goal with
         | |- context [if ?b then _ else _] => destruct b
         end; lia.
Qed.

Lemma month_start_bounds m leap : 0 <= m <= 11 -> 0 <= month_start m leap <= 335.
Proof.
  intros Hm. unfold month_start.
  repeat match goal with
         | |- context [if ?b then _ else _] => destruct b
         end; lia.
Qed.

Lemma leap_year_days y : DaysInYear y = 365 \/ DaysInYear y = 366.
Proof. unfold DaysInYear. destruct (leap_year y); [right|left]; reflexivity. Qed.

Lemma month_start_step m leap :
  0 <= m <= 10 -> 28 <= month_start (m + 1) leap - month_start m leap <= 31.
Proof.
  intros Hm.
  assert (m = 0 \/ m = 1 \/ m = 2 \/ m = 3 \/ m = 4 \/ m = 5 \/ m = 6 \/ m = 7
          \/ m = 8 \/ m = 9 \/ m = 10) as Hcases by lia.
  repeat destruct Hcases as [Hcases|Hcases]; subst m; destruct leap; vm_compute;
    split; discriminate.
Qed.

(** A month is 28 to 31 days long. *)
Lemma month_length k : 28 <= month_index_start (k + 1) - month_index_start k <= 31.
Proof.
  unfold month_index_start.
  assert (0 <= k mod 12 < 12) as Hm by (apply Z.mod_pos_bound; lia).
  destruct (Z.eq_dec (k mod 12) 11) as [H11|H11].
  - assert ((k + 1) / 12 = k / 12 + 1) as -> by (Z.to_euclidean_division_equations; lia).
    assert ((k + 1) mod 12 = 0) as -> by (Z.to_euclidean_division_equations; lia).
    rewrite H11. pose proof (year_length (k / 12)) as Hy.
    unfold DaysInYear in Hy. unfold month_start.
    destruct (leap_year (k / 12)); cbn; lia.
  - assert ((k + 1) / 12 = k / 12) as -> by (Z.to_euclidean_division_equations; lia).
    assert ((k + 1) mod 12 = k mod 12 + 1) as ->
      by (Z.to_euclidean_division_equations; lia).
    pose proof (month_start_step (k mod 12) (leap_year (k / 12))). lia.
Qed.

Lemma months_length k (n : nat) :
  28 * Z.of_nat n <= month_index_start (k + Z.of_nat n) - month_index_start k
  <= 31 * Z.of_nat n.
Proof.
  induction n as [|n IH].
  - rewrite Z.add_0_r. lia.
  - replace (k + Z.of_nat (S n)) with (k + Z.of_nat n + 1) by lia.
    pose proof (month_length (k + Z.of_nat n)). lia.
Qed.

Lemma years_length y (n : nat) :
  365 * Z.of_nat n <= DayFromYear (y + Z.of_nat n) - DayFromYear y <= 366 * Z.of_nat n.
Proof.
  induction n as [|n IH].
  - rewrite Z.add_0_r. lia.
  - replace (y + Z.of_nat (S n)) with (y + Z.of_nat n + 1) by lia.
    pose proof (year_length (y + Z.of_nat n)).
    pose proof (leap_year_days (y + Z.of_nat n)). lia.
Qed.

Lemma MakeDay_month_index y m d : MakeDay y m d = month_index_start (12 * y + m) + d - 1.
Proof.
  unfold MakeDay, month_index_start. cbv zeta.
  assert ((12 * y + m) / 12 = y + m / 12) as ->
    by (Z.to_euclidean_division_equations; lia).
  assert ((12 * y + m) mod 12 = m mod 12) as ->
    by (Z.to_euclidean_division_equations; lia).
  reflexivity.
Qed.

(** The calendar fields of a time value name its day. *)
Lemma MakeDay_fields t :
  MakeDay (YearFromTime t) (MonthFromTime t) (DateFromTime t) = Day t.
Proof.
  pose proof (MonthFromTime_range t) as Hm.
  unfold MakeDay. cbv zeta.
  rewrite Z.div_small, Z.mod_small, Z.add_0_r by lia.
  unfold DateFromTime, DayWithinYear. lia.
Qed.

Lemma TimeClip_in_range t : Z.abs t <= 8640000000000000 -> TimeClip t = Some t.
Proof. intros H. unfold TimeClip. apply Z.leb_le in H. rewrite H. reflexivity. Qed.

Lemma setHours_plus_exact now n :
  plausible_now now -> 0 <= n <= 8760 -> setHours_plus now n = Some (now + n * msPerHour).
Proof.
  intros [H0 H1] Hn. unfold setHours_plus.
  assert (MakeDate (Day now)
            (MakeTime (HourFromTime now + n) (MinFromTime now) (SecFromTime now)
               (msFromTime now))
          = now + n * msPerHour) as ->.
  { pose proof (day_and_time now) as Hdt. pose proof (time_of_day_parts now) as Hparts.
    unfold MakeDate, MakeTime, msPerHour, msPerMinute, msPerSecond, msPerDay in *. lia. }
  apply TimeClip_in_range. unfold msPerHour. lia.
Qed.

Lemma setDate_plus_exact now n :
  plausible_now now -> 0 <= n <= 365 -> setDate_plus now n = Some (now + n * msPerDay).
Proof.
  intros [H0 H1] Hn. unfold setDate_plus.
  assert (MakeDay (YearFromTime now) (MonthFromTime now) (DateFromTime now + n)
          = Day now + n) as ->.
  { pose proof (MakeDay_fields now) as Hf. unfold MakeDay in *. lia. }
  assert (MakeDate (Day now + n) (TimeWithinDay now) = now + n * msPerDay) as ->.
  { pose proof (day_and_time now) as Hdt. unfold MakeDate, msPerDay in *. lia. }
  apply TimeClip_in_range. unfold msPerDay. lia.
Qed.

Lemma setMonth_plus_bounds now n :
  plausible_now now -> 0 <= n <= 12 ->
  let t := MakeDate (MakeDay (YearFromTime now) (MonthFromTime now + n) (DateFromTime now))
             (TimeWithinDay now) in
  setMonth_plus now n = Some t /\
  now + 28 * n * msPerDay <= t <= now + 31 * n * msPerDay.
Proof.
  intros [H0 H1] Hn. cbv zeta. unfold setMonth_plus.
  assert (28 * n
          <= MakeDay (YearFromTime now) (MonthFromTime now + n) (DateFromTime now) - Day now
          <= 31 * n) as Hd.
  { pose proof (MakeDay_fields now) as Hf. rewrite MakeDay_month_index in Hf.
    rewrite MakeDay_month_index.
    pose proof (months_length (12 * YearFromTime now + MonthFromTime now) (Z.to_nat n)) as Hm.
    rewrite Z2Nat.id in Hm by lia.
    replace (12 * YearFromTime now + (MonthFromTime now + n))
      with (12 * YearFromTime now + MonthFromTime now + n) by lia.
    lia. }
  assert (now + 28 * n * msPerDay
          <= MakeDate (MakeDay (YearFromTime now) (MonthFromTime now + n) (DateFromTime now))
               (TimeWithinDay now)
          <= now + 31 * n * msPerDay) as Hb.
  { pose proof (day_and_time now) as Hdt. unfold MakeDate, msPerDay in *. lia. }
  split; [|exact Hb]. apply TimeClip_in_range. unfold msPerDay in Hb. lia.
Qed.

Lemma setFullYear_plus_bounds now n :
  plausible_now now -> 0 <= n <= 10 ->
  let t := MakeDate (MakeDay (YearFromTime now + n) (MonthFromTime now) (DateFromTime now))
             (TimeWithinDay now) in
  setFullYear_plus now n = Some t /\
  now + (365 * n - 1) * msPerDay <= t <= now + (366 * n + 1) * msPerDay.
Proof.
  intros [H0 H1] Hn. cbv zeta. unfold setFullYear_plus.
  pose proof (MonthFromTime_range now) as Hm.
  assert (365 * n - 1
          <= MakeDay (YearFromTime now + n) (MonthFromTime now) (DateFromTime now) - Day now
          <= 366 * n + 1) as Hd.
  { pose proof (MakeDay_fields now) as Hf. unfold MakeDay in *. cbv zeta in *.
    rewrite Z.div_small, Z.mod_small, !Z.add_0_r in * by lia.
    pose proof (years_length (YearFromTime now) (Z.to_nat n)) as Hy.
    rewrite Z2Nat.id in Hy by lia.
    assert (-1 <= month_start (MonthFromTime now) (leap_year (YearFromTime now + n))
                  - month_start (MonthFromTime now) (leap_year (YearFromTime now)) <= 1).
    { unfold month_start.
      destruct (leap_year (YearFromTime now + n)), (leap_year (YearFromTime now));
        repeat match goal with
               | |- context [if ?b then _ else _] => destruct b
               end; lia. }
    lia. }
  assert (now + (365 * n - 1) * msPerDay
          <= MakeDate (MakeDay (YearFromTime now + n) (MonthFromTime now) (DateFromTime now))
               (TimeWithinDay now)
          <= now + (366 * n + 1) * msPerDay) as Hb.
  { pose proof (day_and_time now) as Hdt. unfold MakeDate, msPerDay in *. lia. }
  split; [|exact Hb]. apply TimeClip_in_range. unfold msPerDay in Hb. lia.
Qed.
Lemma YearFromTime_spec t :
  DayFromYear (YearFromTime t) <= Day t < DayFromYear (YearFromTime t + 1).
Proof.
  unfold YearFromTime. cbv zeta. generalize (Day t). intros d.
  assert (DayFromYear (1970 + 400 * d / 146097 - 1) <= d
          < DayFromYear (1970 + 400 * d / 146097 + 1 + 1)) as Hest.
  { unfold DayFromYear. Z.to_euclidean_division_equations. lia. }
  destruct (Z.ltb_spec d (DayFromYear (1970 + 400 * d / 146097))) as [Hlt|Hge].
  - replace (1970 + 400 * d / 146097 - 1 + 1) with (1970 + 400 * d / 146097) by lia. lia.
  - destruct (Z.leb_spec (DayFromYear (1970 + 400 * d / 146097 + 1)) d) as [Hle|Hgt]; lia.
Qed.

(** *** The accepted form *)

Lemma is_unit_not_digit u : is_unit u = true -> is_digit u = false.
Proof.
  unfold is_unit, is_digit. intros H.
  repeat (apply orb_true_iff in H as [H|H]); apply N.eqb_eq in H; subst; reflexivity.
Qed.

Lemma span_digits_app ds u rest :
  List.Forall (fun c => is_digit c = true) ds -> is_digit u = false ->
  span_digits (ds ++ u :: rest) = (ds, u :: rest).
Proof.
  intros Hds Hu. induction Hds as [|c ds Hc _ IH]; simpl.
  - rewrite Hu. reflexivity.
  - rewrite Hc, IH. reflexivity.
Qed.

Lemma span_digits_inv s ds rest :
  span_digits s = (ds, rest) ->
  s = ds ++ rest /\ List.Forall (fun c => is_digit c = true) ds.
Proof.
  revert ds rest. induction s as [|c s IH]; simpl; intros ds rest.
  - intros [= <- <-]. split; [reflexivity|constructor].
  - destruct (is_digit c) eqn:Hc.
    + destruct (span_digits s) as [ds' rest'] eqn:Hs. intros [= <- <-].
      destruct (IH ds' rest' eq_refl) as [-> Hall].
      split; [reflexivity|constructor; assumption].
    + intros [= <- <-]. split; [reflexivity|constructor].
Qed.

(** The pattern matches exactly the strings made of at least one digit
    and then one unit letter, and its groups are those two parts. *)
Lemma match_expiration_Some s amountStr u :
  match_expiration s = Some (amountStr, u) <-> duration_token s amountStr u.
Proof.
  unfold match_expiration, duration_token. split.
  - destruct (span_digits s) as [ds rest] eqn:Hs.
    apply span_digits_inv in Hs as [-> Hall].
    destruct ds as [|c ds]; [discriminate|].
    destruct rest as [|v [|v' rest]]; try discriminate.
    destruct (is_unit v) eqn:Hv; [|discriminate].
    intros [= <- <-]. repeat split; [discriminate|exact Hall|exact Hv].
  - intros (-> & Hne & Hall & Hu).
    rewrite (span_digits_app _ _ [] Hall (is_unit_not_digit _ Hu)).
    destruct amountStr as [|c ds]; [contradiction|]. rewrite Hu. reflexivity.
Qed.





(** Calendar arithmetic, as the platform does it: one month after
    January 31st is March 3rd, one year after February 29th is March 1st. *)
Example month_and_year_overflow :
  parseExpiresIn (Some (js "1m")) 1769817600000 = Ok (Some (js "2026-03-03T00:00:00.000Z")) /\
  parseExpiresIn (Some (js "1y")) 1709164800000 = Ok (Some (js "2025-03-01T00:00:00.000Z")) /\
  parseExpiresIn (Some []) 1709164800000 = Ok None /\
  parseExpiresIn (Some (js "007h")) 1769817600000
  = Ok (Some (js "2026-01-31T07:00:00.000Z")).
Proof. repeat split; vm_compute; reflexivity. Qed.

(** ** More on the limiter *)

Lemma filter_length_le_implied {A : Type} (p q : A -> bool) (l : list A) :
  (forall x, In x l -> p x = true -> q x = true) ->
  (length (List.filter p l) <= length (List.filter q l))%nat.
Proof.
  induction l as [|x l IH]; intros H; [reflexivity|]. cbn [List.filter].
  assert (length (List.filter p l) <= length (List.filter q l))%nat as IH'
    by (apply IH; intros y Hy; apply H; right; exact Hy).
  destruct (p x) eqn:Hp.
  - rewrite (H x (or_introl eq_refl) Hp). cbn [length]. lia.
  - destruct (q x); cbn [length]; lia.
Qed.

Lemma surviving_surviving window_ms now now' l :
  now <= now' ->
  surviving window_ms now' (surviving window_ms now l) = surviving window_ms now' l.
Proof.
  intros Hle. unfold surviving. induction l as [|x l IH]; [reflexivity|].
  cbn [List.filter].
  destruct (now - window_ms <? x) eqn:H1; cbn [List.filter];
    destruct (now' - window_ms <? x) eqn:H2; rewrite IH; try reflexivity.
  apply Z.ltb_ge in H1. apply Z.ltb_lt in H2. lia.
Qed.

Lemma surviving_app window_ms now l1 l2 :
  surviving window_ms now (l1 ++ l2)
  = surviving window_ms now l1 ++ surviving window_ms now l2.
Proof. unfold surviving. apply List.filter_app. Qed.

Lemma in_window_app window_ms t l1 l2 :
  in_window window_ms t (l1 ++ l2) = in_window window_ms t l1 ++ in_window window_ms t l2.
Proof. unfold in_window. apply List.filter_app. Qed.

(** Admitting a call at [now], later than every admitted instant, keeps
    every window within the limit when the window ending at [now] has
    room. *)
Lemma in_window_admit R window_ms admitted now :
  (forall a, In a admitted -> a <= now) ->
  (forall t, Z.of_nat (length (in_window window_ms t admitted)) <= R) ->
  Z.of_nat (length (surviving window_ms now admitted)) < R ->
  forall t, Z.of_nat (length (in_window window_ms t (admitted ++ [now]))) <= R.
Proof.
  intros Hle Hsafe Hroom t. rewrite in_window_app, length_app.
  destruct (now <=? t) eqn:Hnt.
  - apply Z.leb_le in Hnt.
    assert (length (in_window window_ms t admitted)
            <= length (surviving window_ms now admitted))%nat as Hsub.
    { apply filter_length_le_implied. intros a Ha Hin.
      apply andb_true_iff in Hin as [H1 _]. apply Z.ltb_lt in H1. apply Z.ltb_lt. lia. }
    assert (length (in_window window_ms t [now]) <= 1)%nat as Hone.
    { unfold in_window. cbn [List.filter].
      destruct ((t - window_ms <? now) && (now <=? t)); cbn [length]; lia. }
    lia.
  - assert (in_window window_ms t [now] = []) as ->.
    { unfold in_window. cbn [List.filter]. rewrite Hnt, andb_false_r. reflexivity. }
    specialize (Hsafe t). cbn [length]. lia.
Qed.

(** The sliding window keeps every window within the limit: [history] is
    what the limiter holds, [admitted] every instant admitted so far. *)
Lemma sliding_window_run_bounded cfg :
  forall times history admitted,
    ascending times ->
    (forall a t, In a admitted -> In t times -> a <= t) ->
    (forall now, (forall a, In a admitted -> a <= now) ->
                 surviving (windowSeconds cfg * 1000) now history
                 = surviving (windowSeconds cfg * 1000) now admitted) ->
    (forall t, Z.of_nat (length (in_window (windowSeconds cfg * 1000) t admitted))
               <= requests cfg) ->
    forall t,
      Z.of_nat
        (length
           (in_window (windowSeconds cfg * 1000) t
              (admitted
               ++ admitted_times times
                    (List.map Ok (sliding_window_run cfg history times)))))
      <= requests cfg.
Proof.
  induction times as [|now times IH]; intros history admitted Hasc Hle Hview Hsafe t.
  - cbn [sliding_window_run List.map admitted_times]. rewrite app_nil_r. apply Hsafe.
  - apply StronglySorted_inv in Hasc as [Hasc Hall].
    rewrite List.Forall_forall in Hall.
    assert (forall a, In a admitted -> a <= now) as Hnow
      by (intros a Ha; apply Hle; [exact Ha|left; reflexivity]).
    cbn [sliding_window_run]. unfold sliding_window_step.
    rewrite (Hview now Hnow).
    set (kept := surviving (windowSeconds cfg * 1000) now admitted).
    destruct (requests cfg <=? Z.of_nat (length kept)) eqn:Hfull;
      cbn [List.map admitted_times allowed].
    + apply IH; [exact Hasc| |exact Hview|exact Hsafe].
      intros a t' Ha Ht'. apply Hle; [exact Ha|right; exact Ht'].
    + apply Z.leb_gt in Hfull.
      change (now :: ?l) with ([now] ++ l). rewrite app_assoc.
      apply IH.
      * exact Hasc.
      * intros a t' Ha Ht'. specialize (Hall t' Ht').
        apply in_app_or in Ha as [Ha|[<-|[]]]; [specialize (Hnow a Ha)|]; lia.
      * intros now' Hnow'.
        assert (now <= now') as Hnn by (apply Hnow', in_or_app; right; left; reflexivity).
        rewrite !surviving_app. f_equal. unfold kept.
        apply surviving_surviving. exact Hnn.
      * apply in_window_admit; [exact Hnow|exact Hsafe|exact Hfull].
Qed.

(** X1: with a store the limiter keeps its promise over every window, not
    only over a burst. For calls made one after another, each answered
    before the next is made, under an operation name that is no
    inherited property name, from a fresh identity and with a clock that
    does not go back: no window of [windowSeconds], wherever it ends,
    holds more than [requests] admitted calls. (Calls that overlap can
    read the same stored list and are not covered.) *)
Theorem kv_limiter_bounds_every_window env operation clientId times w t :
  plain_operation operation = true ->
  RATE_LIMIT_KV env = Some KVBinding ->
  fresh_identity operation clientId w ->
  ascending times ->
  Z.of_nat
    (length
       (in_window (windowSeconds (rate_config operation) * 1000) t
          (admitted_times times (fst (run_limiter env operation clientId times w)))))
  <= requests (rate_config operation).
Proof.
  intros _ Hkv [Hfresh _] Hasc.
  rewrite (kv_run_refines env Hkv operation clientId times w []).
  - apply (sliding_window_run_bounded (rate_config operation) times [] [] Hasc).
    + intros a t' [].
    + reflexivity.
    + intros t'. cbn. destruct (rate_config_positive operation). lia.
  - split; [constructor|]. left. split; [reflexivity|exact Hfresh].
  - exact Hasc.
  - intros ts t' [].
Qed.

Lemma kv_limiter_bounds_every_window_witness :
  let times := [0; 1000; 2000; 3000; 4000; 5000; 6000; 7000; 8000; 9000; 10000; 11000;
                59000; 60000; 61000; 62000] in
  admitted_times times
    (fst (run_limiter env_with_kv (js "token-ops") (js "203.0.113.7") times empty_world))
  = [0; 1000; 2000; 3000; 4000; 5000; 6000; 7000; 8000; 9000; 60000; 61000; 62000] /\
  Z.of_nat
    (length
       (in_window 60000 62000
          (admitted_times times
             (fst (run_limiter env_with_kv (js "token-ops") (js "203.0.113.7") times
                     empty_world)))))
  <= 10.
Proof.
  split; [vm_compute; reflexivity|].
  apply (kv_limiter_bounds_every_window env_with_kv (js "token-ops") (js "203.0.113.7")
           [0; 1000; 2000; 3000; 4000; 5000; 6000; 7000; 8000; 9000; 10000; 11000;
            59000; 60000; 61000; 62000] empty_world 62000).
  - vm_compute; reflexivity.
  - reflexivity.
  - apply empty_world_fresh.
  - repeat (constructor; [|repeat (constructor; try lia)]). constructor.
Defined.
Lemma filter_full_length {A : Type} (p : A -> bool) (l : list A) :
  length (List.filter p l) = length l -> List.filter p l = l.
Proof.
  induction l as [|x l IH]; [reflexivity|]. cbn [List.filter].
  pose proof (List.filter_length_le p l) as Hle.
  destruct (p x); cbn [length]; intros H; [f_equal; apply IH; lia|lia].
Qed.

Lemma surviving_length window_ms now l :
  (length (surviving window_ms now l) <= length l)%nat.
Proof. apply List.filter_length_le. Qed.

(** X2: with a store, a caller that was turned away stays out exactly until
    the announced [resetAt]: every call before that instant is rejected
    with the same [resetAt], every call from that instant on is admitted.
    (The stored list holds at most [requests] timestamps in admission
    order, as the limiter leaves it.) *)
Theorem kv_lockout_lasts_until_resetAt env operation clientId w hist now r now' :
  RATE_LIMIT_KV env = Some KVBinding ->
  kv_tracks operation clientId w hist ->
  Z.of_nat (length hist) <= requests (rate_config operation) ->
  fst (checkRateLimit env operation clientId now no_faults w) = Ok r ->
  allowed r = false ->
  now <= now' ->
  let w' := snd (checkRateLimit env operation clientId now no_faults w) in
  (now' < resetAt r ->
   fst (checkRateLimit env operation clientId now' no_faults w')
   = Ok {| allowed := false; remaining := 0; resetAt := resetAt r |}) /\
  (resetAt r <= now' ->
   exists r', fst (checkRateLimit env operation clientId now' no_faults w') = Ok r' /\
              allowed r' = true).
Proof.
  intros Hkv Htr Hlen Hr Hrej Hle w'.
  destruct (rate_config_positive operation) as [HR HW].
  assert (w' = emit (EvKvGet (limiter_key operation clientId)) w
          /\ exists ts0 hist', hist = ts0 :: hist' /\ r = {| allowed := false; remaining := 0;
                                     resetAt := ts0 + windowSeconds (rate_config operation) * 1000 |}
          /\ requests (rate_config operation) <= Z.of_nat (length hist))
    as (Hw' & ts0 & hist' & -> & -> & Hfull).
  { unfold w'. revert Hr. rewrite (checkRateLimit_kv_unfold env Hkv). cbn zeta.
    rewrite (kv_tracks_view _ _ _ _ _ Htr).
    set (W := windowSeconds (rate_config operation) * 1000).
    set (kept := surviving W now hist).
    destruct (requests (rate_config operation) <=? Z.of_nat (length kept)) eqn:Hfull;
      cbn [fst snd]; intros [= <-]; [|discriminate Hrej].
    split; [reflexivity|].
    apply Z.leb_le in Hfull.
    pose proof (surviving_length W now hist) as Hk. fold kept in Hk.
    assert (kept = hist) as Hall
      by (apply filter_full_length; fold (surviving W now hist); fold kept; lia).
    rewrite Hall in *.
    destruct hist as [|ts0 hist']; [cbn in Hfull; lia|].
    eexists _, _. split; [reflexivity|]. split; [reflexivity|exact Hfull]. }
  set (W := windowSeconds (rate_config operation) * 1000).
  assert (fst (checkRateLimit env operation clientId now' no_faults w')
          = fst (checkRateLimit env operation clientId now' no_faults w)) as Hsame
    by (rewrite Hw'; apply checkRateLimit_after_emit).
  cbn [resetAt]. rewrite Hsame. rewrite (checkRateLimit_kv_unfold env Hkv). cbn zeta.
  rewrite (kv_tracks_view _ _ _ _ _ Htr). fold W.
  destruct Htr as [Hasc _].
  pose proof Hasc as Hasc'.
  apply StronglySorted_inv in Hasc' as [_ Hhead]. rewrite List.Forall_forall in Hhead.
  split.
  - intros Hbefore.
    assert (surviving W now' (ts0 :: hist') = ts0 :: hist') as ->.
    { apply surviving_all. intros ts [<-|Hin]; [lia|specialize (Hhead ts Hin); lia]. }
    assert ((requests (rate_config operation) <=? Z.of_nat (length (ts0 :: hist'))) = true)
      as -> by (apply Z.leb_le; exact Hfull).
    reflexivity.
  - intros Hafter.
    assert (length (surviving W now' (ts0 :: hist')) <= length hist')%nat as Hshort.
    { unfold surviving. cbn [List.filter].
      assert ((now' - W <? ts0) = false) as -> by (apply Z.ltb_ge; lia).
      apply List.filter_length_le. }
    cbn [length] in Hlen.
    assert ((requests (rate_config operation)
             <=? Z.of_nat (length (surviving W now' (ts0 :: hist')))) = false) as ->
      by (apply Z.leb_gt; lia).
    eexists. split; reflexivity.
Qed.

Lemma world_after_ten_calls_tracks :
  kv_tracks (js "token-ops") (js "203.0.113.7") world_after_ten_calls
    [1000; 2000; 3000; 4000; 5000; 6000; 7000; 8000; 9000; 10000].
Proof.
  split.
  - repeat (constructor; [|repeat (constructor; try lia)]). constructor.
  - right. exists 10, 10, 130000. split; [vm_compute; reflexivity|].
    intros ts Hin. cbn in Hin. rewrite rate_config_token_ops. cbn [windowSeconds]. lia.
Qed.

Lemma kv_lockout_lasts_until_resetAt_witness :
  let w' := snd (checkRateLimit env_with_kv (js "token-ops") (js "203.0.113.7") 11000
                   no_faults world_after_ten_calls) in
  fst (checkRateLimit env_with_kv (js "token-ops") (js "203.0.113.7") 11000 no_faults
         world_after_ten_calls)
  = Ok {| allowed := false; remaining := 0; resetAt := 61000 |} /\
  fst (checkRateLimit env_with_kv (js "token-ops") (js "203.0.113.7") 60999 no_faults w')
  = Ok {| allowed := false; remaining := 0; resetAt := 61000 |} /\
  exists r', fst (checkRateLimit env_with_kv (js "token-ops") (js "203.0.113.7") 61000
                    no_faults w') = Ok r' /\
             allowed r' = true.
Proof.
  intros w'.
  assert (fst (checkRateLimit env_with_kv (js "token-ops") (js "203.0.113.7") 11000
                 no_faults world_after_ten_calls)
          = Ok {| allowed := false; remaining := 0; resetAt := 61000 |}) as Hr
    by (vm_compute; reflexivity).
  assert (Z.of_nat (length [1000; 2000; 3000; 4000; 5000; 6000; 7000; 8000; 9000; 10000])
          <= requests (rate_config (js "token-ops"))) as Hlen
    by (vm_compute; discriminate).
  split; [exact Hr|]. split.
  - apply (proj1 (kv_lockout_lasts_until_resetAt env_with_kv (js "token-ops")
                    (js "203.0.113.7") world_after_ten_calls _ 11000 _ 60999 eq_refl
                    world_after_ten_calls_tracks Hlen Hr eq_refl ltac:(lia))).
    cbn; lia.
  - apply (proj2 (kv_lockout_lasts_until_resetAt env_with_kv (js "token-ops")
                    (js "203.0.113.7") world_after_ten_calls _ 11000 _ 61000 eq_refl
                    world_after_ten_calls_tracks Hlen Hr eq_refl ltac:(lia))).
    cbn; lia.
Defined.

(** X3: without a store the lock-out ends one millisecond later: a caller
    turned away is rejected, with the same [resetAt], at every instant up
    to and including [resetAt], and opens a new window at any later one. *)
Theorem memory_lockout_lasts_through_resetAt
    env operation clientId w now r now' faults faults' :
  RATE_LIMIT_KV env = None ->
  fst (checkRateLimit env operation clientId now faults w) = Ok r ->
  allowed r = false ->
  let cfg := rate_config operation in
  let w' := snd (checkRateLimit env operation clientId now faults w) in
  (now' <= resetAt r ->
   fst (checkRateLimit env operation clientId now' faults' w')
   = Ok {| allowed := false; remaining := 0; resetAt := resetAt r |}) /\
  (resetAt r < now' ->
   fst (checkRateLimit env operation clientId now' faults' w')
   = Ok {| allowed := true; remaining := requests cfg - 1;
           resetAt := now' + windowSeconds cfg * 1000 |}).
Proof.
  intros Hkv Hr Hrej cfg w'. unfold w'. revert Hr.
  rewrite !(checkRateLimit_memory_unfold env Hkv). cbn zeta.
  destruct (rateLimitMap w !! memory_key operation clientId) as [e|] eqn:He;
    [|cbn [fst]; intros [= <-]; discriminate Hrej].
  destruct (mem_resetAt e <? now) eqn:Hexp;
    [cbn [fst]; intros [= <-]; discriminate Hrej|].
  destruct (requests (rate_config operation) <=? mem_count e) eqn:Hfull;
    cbn [fst]; intros [= <-]; [|discriminate Hrej].
  cbn [snd emit rateLimitMap resetAt]. rewrite He.
  split; intros Hcmp.
  - assert ((mem_resetAt e <? now') = false) as -> by (apply Z.ltb_ge; lia).
    rewrite Hfull. reflexivity.
  - assert ((mem_resetAt e <? now') = true) as -> by (apply Z.ltb_lt; lia).
    reflexivity.
Qed.

Lemma memory_lockout_lasts_through_resetAt_witness :
  let w := snd (run_limiter env_without_kv (js "token-ops") (js "203.0.113.7")
                  [1000; 2000; 3000; 4000; 5000; 6000; 7000; 8000; 9000; 10000]
                  empty_world) in
  let w' := snd (checkRateLimit env_without_kv (js "token-ops") (js "203.0.113.7") 11000
                   no_faults w) in
  fst (checkRateLimit env_without_kv (js "token-ops") (js "203.0.113.7") 11000 no_faults w)
  = Ok {| allowed := false; remaining := 0; resetAt := 61000 |} /\
  fst (checkRateLimit env_without_kv (js "token-ops") (js "203.0.113.7") 61000 no_faults w')
  = Ok {| allowed := false; remaining := 0; resetAt := 61000 |} /\
  fst (checkRateLimit env_without_kv (js "token-ops") (js "203.0.113.7") 61001 no_faults w')
  = Ok {| allowed := true; remaining := 9; resetAt := 121001 |}.
Proof.
  intros w w'.
  assert (fst (checkRateLimit env_without_kv (js "token-ops") (js "203.0.113.7") 11000
                 no_faults w)
          = Ok {| allowed := false; remaining := 0; resetAt := 61000 |}) as Hr
    by (vm_compute; reflexivity).
  split; [exact Hr|]. split.
  - apply (proj1 (memory_lockout_lasts_through_resetAt env_without_kv (js "token-ops")
                    (js "203.0.113.7") w 11000 _ 61000 no_faults no_faults eq_refl Hr
                    eq_refl)).
    cbn; lia.
  - apply (proj2 (memory_lockout_lasts_through_resetAt env_without_kv (js "token-ops")
                    (js "203.0.113.7") w 11000 _ 61001 no_faults no_faults eq_refl Hr
                    eq_refl)).
    cbn; lia.
Defined.

(** X4: what an admitted call leaves in the store, whatever was there
    before, a malformed or an overfull entry included. Under an
    operation name that is no inherited property name, the entry of the
    caller holds the stored timestamps that are still inside the window
    that ends now, in their stored order, followed by [now]; they are at
    most [requests]; [count] is their number, [version] one more than
    the stored one, and the entry expires two windows later. Every
    other entry and the in-memory map are as before, and [remaining] is
    what is left of [requests]. *)
Theorem admitted_call_stores_the_window env operation clientId now w r :
  plain_operation operation = true ->
  RATE_LIMIT_KV env = Some KVBinding ->
  fst (checkRateLimit env operation clientId now no_faults w) = Ok r ->
  allowed r = true ->
  let cfg := rate_config operation in
  let key := limiter_key operation clientId in
  let w' := snd (checkRateLimit env operation clientId now no_faults w) in
  let kept := List.filter (fun ts => now - windowSeconds cfg * 1000 <? ts)
                (stored_history now key w) in
  kv w' !! key
  = Some {| kv_val := KvData {| count := Z.of_nat (length kept) + 1;
                                timestamps := kept ++ [now];
                                version := match stored_data now key w with
                                           | Some d => version d
                                           | None => 0
                                           end + 1 |};
            kv_expiration := now + windowSeconds cfg * 2 * 1000 |} /\
  Z.of_nat (length kept) + 1 <= requests cfg /\
  remaining r = requests cfg - (Z.of_nat (length kept) + 1) /\
  (forall other, other <> key -> kv w' !! other = kv w !! other) /\
  rateLimitMap w' = rateLimitMap w.
Proof.
  intros _ Hkv Hr Hadm cfg key w' kept. subst cfg key w'. revert Hr.
  rewrite (checkRateLimit_kv_unfold env Hkv). cbn zeta.
  fold (surviving (windowSeconds (rate_config operation) * 1000) now
          (stored_history now (limiter_key operation clientId) w)) in kept.
  fold kept.
  destruct (requests (rate_config operation) <=? Z.of_nat (length kept)) eqn:Hfull;
    cbn [fst snd]; intros [= <-]; [discriminate Hadm|].
  apply Z.leb_gt in Hfull.
  cbn [kv remaining rateLimitMap]. rewrite lookup_insert_eq.
  split; [|split; [|split; [|split]]].
  - rewrite length_app. cbn [length]. do 4 f_equal. lia.
  - lia.
  - lia.
  - intros other Hother. apply lookup_insert_ne. congruence.
  - reflexivity.
Qed.

Lemma admitted_call_stores_the_window_witness :
  let key := limiter_key (js "token-ops") (js "203.0.113.7") in
  let w := {| kv := {[ key := {| kv_val :=
                                   KvData {| count := 3; timestamps := [1000; 50000; 70000];
                                             version := 7 |};
                                 kv_expiration := 500000 |} ]};
              rateLimitMap := ∅; trace := [] |} in
  kv (snd (checkRateLimit env_with_kv (js "token-ops") (js "203.0.113.7") 100000 no_faults w))
    !! key
  = Some {| kv_val := KvData {| count := 3; timestamps := [50000; 70000; 100000];
                                version := 8 |};
            kv_expiration := 220000 |}.
Proof.
  intros key w.
  assert (plain_operation (js "token-ops") = true) as Hplain by (vm_compute; reflexivity).
  assert (fst (checkRateLimit env_with_kv (js "token-ops") (js "203.0.113.7") 100000
                 no_faults w)
          = Ok {| allowed := true; remaining := 7; resetAt := 110000 |}) as Hr
    by (vm_compute; reflexivity).
  destruct (admitted_call_stores_the_window env_with_kv (js "token-ops")
              (js "203.0.113.7") 100000 w _ Hplain eq_refl Hr eq_refl)
    as (Hstored & _).
  unfold key. etransitivity; [exact Hstored|]. vm_compute. reflexivity.
Defined.

(** With a store, the answer does not depend on the fate of the write. *)
Lemma checkRateLimit_kv_answer env operation clientId now faults w :
  RATE_LIMIT_KV env = Some KVBinding ->
  fst (checkRateLimit env operation clientId now faults w)
  = if get_throws faults then Throw (TNative PlainError (js "KV GET failed"))
    else fst (checkRateLimit env operation clientId now no_faults w).
Proof.
  intros Hkv. unfold checkRateLimit. rewrite Hkv.
  unfold mbind, M_bind, kv_get. cbn [get_throws no_faults].
  destruct (get_throws faults); [reflexivity|].
  match goal with
  | |- context [requests ?c <=? ?n] => destruct (requests c <=? n)
  end; [reflexivity|].
  unfold try_catch, kv_put, console_error, tell, mret, M_ret. cbn [put_throws no_faults].
  destruct (put_throws faults); reflexivity.
Qed.

(** X5: the instant a call is told to come back at is never in the past.
    Under an operation name that is no inherited property name, in both
    stores [resetAt] is at or after the instant of the call, and with a
    store it is after it. When no stored timestamp is in the future, it
    is at most one window ahead, so that a caller turned away who reads
    the clock before [resetAt] is told to wait between one second and
    [windowSeconds]. *)
Theorem resetAt_is_ahead env operation clientId now faults w r :
  plain_operation operation = true ->
  fst (checkRateLimit env operation clientId now faults w) = Ok r ->
  let cfg := rate_config operation in
  now <= resetAt r /\
  (RATE_LIMIT_KV env = Some KVBinding ->
   now < resetAt r /\
   ((forall ts, In ts (stored_history now (limiter_key operation clientId) w) -> ts <= now) ->
    resetAt r <= now + windowSeconds cfg * 1000 /\
    forall now', now <= now' < resetAt r ->
                 1 <= ceil_div (resetAt r - now') 1000 <= windowSeconds cfg)).
Proof.
  intros _ Hr cfg. subst cfg. destruct (rate_config_positive operation) as [HR HW].
  assert (RATE_LIMIT_KV env = Some KVBinding ->
          now < resetAt r /\
          ((forall ts, In ts (stored_history now (limiter_key operation clientId) w) ->
                       ts <= now) ->
           resetAt r <= now + windowSeconds (rate_config operation) * 1000)) as Hstore.
  { intros Hkv. revert Hr. rewrite (checkRateLimit_kv_answer _ _ _ _ _ _ Hkv).
    destruct (get_throws faults); [discriminate|].
    rewrite (checkRateLimit_kv_unfold env Hkv). cbn zeta.
    set (kept := surviving (windowSeconds (rate_config operation) * 1000) now
                   (stored_history now (limiter_key operation clientId) w)).
    assert (forall ts, In ts kept ->
                       now - windowSeconds (rate_config operation) * 1000 < ts /\
                       In ts (stored_history now (limiter_key operation clientId) w))
      as Hkept by (intros ts Hin; apply surviving_In in Hin; tauto).
    destruct (requests (rate_config operation) <=? Z.of_nat (length kept));
      cbn [fst]; intros [= <-]; cbn [resetAt];
      (destruct kept as [|ts0 kept'];
       [split; [lia|intros _; lia]
       |destruct (Hkept ts0 (or_introl eq_refl)) as [Hlow Hin];
        split; [lia|intros Hpast; specialize (Hpast ts0 Hin); lia]]). }
  split.
  - destruct (RATE_LIMIT_KV env) as [[]|] eqn:Hkv.
    + destruct (Hstore eq_refl) as [H _]. lia.
    + revert Hr. rewrite (checkRateLimit_memory_unfold env Hkv). cbn zeta.
      destruct (rateLimitMap w !! memory_key operation clientId) as [e|];
        [|cbn [fst]; intros [= <-]; cbn [resetAt]; lia].
      destruct (mem_resetAt e <? now) eqn:Hexp;
        [cbn [fst]; intros [= <-]; cbn [resetAt]; lia|].
      apply Z.ltb_ge in Hexp.
      destruct (requests (rate_config operation) <=? mem_count e);
        cbn [fst]; intros [= <-]; cbn [resetAt]; lia.
  - intros Hkv. destruct (Hstore Hkv) as [Hlow Hup]. split; [exact Hlow|].
    intros Hpast. specialize (Hup Hpast). split; [exact Hup|].
    intros now' [Hn1 Hn2]. unfold ceil_div. rewrite HW in *.
    split.
    + assert (- (resetAt r - now') / 1000 < 0); [|lia].
      apply Z.div_lt_upper_bound; lia.
    + assert (-60 <= - (resetAt r - now') / 1000); [|lia].
      apply Z.div_le_lower_bound; lia.
Qed.

Lemma resetAt_is_ahead_witness :
  let r := {| allowed := false; remaining := 0; resetAt := 61000 |} in
  fst (checkRateLimit env_with_kv (js "token-ops") (js "203.0.113.7") 11000 no_faults
         world_after_ten_calls) = Ok r /\
  11000 < resetAt r <= 11000 + 60000 /\
  1 <= ceil_div (resetAt r - 11002) 1000 <= 60.
Proof.
  intros r.
  assert (fst (checkRateLimit env_with_kv (js "token-ops") (js "203.0.113.7") 11000
                 no_faults world_after_ten_calls) = Ok r) as Hr
    by (vm_compute; reflexivity).
  split; [exact Hr|].
  assert (plain_operation (js "token-ops") = true) as Hplain by (vm_compute; reflexivity).
  destruct (resetAt_is_ahead env_with_kv (js "token-ops") (js "203.0.113.7") 11000
              no_faults world_after_ten_calls r Hplain Hr) as [_ Hstore].
  destruct (Hstore eq_refl) as [Hlow Hup].
  destruct Hup as [Hup Hwait].
  - assert (stored_history 11000 (limiter_key (js "token-ops") (js "203.0.113.7"))
              world_after_ten_calls
            = [1000; 2000; 3000; 4000; 5000; 6000; 7000; 8000; 9000; 10000]) as ->
      by (vm_compute; reflexivity).
    intros ts H. cbn [In] in H. lia.
  - split; [split; [exact Hlow|exact Hup]|].
    apply Hwait. unfold r. cbn [resetAt]. lia.
Defined.

(** ** More on the handler *)

Section Handler.

Variable rt : Runtime.
Variable message_of : issue_code -> jsstring.
Variable body : ToolBody.

#[local] Ltac answered :=
  eexists _, _; split; [reflexivity|]; split; [reflexivity|];
  cbn [response payload rpc_ok rpc_error]; intros c m d [=]; subst; reflexivity.

Lemma handleMCPRequest_answers request env clientIp cid amb w :
  exists res w',
    handleMCPRequest rt message_of body request env clientIp cid amb w = (Ok res, w') /\
    response_id (response res) = rpc_id request /\
    (forall c m d, payload (response res) = RpcError c m d -> d = cid).
Proof.
  unfold handleMCPRequest.
  match goal with
  | |- context [try_catch ?m _] => set (inner := m)
  end.
  assert (exists res w', inner w = (Ok res, w') /\
                         response_id (response res) = rpc_id request /\
                         (forall c m d, payload (response res) = RpcError c m d -> d = cid))
    as (res & w' & H & Hid).
  { unfold inner.
    destruct (jsstring_eqb (method request) (js "initialize"));
      [answered|].
    destruct (jsstring_eqb (method request) (js "tools/list"));
      [answered|].
    destruct (jsstring_eqb (method request) (js "tools/call")).
    - destruct (negb _); [answered|].
      destruct (find_tool _) as [t|]; [|answered].
      unfold try_catch, mbind, M_bind.
      destruct (executeTool _ _ _ _ _ _ _ _ w) as [[text|error] w1];
        answered.
    - destruct (_ || _); answered. }
  exists res, w'. split; [|exact Hid].
  unfold try_catch. rewrite H. reflexivity.
Qed.

(** X7: [handleMCPRequest] lets no exception out. For every request
    object, whatever the method, the tool, the limiter, the store and
    the tool body do, even when they throw, it returns a JSON-RPC
    response, and that response carries the [id] of the request and,
    when it is an error, the correlation id. *)
Theorem handleMCPRequest_always_answers request env clientIp cid amb w :
  exists res w',
    handleMCPRequest rt message_of body request env clientIp cid amb w = (Ok res, w') /\
    response_id (response res) = rpc_id request /\
    (forall c m d, payload (response res) = RpcError c m d -> d = cid).
Proof. apply handleMCPRequest_answers. Qed.

Lemma respond_correlation_header cid r st headers :
  (headers = None \/
   exists remaining reset, headers = Some (rateLimitHeaders remaining reset)) ->
  response_header (respond cid r st headers) "X-Correlation-ID" = Some cid.
Proof.
  intros [->|(remaining & reset & ->)]; unfold response_header, respond, default, id,
    rateLimitHeaders, set_header; cbn [resp_headers foldl fst snd].
  - apply lookup_insert_eq.
  - rewrite !lookup_insert_ne by (intros H; vm_compute in H; discriminate H).
    apply lookup_insert_eq.
Qed.

(** X8: the endpoint answers every request whose key can be compared
    and whose body is a request object or is not JSON at all, and every
    answer names the request: the [X-Correlation-ID] header, and the
    [data] of an error, carry the correlation id, which is the caller's
    own [X-Correlation-ID], else its [X-Request-ID], else a generated
    one. The status is 200, 401, 429 or 503. *)
Theorem endpoint_answers_carry_the_correlation_id env (req : HttpRequest MCPRequest) amb w :
  (forall k, header req "X-API-Key" = Some k -> truthy k = true ->
             exists b, secureCompare k (MCP_API_KEY env) = Ok b) ->
  let cid :=
    match header req "X-Correlation-ID", header req "X-Request-ID" with
    | Some (c :: own), _ => c :: own
    | _, Some (c :: own) => c :: own
    | _, _ => js "ctm-" ++ stamp36 amb ++ js "-" ++ random8 amb
    end in
  exists resp,
    fst (mcp_endpoint rt message_of body env req amb w) = Ok resp /\
    response_header resp "X-Correlation-ID" = Some cid /\
    (forall c m d, payload (resp_body resp) = RpcError c m d -> d = cid) /\
    In (status resp) [200; 401; 429; 503].
Proof.
  intros Hcmp cid.
  assert (getOrCreateCorrelationId req amb = cid) as Hcid.
  { unfold cid, getOrCreateCorrelationId, extractCorrelationId, generateCorrelationId,
      or_literal, or_else.
    destruct (header req "X-Correlation-ID") as [[|c own]|];
      destruct (header req "X-Request-ID") as [[|c' own']|]; reflexivity. }
  unfold mcp_endpoint. rewrite Hcid. clearbody cid.
  assert (exists b,
             match header req "X-API-Key" with
             | Some apiKey =>
                 if truthy apiKey then lift (secureCompare apiKey (MCP_API_KEY env))
                 else mret false
             | None => mret false
             end w = (Ok b, w)) as [b Hb].
  { destruct (header req "X-API-Key") as [k|] eqn:Hk; [|exists false; reflexivity].
    destruct (truthy k) eqn:Ht; [|exists false; reflexivity].
    destruct (Hcmp k eq_refl Ht) as [b Hb]. exists b. unfold lift. rewrite Hb. reflexivity. }
  unfold mbind at 1. unfold M_bind at 1. rewrite Hb.
  destruct b; cbn [negb].
  2: { eexists. split; [reflexivity|].
       split; [apply respond_correlation_header; left; reflexivity|].
       split; [intros c m d [=]; subst; reflexivity|]. cbn. tauto. }
  destruct (negb (truthy (CLOUDFLARE_BOOTSTRAP_TOKEN env))).
  { eexists. split; [reflexivity|].
    split; [apply respond_correlation_header; left; reflexivity|].
    split; [intros c m d [=]; subst; reflexivity|]. cbn. tauto. }
  destruct (req_body req) as [request|].
  2: { eexists. split; [reflexivity|].
       split; [apply respond_correlation_header; left; reflexivity|].
       split; [intros c m d [=]; subst; reflexivity|]. cbn. tauto. }
  unfold logger, tell, mbind, M_bind, mret, M_ret. cbv beta iota.
  match goal with
  | |- context [handleMCPRequest rt message_of body request env ?ip cid amb ?w0] =>
      destruct (handleMCPRequest_answers request env ip cid amb w0)
        as (res & w' & -> & _ & Hdata)
  end.
  eexists. split; [reflexivity|]. split; [|split].
  - apply respond_correlation_header.
    destruct (rateLimitInfo res); [right; eexists _, _; reflexivity|left; reflexivity].
  - exact Hdata.
  - cbn [status respond]. destruct (rateLimitInfo res) as [info|]; [destruct (limited info)|];
      cbn; tauto.
Qed.

(** X9: the tool itself runs only on validated arguments and, for a mutating
    tool called with a client address, only after the limiter admitted
    the call: if the events of [executeTool] contain the run of a tool,
    the tool is the one named, it exists, its arguments passed
    [validateArgs], and the limiter, when it applies, said yes. *)
Theorem tool_runs_only_when_validated_and_admitted
    toolName args env clientIp amb w :
  exists evs,
    trace (snd (executeTool rt message_of body toolName args env clientIp amb w))
    = trace w ++ evs /\
    forall ran,
      In (EvToolBody ran) evs ->
      ran = toolName /\
      exists t validated,
        find_tool toolName = Some t /\
        validateArgs rt message_of toolName args (inputSchema t) = Ok validated /\
        (includes_name RATE_LIMITED_TOOLS toolName = true ->
         truthy_opt clientIp = true ->
         exists r,
           fst (checkRateLimit env (js "token-ops") (default [] clientIp) (at_limiter amb)
                  (faults amb) w) = Ok r /\
           allowed r = true).
Proof.
  unfold executeTool.
  destruct (find_tool toolName) as [t|] eqn:Hfind;
    [|exists []; split; [cbn; rewrite app_nil_r; reflexivity|intros ran []]].
  unfold mbind, M_bind, tell, lift, throw, mret, M_ret. cbv beta iota.
  destruct (validateArgs rt message_of toolName args (inputSchema t)) as [validated|e]
    eqn:Hvalid;
    [|exists [EvValidate toolName]; split;
      [reflexivity|intros ran [H|[]]; discriminate H]].
  destruct (includes_name RATE_LIMITED_TOOLS toolName && truthy_opt clientIp) eqn:Hlim.
  - apply andb_true_iff in Hlim as [Hl Hip].
    pose proof (checkRateLimit_after_emit env (js "token-ops") (default [] clientIp)
                  (at_limiter amb) (faults amb) (EvValidate toolName) w) as Hans.
    destruct (checkRateLimit_trace_grows env (js "token-ops") (default [] clientIp)
                (at_limiter amb) (faults amb) (emit (EvValidate toolName) w))
      as (evs & Htrace & Hnone).
    destruct (checkRateLimit env (js "token-ops") (default [] clientIp) (at_limiter amb)
                (faults amb) (emit (EvValidate toolName) w)) as [[r|e] w1];
      cbn [fst snd] in *.
    + destruct (allowed r) eqn:Hallowed; cbn [negb].
      * exists (EvValidate toolName :: evs ++ [EvToolBody toolName]).
        split.
        { destruct (body toolName validated); cbn [snd emit trace];
            rewrite Htrace; cbn [emit trace]; rewrite <- !app_assoc; reflexivity. }
        intros ran [H|H]; [discriminate H|].
        apply in_app_or in H as [H|[H|[]]]; [destruct (Hnone ran) as [Hn _]; tauto|].
        injection H as <-. split; [reflexivity|].
        exists t, validated. split; [reflexivity|]. split; [exact Hvalid|].
        intros _ _. exists r. split; [symmetry; exact Hans|exact Hallowed].
      * exists (EvValidate toolName :: evs). split.
        { cbn [snd]. rewrite Htrace. cbn [emit trace]. rewrite <- !app_assoc. reflexivity. }
        intros ran [H|H]; [discriminate H|]. destruct (Hnone ran) as [Hn _]; tauto.
    + exists (EvValidate toolName :: evs). split.
      { cbn [snd]. rewrite Htrace. cbn [emit trace]. rewrite <- !app_assoc. reflexivity. }
      intros ran [H|H]; [discriminate H|]. destruct (Hnone ran) as [Hn _]; tauto.
  - exists [EvValidate toolName; EvToolBody toolName]. split.
    { destruct (body toolName validated); cbn [snd emit trace];
        rewrite <- !app_assoc; reflexivity. }
    intros ran [H|[H|[]]]; [discriminate H|]. injection H as <-.
    split; [reflexivity|]. exists t, validated. split; [reflexivity|]. split; [exact Hvalid|].
    intros Hl Hip. rewrite Hl, Hip in Hlim. discriminate Hlim.
Qed.

Lemma executeTool_same_stores_unless toolName args env clientIp amb w :
  (forall t validated,
     find_tool toolName = Some t ->
     validateArgs rt message_of toolName args (inputSchema t) = Ok validated ->
     includes_name RATE_LIMITED_TOOLS toolName = false) ->
  same_stores (snd (executeTool rt message_of body toolName args env clientIp amb w)) w.
Proof.
  intros Hnot. unfold executeTool.
  destruct (find_tool toolName) as [t|] eqn:Hfind; [|apply same_stores_refl].
  unfold mbind, M_bind, tell, lift, throw, mret, M_ret. cbv beta iota.
  destruct (validateArgs rt message_of toolName args (inputSchema t)) as [validated|e]
    eqn:Hvalid; [|apply same_stores_emit].
  rewrite (Hnot t validated eq_refl Hvalid). cbn [andb].
  destruct (body toolName validated); split; reflexivity.
Qed.

(** X10: only a valid call of a mutating tool can change the limiter's
    stores: when the stores differ after [handleMCPRequest], the method
    was [tools/call], the tool is one of the rate-limited ones, and its
    arguments passed validation. Listing tools, read-only tools, unknown
    tools or methods and calls with invalid arguments cost no budget. *)
Theorem only_valid_mutating_calls_touch_the_stores request env clientIp cid amb w :
  ~ same_stores (snd (handleMCPRequest rt message_of body request env clientIp cid amb w)) w ->
  let toolName :=
    or_literal (match params request with Some p => name p | None => None end) [] in
  method request = js "tools/call" /\
  In toolName RATE_LIMITED_TOOLS /\
  exists t validated,
    find_tool toolName = Some t /\
    validateArgs rt message_of toolName (arguments_or_empty (params request)) (inputSchema t)
    = Ok validated.
Proof.
  intros Hdiff toolName. unfold handleMCPRequest in Hdiff. fold toolName in Hdiff.
  assert (forall (m : M MCPResult) handler,
             same_stores (snd (m w)) w ->
             (forall e w1, same_stores (snd (handler e w1 : result thrown MCPResult * World)) w1) ->
             same_stores (snd (try_catch m handler w)) w) as Hcatch.
  { intros m handler Hm Hh. unfold try_catch. destruct (m w) as [[a|e] w1]; [exact Hm|].
    cbn [snd] in Hm. eapply same_stores_trans; [apply Hh|exact Hm]. }
  assert (forall (e : thrown) w1,
             same_stores
               (snd ((logger LError "Request handler failed";;
                      mret (rpc_error (rpc_id request) (-32603)
                              (message (categorizeError rt e (Some cid))) cid)) w1)) w1)
    as Houter by (intros e w1; apply same_stores_emit).
  destruct (jsstring_eqb (method request) (js "initialize")) eqn:H1;
    [exfalso; apply Hdiff, Hcatch; [apply same_stores_refl|exact Houter]|].
  destruct (jsstring_eqb (method request) (js "tools/list")) eqn:H2;
    [exfalso; apply Hdiff, Hcatch; [apply same_stores_refl|exact Houter]|].
  destruct (jsstring_eqb (method request) (js "tools/call")) eqn:H3;
    [|exfalso; apply Hdiff, Hcatch; [destruct (_ || _); apply same_stores_refl|exact Houter]].
  apply bool_decide_eq_true in H3.
  destruct (truthy toolName) eqn:Ht; cbn [negb] in Hdiff;
    [|exfalso; apply Hdiff, Hcatch; [apply same_stores_refl|exact Houter]].
  destruct (find_tool toolName) as [t|] eqn:Hfind;
    [|exfalso; apply Hdiff, Hcatch; [apply same_stores_refl|exact Houter]].
  destruct (validateArgs rt message_of toolName (arguments_or_empty (params request))
              (inputSchema t)) as [validated|e] eqn:Hvalid.
  - destruct (includes_name RATE_LIMITED_TOOLS toolName) eqn:Hl.
    + split; [exact H3|]. split; [apply includes_name_In; exact Hl|].
      exists t, validated. split; [reflexivity|exact Hvalid].
    + exfalso. apply Hdiff, Hcatch; [|exact Houter].
      apply Hcatch.
      * unfold mbind, M_bind.
        pose proof (executeTool_same_stores_unless toolName
                      (arguments_or_empty (params request)) env (Some clientIp) amb w) as He.
        destruct (executeTool rt message_of body toolName
                    (arguments_or_empty (params request)) env (Some clientIp) amb w)
          as [[text|e] w1]; cbn [snd] in *; apply He;
          intros t' v' _ _; exact Hl.
      * intros e w1. apply same_stores_emit.
  - exfalso. apply Hdiff, Hcatch; [|exact Houter].
    apply Hcatch.
    + unfold mbind, M_bind.
      pose proof (executeTool_same_stores_unless toolName
                    (arguments_or_empty (params request)) env (Some clientIp) amb w) as He.
      destruct (executeTool rt message_of body toolName
                  (arguments_or_empty (params request)) env (Some clientIp) amb w)
        as [[text|e'] w1]; cbn [snd] in *; apply He;
        intros t' v' Ht' Hv'; rewrite Hfind in Ht'; injection Ht' as <-;
        rewrite Hvalid in Hv'; discriminate Hv'.
    + intros e' w1. apply same_stores_emit.
Qed.

End Handler.

Lemma endpoint_answers_carry_the_correlation_id_witness :
  let req : HttpRequest MCPRequest :=
    {| req_headers := {[ js "x-api-key" := js "test-api-key";
                         js "x-request-id" := js "req-7f3a" ]};
       req_body := Some create_token_call |} in
  exists resp,
    fst (mcp_endpoint ascii_runtime plain_messages succeeding_body env_with_kv req
           (ambient_at 1000) empty_world) = Ok resp /\
    response_header resp "X-Correlation-ID" = Some (js "req-7f3a").
Proof.
  intros req.
  destruct (endpoint_answers_carry_the_correlation_id ascii_runtime plain_messages
              succeeding_body env_with_kv req (ambient_at 1000) empty_world)
    as (resp & Hresp & Hcid & _).
  - intros k Hk _. vm_compute in Hk. injection Hk as <-. exists true. vm_compute. reflexivity.
  - exists resp. split; [exact Hresp|exact Hcid].
Defined.


Lemma only_valid_mutating_calls_touch_the_stores_witness :
  let w' := snd (handleMCPRequest ascii_runtime plain_messages succeeding_body
                   create_token_call env_with_kv (js "203.0.113.7") (js "req-7f3a")
                   (ambient_at 1000) empty_world) in
  is_Some (kv w' !! limiter_key (js "token-ops") (js "203.0.113.7")) /\
  method create_token_call = js "tools/call" /\
  In (js "create_token") RATE_LIMITED_TOOLS.
Proof.
  intros w'.
  assert (is_Some (kv w' !! limiter_key (js "token-ops") (js "203.0.113.7"))) as Hsome
    by (vm_compute; eexists; reflexivity).
  split; [exact Hsome|].
  destruct (only_valid_mutating_calls_touch_the_stores ascii_runtime plain_messages
              succeeding_body create_token_call env_with_kv (js "203.0.113.7")
              (js "req-7f3a") (ambient_at 1000) empty_world) as (Hm & Htool & _).
  - intros [Hkv _]. fold w' in Hkv. rewrite Hkv in Hsome.
    destruct Hsome as [e He]. vm_compute in He. discriminate He.
  - split; [exact Hm|exact Htool].
Defined.

Lemma tool_runs_only_when_validated_and_admitted_witness :
  In (EvToolBody (js "create_token"))
    (trace (snd (executeTool ascii_runtime plain_messages succeeding_body
                   (js "create_token") create_token_arguments env_with_kv
                   (Some (js "203.0.113.7")) (ambient_at 1000) empty_world))) /\
  exists r,
    fst (checkRateLimit env_with_kv (js "token-ops") (js "203.0.113.7") 1000 no_faults
           empty_world) = Ok r /\
    allowed r = true.
Proof.
  destruct (tool_runs_only_when_validated_and_admitted ascii_runtime plain_messages
              succeeding_body (js "create_token") create_token_arguments env_with_kv
              (Some (js "203.0.113.7")) (ambient_at 1000) empty_world)
    as (evs & Htrace & Hran).
  assert (In (EvToolBody (js "create_token"))
            (trace (snd (executeTool ascii_runtime plain_messages succeeding_body
                           (js "create_token") create_token_arguments env_with_kv
                           (Some (js "203.0.113.7")) (ambient_at 1000) empty_world))))
    as Hin by (vm_compute; tauto).
  split; [exact Hin|].
  rewrite Htrace in Hin. cbn [trace empty_world app] in Hin.
  destruct (Hran _ Hin) as (_ & t & validated & _ & _ & Hadmitted).
  apply Hadmitted; reflexivity.
Defined.

(** ** More on validation *)

Section Exactness.

Variable rt : Runtime.

Lemma check_nil failed path k : check failed path k = [] -> failed = false.
Proof. destruct failed; [discriminate|reflexivity]. Qed.

Lemma size_issues_nil_within mn mx size path :
  positive_bound mx = true ->
  size_issues (truthy_bound mn) (truthy_bound mx) size path = [] ->
  within mn mx size.
Proof.
  intros Hpos H. unfold size_issues in H. apply app_eq_nil in H as [H1 H2].
  apply check_nil in H1. apply check_nil in H2. split.
  - destruct mn as [n|]; [|exact I]. cbn [truthy_bound] in H1.
    destruct (n =? 0)%N eqn:Hz; [apply N.eqb_eq in Hz; lia|].
    apply N.ltb_ge in H1. exact H1.
  - destruct mx as [n|]; [|exact I]. cbn [truthy_bound positive_bound] in *.
    destruct (n =? 0)%N; [discriminate Hpos|].
    apply N.ltb_ge in H2. exact H2.
Qed.

Lemma imap_issues_nil (f : nat -> json -> result (list issue) json) items :
  List.Forall (fun l => l = []) (List.map issues_of (imap f items)) ->
  forall x, In x items -> exists i, issues_of (f i x) = [].
Proof.
  revert f. induction items as [|y items IH]; intros f H x Hx; [destruct Hx|].
  rewrite imap_cons in H. cbn [List.map] in H.
  inversion H as [|? ? Hy Hrest]; subst.
  destruct Hx as [<-|Hx]; [exists 0%nat; exact Hy|].
  destruct (IH _ Hrest x Hx) as [i Hi]. exists (S i). exact Hi.
Qed.

Lemma honoured_object ps req :
  honoured (SchObject (Some ps) req) = true ->
  (forall key, In key (default [] req) ->
               exists s, In (key, s) ps /\ typed s = true) /\
  List.Forall (fun kv => honoured (snd kv) = true) ps.
Proof.
  cbn [honoured]. intros H. apply andb_true_iff in H as [Hreq Heach]. split.
  - intros key Hkey. rewrite forallb_forall in Hreq. specialize (Hreq key Hkey).
    apply existsb_exists in Hreq as ([k s] & Hin & Hks).
    apply andb_true_iff in Hks as [Hk Hs]. apply bool_decide_eq_true in Hk.
    cbn [fst snd] in *. subst. exists s. split; assumption.
  - clear Hreq. induction ps as [|[k s] ps IH]; [constructor|].
    apply andb_true_iff in Heach as [Hs Hrest]. constructor; [exact Hs|].
    apply IH, Hrest.
Qed.

Lemma typed_rejects_undefined s :
  typed s = true -> accepts_undefined (jsonSchemaToZod s) = false.
Proof.
  destruct s as [[values|] mn mx pat|int mn mx| |items mn mx|[ps|] req|];
    try reflexivity; discriminate.
Qed.

(** What the validator built from an honoured schema accepts conforms to
    the schema. *)
Lemma accepted_value_conforms schema :
  honoured schema = true ->
  forall v path r, zparse rt (jsonSchemaToZod schema) path v = Ok r -> conforms rt schema v.
Proof.
  induction schema as [enum mn mx pat|int mn mx| |items mn mx IH|props req IH|]
    using Schema_nested_ind; intros Hh v path r Hp.
  - cbn [jsonSchemaToZod] in Hp. destruct enum as [values|]; cbn [zparse] in Hp;
      destruct v as [| | |s| |]; try discriminate Hp; cbn [conforms].
    + apply settle_Ok in Hp as [Hp _]. apply check_nil in Hp.
      apply negb_false_iff in Hp. apply includes_name_In. exact Hp.
    + cbn [honoured] in Hh. apply andb_true_iff in Hh as [Hmx Hpat].
      apply settle_Ok in Hp as [Hp _]. apply app_eq_nil in Hp as [Hsize Hre].
      split; [exact (size_issues_nil_within _ _ _ _ Hmx Hsize)|].
      destruct pat as [p|]; [|exact I]. cbn [truthy_pattern] in Hre. rewrite Hpat in Hre.
      apply check_nil in Hre. apply negb_false_iff in Hre. exact Hre.
  - cbn [jsonSchemaToZod zparse] in Hp. destruct v as [| |q| | |]; try discriminate Hp.
    apply settle_Ok in Hp as [Hp _]. apply app_eq_nil in Hp as [Hint Hp].
    apply app_eq_nil in Hp as [Hmin Hmax].
    apply check_nil in Hint. apply check_nil in Hmin. apply check_nil in Hmax.
    cbn [conforms]. split; [|split].
    + intros ->. cbn [andb] in Hint. apply negb_false_iff in Hint. exact Hint.
    + destruct mn as [m|]; [|exact I]. apply negb_false_iff in Hmin.
      apply Qle_bool_iff. exact Hmin.
    + destruct mx as [m|]; [|exact I]. apply negb_false_iff in Hmax.
      apply Qle_bool_iff. exact Hmax.
  - cbn [jsonSchemaToZod zparse] in Hp. destruct v; try discriminate Hp. exact I.
  - cbn [jsonSchemaToZod zparse] in Hp. destruct v as [| | | |elements|]; try discriminate Hp.
    cbn [honoured] in Hh. apply andb_true_iff in Hh as [Hmx Hitems].
    apply settle_Ok in Hp as [Hp _]. apply app_eq_nil in Hp as [Hsize Hp].
    cbn [conforms]. split; [exact (size_issues_nil_within _ _ _ _ Hmx Hsize)|].
    destruct items as [s|]; [|exact I].
    apply concat_nil_inv in Hp. apply List.Forall_forall. intros x Hx.
    destruct (imap_issues_nil _ _ Hp x Hx) as [i Hi]. cbn beta in Hi.
    destruct (zparse rt (jsonSchemaToZod s) (path ++ [String_of_Z (Z.of_nat i)]) x)
      as [x'|found] eqn:Hx'.
    + exact (IH s eq_refl Hitems _ _ _ Hx').
    + cbn [issues_of] in Hi. subst found. apply zparse_Throw_nonempty in Hx'.
      contradiction.
  - destruct props as [ps|].
    + rewrite jsonSchemaToZod_object in Hp. destruct v as [| | | | |obj];
        try discriminate Hp.
      rewrite zparse_object in Hp. cbn zeta in Hp.
      apply settle_Ok in Hp as [Hp _]. apply concat_nil_inv in Hp.
      rewrite List.map_map, List.Forall_map in Hp. rewrite List.Forall_map in Hp.
      rewrite List.Forall_forall in Hp.
      apply honoured_object in Hh as [Hreq Heach].
      rewrite List.Forall_forall in Heach.
      specialize (IH ps eq_refl). rewrite List.Forall_forall in IH.
      apply conforms_object. split.
      * intros key Hkey. destruct (Hreq key Hkey) as (s & Hin & Hs).
        specialize (Hp (key, s) Hin). unfold property_validator, field_outcome in Hp.
        cbn [fst snd] in Hp.
        assert (includes_name (default [] req) key = true) as Hk
          by (apply includes_name_In; exact Hkey).
        rewrite Hk in Hp. destruct (obj !! key) as [x|]; [eexists; reflexivity|].
        rewrite (typed_rejects_undefined _ Hs) in Hp. discriminate Hp.
      * apply List.Forall_forall. intros [k s] Hin. cbn [fst snd].
        destruct (obj !! k) as [x|] eqn:Hx; [|exact I].
        specialize (Hp (k, s) Hin). unfold property_validator, field_outcome in Hp.
        cbn [fst snd] in Hp. rewrite Hx in Hp.
        assert (exists x', zparse rt (jsonSchemaToZod s) (path ++ [k]) x = Ok x')
          as [x' Hx'].
        { destruct (includes_name (default [] req) k); cbn [zparse] in Hp;
            destruct (zparse rt (jsonSchemaToZod s) (path ++ [k]) x) as [x'|found] eqn:Hz;
            try (eexists; reflexivity);
            cbn [snd issues_of] in Hp; subst found;
            apply zparse_Throw_nonempty in Hz; contradiction. }
        exact (IH (k, s) Hin (Heach (k, s) Hin) _ _ _ Hx').
    + cbn [jsonSchemaToZod zparse] in Hp. destruct v as [| | | | |obj];
        try discriminate Hp.
      cbn [honoured] in Hh. cbn [conforms].
      destruct (default [] req) as [|k ks]; [|discriminate Hh].
      split; [intros key []|exact I].
  - exact I.
Qed.

End Exactness.


Lemma every_tool_schema_is_honoured :
  forallb (fun t => honoured_tool (inputSchema t)) TOOLS = true.
Proof. vm_compute. reflexivity. Qed.

Lemma every_tool_schema_is_flat :
  forallb (fun t => forallb (fun kv => flat (snd kv)) (properties (inputSchema t))) TOOLS
  = true.
Proof. vm_compute. reflexivity. Qed.

(** X11: for each tool of the catalogue the validator decides conformance:
    [validateArgs] accepts the argument map exactly when the map
    conforms to the tool's input schema; what it then returns is that
    map less its own property [__proto__], if it has one, and nothing
    else changed; and it throws a [ValidationError] that lists at least
    one issue when the map does not conform. *)
Theorem tools_accept_exactly_the_conforming_arguments rt message_of t args :
  In t TOOLS ->
  ((exists validated,
      validateArgs rt message_of (tool_name t) args (inputSchema t) = Ok validated)
   <-> conforms_to_tool rt (inputSchema t) args) /\
  (forall validated,
     validateArgs rt message_of (tool_name t) args (inputSchema t) = Ok validated ->
     exists props, args = JObj props /\ validated = JObj (delete proto_name props)) /\
  (~ conforms_to_tool rt (inputSchema t) args ->
   exists issues,
     issues <> [] /\
     validateArgs rt message_of (tool_name t) args (inputSchema t)
     = Throw (TMcp (new_ValidationError
                      (js "Invalid arguments for " ++ tool_name t ++ js ": "
                       ++ join (js ", ") (List.map (render_issue message_of) issues))
                      None None))).
Proof.
  intros Hin.
  pose proof every_tool_schema_is_honoured as Hall. rewrite forallb_forall in Hall.
  specialize (Hall t Hin). unfold honoured_tool in Hall.
  pose proof every_tool_schema_is_flat as Hflat. rewrite forallb_forall in Hflat.
  specialize (Hflat t Hin).
  assert (forall r, zparse rt (buildToolValidator (inputSchema t)) [] args = Ok r ->
                    conforms_to_tool rt (inputSchema t) args) as Hsound.
  { intros r Hr. unfold conforms_to_tool.
    assert (honoured (SchObject (Some (properties (inputSchema t)))
                        (Some (default [] (required (inputSchema t))))) = true) as Hh
      by (revert Hall; cbn [honoured]; destruct (required (inputSchema t)); trivial).
    pose proof (accepted_value_conforms rt _ Hh _ _ _ Hr) as Hc.
    destruct args as [| | | | |obj]; try contradiction.
    apply conforms_object. apply conforms_object in Hc.
    destruct (required (inputSchema t)); exact Hc. }
  assert (conforms_to_tool rt (inputSchema t) args ->
          exists props,
            args = JObj props /\
            zparse rt (buildToolValidator (inputSchema t)) [] args
            = Ok (JObj (delete proto_name props))) as Hcomplete.
  { intros Hc. unfold conforms_to_tool in Hc.
    destruct args as [| | | | |obj]; try contradiction.
    exists obj. split; [reflexivity|]. unfold buildToolValidator.
    apply flat_object_is_returned; [exact Hflat|].
    apply conforms_object. apply conforms_object in Hc.
    destruct (required (inputSchema t)); exact Hc. }
  unfold validateArgs. split; [split|split].
  - intros [validated Hv].
    destruct (zparse rt (buildToolValidator (inputSchema t)) [] args) as [r|found] eqn:Hp;
      [exact (Hsound r eq_refl)|discriminate].
  - intros Hc. destruct (Hcomplete Hc) as (props & _ & ->). eexists. reflexivity.
  - intros validated.
    destruct (zparse rt (buildToolValidator (inputSchema t)) [] args) as [r|found] eqn:Hp;
      [|discriminate].
    intros [= <-]. destruct (Hcomplete (Hsound r eq_refl)) as (props & -> & Hr).
    exists props. split; [reflexivity|]. congruence.
  - intros Hnot.
    destruct (zparse rt (buildToolValidator (inputSchema t)) [] args) as [r|found] eqn:Hp;
      [destruct (Hnot (Hsound r eq_refl))|].
    exists found. split; [exact (zparse_Throw_nonempty rt _ _ _ _ Hp)|reflexivity].
Qed.

Lemma tools_accept_exactly_the_conforming_arguments_witness :
  In create_token_tool TOOLS /\
  validateArgs ascii_runtime plain_messages (js "create_token")
    create_token_arguments_with_proto (inputSchema create_token_tool)
  = Ok create_token_arguments /\
  validateArgs ascii_runtime plain_messages (js "create_token")
    (JObj {[ js "type" := JStr (js "user") ]}) (inputSchema create_token_tool)
  = Throw (TMcp (new_ValidationError
                   (js "Invalid arguments for create_token: name: Invalid type")
                   None None)).
Proof.
  assert (In create_token_tool TOOLS) as Hin by (vm_compute; tauto).
  split; [exact Hin|]. split.
  - destruct (tools_accept_exactly_the_conforming_arguments ascii_runtime plain_messages
                create_token_tool create_token_arguments_with_proto Hin)
      as ([_ Haccepts] & Hreturned & _).
    destruct (Haccepts create_token_arguments_with_proto_conform) as [validated Hv].
    etransitivity; [exact Hv|].
    destruct (Hreturned validated Hv) as (props & Hargs & ->).
    injection Hargs as <-. vm_compute. reflexivity.
  - vm_compute. reflexivity.
Defined.

(** ** Patterns *)

Lemma in_Seq_inv r1 r2 s :
  in_language (Seq r1 r2) s ->
  exists s1 s2, s = s1 ++ s2 /\ in_language r1 s1 /\ in_language r2 s2.
Proof. inversion 1; subst. eexists _, _. repeat split; eassumption. Qed.

Lemma in_Alt_inv r1 r2 s :
  in_language (Alt r1 r2) s -> in_language r1 s \/ in_language r2 s.
Proof. inversion 1; subst; [left|right]; assumption. Qed.

Lemma in_Class_inv p s : in_language (Class p) s -> exists u, s = [u] /\ p u = true.
Proof. inversion 1; subst. eexists. split; [reflexivity|assumption]. Qed.

Lemma in_Eps_inv s : in_language Eps s -> s = [].
Proof. inversion 1. reflexivity. Qed.

Lemma in_Void_inv s : ~ in_language Void s.
Proof. inversion 1. Qed.

Lemma nullable_spec r : nullable r = true <-> in_language r [].
Proof.
  induction r as [| |p|r1 IH1 r2 IH2|r1 IH1 r2 IH2|r IH]; cbn [nullable].
  - split; [discriminate|intros H; destruct (in_Void_inv _ H)].
  - split; [constructor|reflexivity].
  - split; [discriminate|]. intros H. apply in_Class_inv in H as (u & H & _).
    discriminate H.
  - rewrite andb_true_iff, IH1, IH2. split.
    + intros [H1 H2]. exact (in_Seq _ _ [] [] H1 H2).
    + intros H. apply in_Seq_inv in H as (s1 & s2 & Heq & H1 & H2).
      symmetry in Heq. apply app_eq_nil in Heq as [-> ->]. split; assumption.
  - rewrite orb_true_iff, IH1, IH2. split.
    + intros [H|H]; [apply in_Alt_l|apply in_Alt_r]; exact H.
    + apply in_Alt_inv.
  - split; [constructor|reflexivity].
Qed.

Lemma star_cons r u s :
  in_language (Star r) (u :: s) ->
  exists s1 s2, s = s1 ++ s2 /\ in_language r (u :: s1) /\ in_language (Star r) s2.
Proof.
  remember (Star r) as r' eqn:Hr. remember (u :: s) as us eqn:Hus.
  intros H. revert r u s Hr Hus.
  induction H as [| | | | | |r0 s1 s2 H1 _ H2 IH2]; intros rr uu ss Hr Hus;
    try discriminate.
  injection Hr as ->.
  destruct s1 as [|v s1].
  - cbn [app] in Hus. exact (IH2 rr uu ss eq_refl Hus).
  - cbn [app] in Hus. injection Hus as -> <-. exists s1, s2. repeat split; assumption.
Qed.

Lemma deriv_spec r : forall u s, in_language (deriv u r) s <-> in_language r (u :: s).
Proof.
  induction r as [| |p|r1 IH1 r2 IH2|r1 IH1 r2 IH2|r IH]; intros u s; cbn [deriv].
  - split; intros H; destruct (in_Void_inv _ H).
  - split; intros H; [destruct (in_Void_inv _ H)|apply in_Eps_inv in H; discriminate H].
  - destruct (p u) eqn:Hp; split; intros H.
    + apply in_Eps_inv in H as ->. constructor. exact Hp.
    + apply in_Class_inv in H as (v & [= <- ->] & _). constructor.
    + destruct (in_Void_inv _ H).
    + apply in_Class_inv in H as (v & [= <- ->] & Hv). congruence.
  - assert (in_language (Seq (deriv u r1) r2) s
            <-> exists s1 s2, s = s1 ++ s2 /\ in_language r1 (u :: s1) /\ in_language r2 s2)
      as Hseq.
    { split.
      - intros H. apply in_Seq_inv in H as (s1 & s2 & -> & H1 & H2).
        exists s1, s2. split; [reflexivity|]. split; [apply IH1, H1|exact H2].
      - intros (s1 & s2 & -> & H1 & H2). constructor; [apply IH1, H1|exact H2]. }
    assert (in_language (Seq r1 r2) (u :: s)
            <-> (exists s1 s2, s = s1 ++ s2 /\ in_language r1 (u :: s1) /\ in_language r2 s2)
                \/ (in_language r1 [] /\ in_language r2 (u :: s))) as Hcons.
    { split.
      - intros H. apply in_Seq_inv in H as (s1 & s2 & Heq & H1 & H2).
        destruct s1 as [|v s1]; cbn [app] in Heq.
        + subst s2. right. split; assumption.
        + injection Heq as <- ->. left. exists s1, s2. repeat split; assumption.
      - intros [(s1 & s2 & -> & H1 & H2)|[H1 H2]].
        + exact (in_Seq _ _ (u :: s1) s2 H1 H2).
        + exact (in_Seq _ _ [] (u :: s) H1 H2). }
    rewrite Hcons. destruct (nullable r1) eqn:Hn.
    + split.
      * intros H. apply in_Alt_inv in H as [H|H].
        -- left. apply Hseq, H.
        -- right. split; [apply nullable_spec, Hn|apply IH2, H].
      * intros [H|[_ H]]; [apply in_Alt_l, Hseq, H|apply in_Alt_r, IH2, H].
    + rewrite Hseq. split; [intros H; left; exact H|].
      intros [H|[H _]]; [exact H|]. apply nullable_spec in H. congruence.
  - split; intros H.
    + apply in_Alt_inv in H as [H|H]; [apply in_Alt_l, IH1|apply in_Alt_r, IH2]; exact H.
    + apply in_Alt_inv in H as [H|H]; [apply in_Alt_l, IH1|apply in_Alt_r, IH2]; exact H.
  - split; intros H.
    + apply in_Seq_inv in H as (s1 & s2 & -> & H1 & H2). apply IH in H1.
      exact (in_Star_more _ (u :: s1) s2 H1 H2).
    + apply star_cons in H as (s1 & s2 & -> & H1 & H2).
      constructor; [apply IH, H1|exact H2].
Qed.

(** The matcher decides the language. *)
Lemma regex_test_anchored_spec r s : regex_test_anchored r s = true <-> in_language r s.
Proof.
  unfold regex_test_anchored. revert r.
  induction s as [|u s IH]; intros r; cbn [fold_left].
  - apply nullable_spec.
  - rewrite IH. apply deriv_spec.
Qed.

(** *** The languages of repetitions of a class *)

Lemma in_exactly_Class n p s :
  in_language (exactly n (Class p)) s
  <-> length s = n /\ List.Forall (fun u => p u = true) s.
Proof.
  revert s. induction n as [|n IH]; intros s; cbn [exactly].
  - split.
    + intros H. apply in_Eps_inv in H as ->. split; [reflexivity|constructor].
    + intros [H _]. destruct s; [constructor|discriminate H].
  - split.
    + intros H. apply in_Seq_inv in H as (s1 & s2 & -> & H1 & H2).
      apply in_Class_inv in H1 as (u & -> & Hu). apply IH in H2 as [Hlen Hall].
      cbn [app length]. split; [lia|constructor; assumption].
    + intros [Hlen Hall]. destruct s as [|u s]; [discriminate Hlen|].
      inversion Hall as [|? ? Hu Hrest]; subst.
      apply (in_Seq _ _ [u] s); [constructor; exact Hu|].
      apply IH. split; [cbn [length] in Hlen; lia|exact Hrest].
Qed.

Lemma in_at_most_Class n p s :
  in_language (at_most n (Class p)) s
  <-> (length s <= n)%nat /\ List.Forall (fun u => p u = true) s.
Proof.
  revert s. induction n as [|n IH]; intros s; cbn [at_most].
  - split.
    + intros H. apply in_Eps_inv in H as ->. split; [reflexivity|constructor].
    + intros [H _]. destruct s; [constructor|cbn [length] in H; lia].
  - split.
    + intros H. apply in_Alt_inv in H as [H|H].
      * apply in_Eps_inv in H as ->. split; [cbn; lia|constructor].
      * apply in_Seq_inv in H as (s1 & s2 & -> & H1 & H2).
        apply in_Class_inv in H1 as (u & -> & Hu). apply IH in H2 as [Hlen Hall].
        cbn [app length]. split; [lia|constructor; assumption].
    + intros [Hlen Hall]. destruct s as [|u s]; [apply in_Alt_l; constructor|].
      inversion Hall as [|? ? Hu Hrest]; subst. apply in_Alt_r.
      apply (in_Seq _ _ [u] s); [constructor; exact Hu|].
      apply IH. split; [cbn [length] in Hlen; lia|exact Hrest].
Qed.

Lemma in_between_Class lo hi p s :
  (lo <= hi)%nat ->
  in_language (between lo hi (Class p)) s
  <-> (lo <= length s <= hi)%nat /\ List.Forall (fun u => p u = true) s.
Proof.
  intros Hle. unfold between. split.
  - intros H. apply in_Seq_inv in H as (s1 & s2 & -> & H1 & H2).
    apply in_exactly_Class in H1 as [Hl1 Ha1]. apply in_at_most_Class in H2 as [Hl2 Ha2].
    rewrite length_app. split; [lia|apply Forall_app; split; assumption].
  - intros [Hlen Hall].
    rewrite <- (firstn_skipn lo s) in Hall |- *.
    apply Forall_app in Hall as [Ha1 Ha2].
    constructor.
    + apply in_exactly_Class. split; [rewrite length_firstn; lia|exact Ha1].
    + apply in_at_most_Class. split; [rewrite length_skipn; lia|exact Ha2].
Qed.

Lemma in_Star_Class p s :
  in_language (Star (Class p)) s <-> List.Forall (fun u => p u = true) s.
Proof.
  split.
  - remember (Star (Class p)) as r eqn:Hr. intros H.
    induction H as [| | | | | |r0 s1 s2 H1 _ _ IH2]; try discriminate Hr.
    + constructor.
    + injection Hr as ->. apply in_Class_inv in H1 as (u & -> & Hu).
      constructor; [exact Hu|apply IH2; reflexivity].
  - induction s as [|u s IH]; intros H; [constructor|].
    inversion H as [|? ? Hu Hrest]; subst.
    apply (in_Star_more _ [u] s); [constructor; exact Hu|apply IH, Hrest].
Qed.

Lemma in_one_or_more_Class p s :
  in_language (one_or_more (Class p)) s <-> s <> [] /\ List.Forall (fun u => p u = true) s.
Proof.
  unfold one_or_more. split.
  - intros H. apply in_Seq_inv in H as (s1 & s2 & -> & H1 & H2).
    apply in_Class_inv in H1 as (u & -> & Hu). apply in_Star_Class in H2.
    split; [discriminate|constructor; assumption].
  - intros [Hne Hall]. destruct s as [|u s]; [contradiction|].
    inversion Hall as [|? ? Hu Hrest]; subst.
    apply (in_Seq _ _ [u] s); [constructor; exact Hu|apply in_Star_Class, Hrest].
Qed.

Lemma in_literal c s : in_language (literal c) s <-> s = js c /\ length s = 1%nat.
Proof.
  unfold literal. split.
  - intros H. apply in_Class_inv in H as (u & -> & Hu).
    apply bool_decide_eq_true in Hu. split; [exact Hu|reflexivity].
  - intros [Hs Hlen]. destruct s as [|u [|v s]]; try discriminate Hlen.
    constructor. apply bool_decide_eq_true. exact Hs.
Qed.

Lemma in_optional r s : in_language (optional r) s <-> s = [] \/ in_language r s.
Proof.
  unfold optional. split.
  - intros H. apply in_Alt_inv in H as [H|H]; [left; apply in_Eps_inv, H|right; exact H].
  - intros [->|H]; [apply in_Alt_l; constructor|apply in_Alt_r, H].
Qed.

Lemma in_prefix_length width s :
  (1 <= width)%nat ->
  in_language (optional (Seq (literal "/") (between 1 width digit))) s <-> prefix_length width s.
Proof.
  intros Hw. rewrite in_optional. unfold prefix_length. split.
  - intros [->|H]; [left; reflexivity|right].
    apply in_Seq_inv in H as (s1 & s2 & -> & H1 & H2).
    apply in_literal in H1 as [-> _]. apply (in_between_Class 1 width) in H2; [|exact Hw].
    exists s2. split; [reflexivity|exact H2].
  - intros [->|(m & -> & Hm)]; [left; reflexivity|right].
    constructor; [apply in_literal; split; reflexivity|].
    apply (in_between_Class 1 width); [exact Hw|exact Hm].
Qed.

(** X12: what [schemas.ipCidr] admits is a shape, not an address: four groups
    of one to three digits, of any value, with dots between them and an
    optional [/] and one or two digits; or any run of hexadecimal digits
    and colons with an optional [/] and one to three digits. *)
Theorem ipCidr_pattern_admits_shapes s :
  regex_test_anchored ipCidr_pattern s = true <-> dotted_quad s \/ hex_and_colons s.
Proof.
  rewrite regex_test_anchored_spec. unfold ipCidr_pattern. split.
  - intros H. apply in_Alt_inv in H as [H|H]; [left|right].
    + apply in_Seq_inv in H as (s123 & s4 & -> & H123 & H4).
      cbn [exactly] in H123.
      apply in_Seq_inv in H123 as (s1 & s23 & -> & H1 & H23).
      apply in_Seq_inv in H23 as (s2 & s3e & -> & H2 & H3e).
      apply in_Seq_inv in H3e as (s3 & e & -> & H3 & He).
      apply in_Eps_inv in He as ->.
      apply in_Seq_inv in H1 as (a & dot1 & -> & Ha & Hd1).
      apply in_Seq_inv in H2 as (b & dot2 & -> & Hb & Hd2).
      apply in_Seq_inv in H3 as (c & dot3 & -> & Hc & Hd3).
      apply in_literal in Hd1 as [-> _]. apply in_literal in Hd2 as [-> _].
      apply in_literal in Hd3 as [-> _].
      apply in_Seq_inv in H4 as (d & suffix & -> & Hd & Hsuffix).
      apply (in_between_Class 1 3) in Ha, Hb, Hc, Hd; try lia.
      apply (in_prefix_length 2) in Hsuffix; [|lia].
      exists a, b, c, d, suffix. rewrite app_nil_r, <- !app_assoc.
      repeat split; try assumption; apply Ha || apply Hb || apply Hc || apply Hd.
    + apply in_Seq_inv in H as (h & suffix & -> & Hh & Hsuffix).
      apply in_one_or_more_Class in Hh as [Hne Hall].
      apply (in_prefix_length 3) in Hsuffix; [|lia].
      exists h, suffix. repeat split; assumption.
  - intros [(a & b & c & d & suffix & -> & Ha & Hb & Hc & Hd & Hsuffix)
           |(h & suffix & -> & Hne & Hall & Hsuffix)].
    + apply in_Alt_l.
      replace (a ++ js "." ++ b ++ js "." ++ c ++ js "." ++ d ++ suffix)
        with (((a ++ js ".") ++ (b ++ js ".") ++ (c ++ js ".") ++ []) ++ d ++ suffix)
        by (rewrite app_nil_r, <- !app_assoc; reflexivity).
      assert (forall g, digits_between 1 3 g ->
                        in_language (Seq (between 1 3 digit) (literal ".")) (g ++ js "."))
        as Hgroup.
      { intros g Hg. constructor; [apply (in_between_Class 1 3); [lia|exact Hg]|].
        apply in_literal. split; reflexivity. }
      constructor.
      * cbn [exactly]. repeat (constructor; [apply Hgroup; assumption|]). constructor.
      * constructor; [apply (in_between_Class 1 3); [lia|exact Hd]|].
        apply (in_prefix_length 2); [lia|exact Hsuffix].
    + apply in_Alt_r. constructor.
      * apply in_one_or_more_Class. split; assumption.
      * apply (in_prefix_length 3); [lia|exact Hsuffix].
Qed.

Example ipCidr_pattern_checks_no_ranges :
  regex_test_anchored ipCidr_pattern (js "999.999.999.999/99") = true /\
  regex_test_anchored ipCidr_pattern (js "10.0.0.0/8") = true /\
  regex_test_anchored ipCidr_pattern (js "2001:db8::/32") = true /\
  regex_test_anchored ipCidr_pattern (js ":::") = true /\
  regex_test_anchored ipCidr_pattern (js "10.0.0") = false /\
  regex_test_anchored ipCidr_pattern (js "10.0.0.0/") = false /\
  regex_test_anchored ipCidr_pattern (js "example.com") = false.
Proof. vm_compute. repeat split. Qed.

(** X13: the three argument checks accept exactly what they name and hand it
    back unchanged: a token type is the string [user] or [account]; a
    Cloudflare id is a string of 32 hexadecimal digits of either case;
    an optional id is left out by [undefined], [null] or the empty
    string and is otherwise checked as an id. Any other value throws the
    [ValidationError] that names the field. *)
Theorem argument_checks_accept_exactly (x : unknown) fieldName :
  (forall s, validateTokenType x = Ok s
             <-> x = Some (JStr s) /\ (s = js "user" \/ s = js "account")) /\
  (forall s, validateCfId x fieldName = Ok s
             <-> x = Some (JStr s) /\ length s = 32%nat /\
                 List.Forall (fun u => hex_digit_any_case u = true) s) /\
  (forall e, validateCfId x fieldName = Throw e ->
             e = TMcp (new_ValidationError
                         (js "Invalid " ++ default (js "ID") fieldName
                          ++ js ": must be a 32-character hex string") None None)) /\
  (validateOptionalCfId x fieldName = Ok None
   <-> x = None \/ x = Some JNull \/ x = Some (JStr [])) /\
  (forall s, validateOptionalCfId x fieldName = Ok (Some s)
             <-> validateCfId x fieldName = Ok s).
Proof.
  assert (forall s, Nat.eqb (length s) 32 && regex_test_anchored cfId_pattern s = true
                    <-> length s = 32%nat /\
                        List.Forall (fun u => hex_digit_any_case u = true) s) as Hid.
  { intros s. rewrite andb_true_iff, Nat.eqb_eq, regex_test_anchored_spec.
    unfold cfId_pattern. rewrite in_one_or_more_Class. split.
    - intros [Hlen [_ Hall]]. split; assumption.
    - intros [Hlen Hall]. split; [exact Hlen|]. split; [|exact Hall].
      intros ->. discriminate Hlen. }
  assert (forall s, validateCfId x fieldName = Ok s
                    <-> x = Some (JStr s) /\ length s = 32%nat /\
                        List.Forall (fun u => hex_digit_any_case u = true) s) as Hcf.
  { intros s. unfold validateCfId. destruct x as [[| | |s'| |]|];
      try (split; [discriminate|intros [H _]; discriminate H]).
    destruct (Nat.eqb (length s') 32 && regex_test_anchored cfId_pattern s') eqn:Hok.
    - apply Hid in Hok. split; [intros [= <-]; split; [reflexivity|exact Hok]|].
      intros [H _]; injection H as <-. reflexivity.
    - split; [discriminate|]. intros [H Hs]; injection H as <-. apply Hid in Hs. congruence. }
  split; [|split; [exact Hcf|split; [|split]]].
  - intros s. unfold validateTokenType. destruct x as [[| | |s'| |]|];
      try (split; [discriminate|intros [H _]; discriminate H]).
    destruct (includes_name [js "user"; js "account"] s') eqn:Hin.
    + apply includes_name_In in Hin.
      split; [intros [= <-]; split; [reflexivity|]|intros [H _]; injection H as <-; reflexivity].
      destruct Hin as [<- | [<- | []]]; [left|right]; reflexivity.
    + split; [discriminate|]. intros [H Hs]; injection H as <-.
      apply includes_name_not_In in Hin. exfalso. apply Hin.
      destruct Hs as [-> | ->]; [left|right; left]; reflexivity.
  - intros e. unfold validateCfId.
    destruct x as [[| | |s| |]|]; try (intros [= <-]; reflexivity).
    destruct (Nat.eqb (length s) 32 && regex_test_anchored cfId_pattern s);
      [discriminate|intros [= <-]; reflexivity].
  - unfold validateOptionalCfId.
    destruct x as [[| | |[|u s]| |]|];
      try (split; [reflexivity|tauto || (intros _; tauto)]);
      try (split; [intros _; tauto|reflexivity]);
      (split;
       [intros H; destruct (validateCfId _ _); discriminate H
       |intros [H|[H|H]]; discriminate H]).
  - intros s. unfold validateOptionalCfId.
    assert (validateCfId x (Some (default (js "ID") fieldName)) = validateCfId x fieldName)
      as Hsame by (destruct fieldName; reflexivity).
    destruct x as [[| | |[|u s']| |]|]; rewrite ?Hsame;
      try (destruct (validateCfId _ fieldName) as [r|e];
           split; [intros [= <-]; reflexivity|intros [= <-]; reflexivity
                  |discriminate|discriminate]).
    all: split; [discriminate|intros H; apply Hcf in H as (H & Hlen & _)];
      try discriminate H.
    injection H as <-. discriminate Hlen.
Qed.

Lemma invalid_ip_Throw {A : Type} display fieldName i ip :
  exists e, @invalid_ip A display fieldName i ip = Throw e.
Proof. unfold invalid_ip. destruct (template_text display ip); eexists; reflexivity. Qed.

(** Induction over values, through the elements of arrays. *)
Lemma json_items_ind (P : json -> Prop) :
  P JNull -> (forall b, P (JBool b)) -> (forall q, P (JNum q)) -> (forall s, P (JStr s)) ->
  (forall items, List.Forall P items -> P (JArr items)) ->
  (forall props, P (JObj props)) ->
  forall x, P x.
Proof.
  intros Hnull Hbool Hnum Hstr Harr Hobj. fix IH 1. intros [|b|q|s|items|props].
  - exact Hnull.
  - apply Hbool.
  - apply Hnum.
  - apply Hstr.
  - apply Harr. induction items as [|x items IHitems]; constructor; [apply IH|exact IHitems].
  - apply Hobj.
Qed.

(** The conversion to a string fails in one way only, and never for a
    string, a number, a boolean or [null]. *)
Lemma template_text_Throw display :
  forall x e,
    template_text display x = Throw e ->
    e = cannot_convert /\
    ((exists items, x = JArr items) \/
     (exists props, x = JObj props /\ is_Some (props !! js "toString"))).
Proof.
  assert (forall x e, template_text display x = Throw e -> e = cannot_convert) as Hone.
  { induction x as [|b|q|s|items IH|props] using json_items_ind; intros e;
      cbn [template_text]; try discriminate.
    - destruct b; discriminate.
    - induction IH as [|item rest Hitem _ IHrest]; [discriminate|].
      destruct (match item with
                | JNull => Ok []
                | _ => template_text display item
                end) as [text|e'] eqn:Htext.
      + destruct rest as [|item' rest']; [discriminate|].
        match goal with
        | |- context [match ?j with Ok _ => _ | Throw _ => _ end] =>
            destruct j as [more|e'] eqn:Hrest
        end; [discriminate|].
        intros [= <-]. apply IHrest. reflexivity.
      + intros [= <-]. apply Hitem. destruct item; try exact Htext. discriminate Htext.
    - case_bool_decide; [intros [= <-]; reflexivity|discriminate]. }
  intros x e H. split; [exact (Hone x e H)|].
  destruct x as [| [|] |q|s|items|props]; try discriminate H.
  - left. exists items. reflexivity.
  - right. exists props. split; [reflexivity|].
    cbn [template_text] in H. case_bool_decide; [assumption|discriminate H].
Qed.

Lemma validate_each_ip_Ok display fieldName items :
  forall i l,
    validate_each_ip display fieldName i items = Ok l
    <-> items = List.map JStr l /\
        List.Forall (fun s => regex_test_anchored ipCidr_pattern s = true) l.
Proof.
  induction items as [|x items IH]; intros i l; cbn [validate_each_ip].
  - split.
    + intros [= <-]. split; [reflexivity|constructor].
    + intros [H _]. destruct l; [reflexivity|discriminate H].
  - destruct (@invalid_ip_Throw (list jsstring) display fieldName i x) as [e0 He0].
    destruct x as [| | |s| |]; try rewrite He0;
      try (split; [discriminate|intros [H _]; destruct l; discriminate H]).
    destruct (regex_test_anchored ipCidr_pattern s) eqn:Hs.
    + destruct (validate_each_ip display fieldName (S i) items) as [validated|e] eqn:Hrest.
      * apply IH in Hrest as [-> Hall]. split.
        -- intros [= <-]. split; [reflexivity|constructor; assumption].
        -- intros [H Hl]. destruct l as [|s' l]; [discriminate H|].
           cbn [List.map] in H. injection H as <- H.
           apply (f_equal (List.map (fun x => match x with JStr t => t | _ => [] end))) in H.
           rewrite !List.map_map, !List.map_id in H. subst. reflexivity.
      * split; [discriminate|]. intros [H Hl]. destruct l as [|s' l]; [discriminate H|].
        cbn [List.map] in H. injection H as <- ->. inversion Hl as [|? ? _ Hl']; subst.
        assert (validate_each_ip display fieldName (S i) (List.map JStr l) = Ok l) as Hok
          by (apply IH; split; [reflexivity|exact Hl']).
        congruence.
    + split; [discriminate|].
      intros [H Hl]. destruct l as [|s' l]; [discriminate H|].
      cbn [List.map] in H. injection H as <- _. inversion Hl; subst. congruence.
Qed.

Lemma validate_each_ip_Throw display fieldName items :
  forall i e,
    validate_each_ip display fieldName i items = Throw e ->
    exists before x after,
      items = List.map JStr before ++ x :: after /\
      List.Forall (fun s => regex_test_anchored ipCidr_pattern s = true) before /\
      (forall s, x = JStr s -> regex_test_anchored ipCidr_pattern s = false) /\
      @invalid_ip (list jsstring) display fieldName (i + length before) x = Throw e.
Proof.
  induction items as [|x items IH]; intros i e; cbn [validate_each_ip]; [discriminate|].
  assert ((forall s, x = JStr s -> regex_test_anchored ipCidr_pattern s = false) ->
          @invalid_ip (list jsstring) display fieldName i x = Throw e ->
          exists before x0 after,
            x :: items = List.map JStr before ++ x0 :: after /\
            List.Forall (fun s => regex_test_anchored ipCidr_pattern s = true) before /\
            (forall s, x0 = JStr s -> regex_test_anchored ipCidr_pattern s = false) /\
            @invalid_ip (list jsstring) display fieldName (i + length before) x0 = Throw e)
    as Hhere.
  { intros Hx He. exists [], x, items. cbn [List.map app length]. rewrite Nat.add_0_r.
    repeat split; [constructor|exact Hx|exact He]. }
  destruct x as [| | |s| |];
    try (intros He; apply Hhere; [intros s' [=]|exact He]).
  destruct (regex_test_anchored ipCidr_pattern s) eqn:Hs.
  - destruct (validate_each_ip display fieldName (S i) items) as [validated|e'] eqn:Hrest;
      [discriminate|]. intros [= <-].
    destruct (IH _ _ Hrest) as (before & x0 & after & -> & Hall & Hx0 & He).
    exists (s :: before), x0, after. cbn [List.map app length].
    replace (i + S (length before))%nat with (S i + length before)%nat by lia.
    repeat split; [constructor; assumption|exact Hx0|exact He].
  - intros He. apply Hhere; [|exact He]. intros s' [= <-]. exact Hs.
Qed.

(** X14: [validateIpCidrArray] hands back the addresses it was given, in
    order, when each is a string of an admitted shape; nothing
    ([undefined]) for [undefined], [null] and the empty array. Otherwise
    it throws: a [ValidationError] that says that the value is not an
    array, or one that names, by index and text, the first element that
    is not such a string; when that element has no text, an object with
    a property [toString] or an array that holds one, the TypeError of
    the conversion comes out instead. A string always has a text. *)
Theorem validateIpCidrArray_returns_the_addresses display (ips : unknown) fieldName :
  let field := default (js "IP addresses") fieldName in
  (validateIpCidrArray display ips fieldName = Ok None
   <-> ips = None \/ ips = Some JNull \/ ips = Some (JArr [])) /\
  (forall l, validateIpCidrArray display ips fieldName = Ok (Some l)
             <-> l <> [] /\ ips = Some (JArr (List.map JStr l)) /\
                 List.Forall (fun s => regex_test_anchored ipCidr_pattern s = true) l) /\
  (forall e, validateIpCidrArray display ips fieldName = Throw e ->
             ((forall items, ips <> Some (JArr items)) /\
              e = TMcp (new_ValidationError (field ++ js " must be an array") None None)) \/
             exists before x after,
               ips = Some (JArr (List.map JStr before ++ x :: after)) /\
               List.Forall (fun s => regex_test_anchored ipCidr_pattern s = true) before /\
               (forall s, x = JStr s -> regex_test_anchored ipCidr_pattern s = false) /\
               match template_text display x with
               | Ok text =>
                   e = TMcp (new_ValidationError
                               (js "Invalid " ++ field ++ js "["
                                ++ String_of_Z (Z.of_nat (length before))
                                ++ js "]: " ++ quoted text
                                ++ js " is not a valid IP address or CIDR range")
                               None None)
               | Throw _ =>
                   e = cannot_convert /\
                   ((exists elements, x = JArr elements) \/
                    (exists props, x = JObj props /\ is_Some (props !! js "toString")))
               end).
Proof.
  intros field. unfold validateIpCidrArray. fold field.
  destruct ips as [[| | | |[|x items]|]|].
  all: try (split; [split; [intros _; tauto|reflexivity]|];
            split; [|discriminate];
            intros l; split; [discriminate|intros (_ & H & _); discriminate H]).
  all: try (split; [split; [discriminate|intros [H|[H|H]]; discriminate H]|];
            split; [intros l; split; [discriminate|intros (_ & H & _); discriminate H]|];
            intros e [= <-]; left; split; [intros items [=]|reflexivity]).
  - split; [split; [intros _; tauto|reflexivity]|].
    split; [|discriminate].
    intros l; split; [discriminate|]. intros (Hne & H & _); injection H as H.
    destruct l; [contradiction|discriminate H].
  - destruct (validate_each_ip display field 0 (x :: items)) as [validated|e] eqn:Hloop.
    + apply validate_each_ip_Ok in Hloop as [Hitems Hall].
      split; [split; [discriminate|intros [H|[H|H]]; discriminate H]|].
      split; [|discriminate].
      intros l. split.
      * intros [= <-]. split; [intros ->; discriminate Hitems|].
        split; [rewrite Hitems; reflexivity|exact Hall].
      * intros (_ & H & _); injection H as H. rewrite Hitems in H.
        apply (f_equal (List.map (fun x => match x with JStr t => t | _ => [] end))) in H.
        rewrite !List.map_map, !List.map_id in H. subst. reflexivity.
    + split; [split; [discriminate|intros [H|[H|H]]; discriminate H]|].
      split.
      * intros l. split; [discriminate|]. intros (_ & H & Hall); injection H as H.
        assert (validate_each_ip display field 0 (x :: items) = Ok l) as Hok
          by (apply validate_each_ip_Ok; split; assumption).
        congruence.
      * intros e' [= <-]. right.
        destruct (validate_each_ip_Throw _ _ _ _ _ Hloop)
          as (before & x0 & after & Hitems & Hall & Hx0 & He).
        exists before, x0, after. rewrite Hitems.
        split; [reflexivity|]. split; [exact Hall|]. split; [exact Hx0|].
        unfold invalid_ip in He. cbn [Nat.add] in He.
        destruct (template_text display x0) as [text|e0] eqn:Htext.
        -- injection He as <-. reflexivity.
        -- injection He as <-. exact (template_text_Throw display x0 e0 Htext).
Qed.

Lemma validateIpCidrArray_returns_the_addresses_witness :
  validateIpCidrArray (fun _ => js "0")
    (Some (JArr [JStr (js "10.0.0.0/8"); JStr (js "2001:db8::/32")])) (Some (js "ipAllow"))
  = Ok (Some [js "10.0.0.0/8"; js "2001:db8::/32"]) /\
  validateIpCidrArray (fun _ => js "0")
    (Some (JArr [JStr (js "10.0.0.0/8"); JStr (js "example.com"); JNull]))
    (Some (js "ipAllow"))
  = Throw (TMcp (new_ValidationError
                   (js "Invalid ipAllow[1]: " ++ quoted (js "example.com")
                    ++ js " is not a valid IP address or CIDR range") None None)) /\
  validateIpCidrArray (fun _ => js "0")
    (Some (JArr [JStr (js "10.0.0.0/8"); JObj {[ js "toString" := JNum 1 ]}]))
    (Some (js "ipAllow"))
  = Throw cannot_convert.
Proof.
  split; [|split].
  - apply (proj1 (proj2 (validateIpCidrArray_returns_the_addresses
                           (fun _ => js "0")
                           (Some (JArr [JStr (js "10.0.0.0/8"); JStr (js "2001:db8::/32")]))
                           (Some (js "ipAllow"))))).
    split; [discriminate|]. split; [reflexivity|].
    repeat constructor.
  - vm_compute. reflexivity.
  - vm_compute. reflexivity.
Defined.

(** ** More on expiration *)

Lemma parseExpiresIn_unfold s now :
  truthy s = true -> s <> js "never" ->
  parseExpiresIn (Some s) now
  = match match_expiration s with
    | None => Throw (invalid_expiration_format s)
    | Some (amountStr, u) =>
        let amount := parseInt amountStr in
        if amount <=? 0 then
          Throw (TMcp (new_ValidationError
                         (js "Expiration amount must be greater than 0") None None))
        else if limits u <? amount then
          Throw (TMcp (new_ValidationError
                         (js "Expiration too far in the future. Maximum: "
                          ++ String_of_Z (limits u) ++ [u])
                         None None))
        else
          match toISOString
                  (if (u =? 104)%N then setHours_plus now amount
                   else if (u =? 100)%N then setDate_plus now amount
                   else if (u =? 109)%N then setMonth_plus now amount
                   else setFullYear_plus now amount) with
          | Ok text => Ok (Some text)
          | Throw e => Throw e
          end
    end.
Proof.
  intros Hs Hnever. unfold parseExpiresIn. rewrite Hs. cbn [negb orb].
  unfold jsstring_eqb. rewrite bool_decide_eq_false_2 by exact Hnever. reflexivity.
Qed.

Lemma duration_token_not_never s amountStr u :
  duration_token s amountStr u -> truthy s = true /\ s <> js "never".
Proof.
  intros (-> & Hne & Hdigits & Hu). split.
  - destruct amountStr; [contradiction|reflexivity].
  - intros Heq.
    assert (List.last (amountStr ++ [u]) 0%N = 114%N) as Hlast
      by (rewrite Heq; reflexivity).
    rewrite List.last_last in Hlast. subst u. discriminate Hu.
Qed.

(** The pattern of [isValidExpirationFormat] and the match of
    [parseExpiresIn] admit the same strings. *)
Lemma expiration_pattern_matches s :
  regex_test_anchored expiration_pattern s = true
  <-> exists amountStr u, duration_token s amountStr u.
Proof.
  rewrite regex_test_anchored_spec. unfold expiration_pattern, duration_token. split.
  - intros H. apply in_Seq_inv in H as (ds & us & -> & Hds & Hus).
    apply in_one_or_more_Class in Hds as [Hne Hall].
    apply in_Class_inv in Hus as (u & -> & Hu).
    exists ds, u. repeat split; assumption.
  - intros (ds & u & -> & Hne & Hall & Hu).
    constructor; [apply in_one_or_more_Class; split; assumption|constructor; exact Hu].
Qed.

(** X15: [isValidExpirationFormat] tells what [parseExpiresIn] will say of
    the form: a non-empty string it refuses is exactly one on which
    [parseExpiresIn] throws its format error, and one it accepts is
    [never] or digits and a unit, for which [parseExpiresIn] can still
    refuse the amount (zero, or above the limit of the unit). *)
Theorem isValidExpirationFormat_agrees_with_parseExpiresIn s now :
  truthy s = true ->
  (isValidExpirationFormat s = false
   <-> parseExpiresIn (Some s) now = Throw (invalid_expiration_format s)) /\
  (isValidExpirationFormat s = true
   <-> s = js "never" \/ exists amountStr u, match_expiration s = Some (amountStr, u)).
Proof.
  intros Hs. unfold isValidExpirationFormat, jsstring_eqb.
  assert (regex_test_anchored expiration_pattern s = true
          <-> exists amountStr u, match_expiration s = Some (amountStr, u)) as Hre.
  { rewrite expiration_pattern_matches. split; intros (ds & u & H); exists ds, u;
      apply match_expiration_Some; exact H. }
  destruct (decide (s = js "never")) as [->|Hnever].
  - rewrite bool_decide_eq_true_2 by reflexivity. cbn [orb]. split.
    + split; [discriminate|]. vm_compute. discriminate.
    + split; [intros _; left; reflexivity|reflexivity].
  - rewrite bool_decide_eq_false_2 by exact Hnever. cbn [orb].
    rewrite (parseExpiresIn_unfold s now Hs Hnever). split.
    + destruct (regex_test_anchored expiration_pattern s) eqn:Hr.
      * destruct (proj1 Hre eq_refl) as (ds & u & ->).
        split; [discriminate|]. cbv zeta.
        destruct (parseInt ds <=? 0); [discriminate|].
        destruct (limits u <? parseInt ds); [discriminate|].
        unfold toISOString.
        match goal with |- context [match ?d with Some _ => _ | None => _ end] =>
          destruct d end; discriminate.
      * destruct (match_expiration s) as [[ds u]|] eqn:Hm.
        -- assert (false = true) as Habsurd by (apply Hre; eexists _, _; reflexivity).
           discriminate Habsurd.
        -- split; reflexivity.
    + rewrite Hre. split; [intros H; right; exact H|].
      intros [H|H]; [contradiction|exact H].
Qed.

Lemma isValidExpirationFormat_agrees_with_parseExpiresIn_witness :
  isValidExpirationFormat (js "30 days") = false /\
  parseExpiresIn (Some (js "30 days")) 1769817600000
  = Throw (invalid_expiration_format (js "30 days")) /\
  isValidExpirationFormat (js "999d") = true /\
  parseExpiresIn (Some (js "999d")) 1769817600000
  = Throw (TMcp (new_ValidationError
                   (js "Expiration too far in the future. Maximum: 365d") None None)).
Proof.
  destruct (isValidExpirationFormat_agrees_with_parseExpiresIn (js "30 days")
              1769817600000 eq_refl) as [Hno _].
  split; [vm_compute; reflexivity|]. split; [apply Hno; vm_compute; reflexivity|].
  split; vm_compute; reflexivity.
Defined.

Lemma formatExpiration_by_distance Date_parse text expires now :
  truthy text = true ->
  Date_parse text = Some expires ->
  let d := expires - now in
  let days := d / msPerDay in
  let phrase := formatExpiration Date_parse (Some text) now in
  (d < 0 -> phrase = js "Expired") /\
  (0 <= d < msPerDay -> phrase = counted (d / msPerHour) "hour" /\ 0 <= d / msPerHour <= 23) /\
  (msPerDay <= d < 30 * msPerDay -> phrase = counted days "day" /\ 1 <= days <= 29) /\
  (30 * msPerDay <= d < 360 * msPerDay ->
   phrase = counted (days / 30) "month" /\ 1 <= days / 30 <= 11) /\
  (360 * msPerDay <= d < 365 * msPerDay -> phrase = js "0 years") /\
  (365 * msPerDay <= d -> phrase = counted (days / 365) "year" /\ 1 <= days / 365).
Proof.
  intros Htext Hparse d days phrase.
  unfold phrase, formatExpiration. rewrite Htext, Hparse. cbn [negb]. fold d.
  change (1000 * 60 * 60 * 24) with msPerDay. change (1000 * 60 * 60) with msPerHour.
  fold days. unfold msPerDay, msPerHour in *.
  assert (forall a b : Z, (a <? b) = true <-> a < b) as Hlt by (intros; apply Z.ltb_lt).
  assert (forall a b : Z, (a <? b) = false <-> b <= a) as Hge by (intros; apply Z.ltb_ge).
  assert (forall a b : Z, 0 < b -> b * 24 <= a -> 24 <= a / b) as Hdiv
    by (intros a b Hb Ha; apply Z.div_le_lower_bound; lia).
  split; [|split; [|split; [|split; [|split]]]].
  - intros Hd. rewrite (proj2 (Hlt _ _) Hd). reflexivity.
  - intros [Hlo Hhi]. rewrite (proj2 (Hge d 0)) by lia.
    assert (d / 3600000 < 24) as H by (apply Z.div_lt_upper_bound; lia).
    rewrite (proj2 (Hlt _ _) H). split; [reflexivity|].
    split; [apply Z.div_pos; lia|lia].
  - intros [Hlo Hhi]. rewrite (proj2 (Hge d 0)) by lia.
    assert (24 <= d / 3600000) as H1 by (apply Z.div_le_lower_bound; lia).
    rewrite (proj2 (Hge _ _) H1).
    assert (days < 30) as H2 by (apply Z.div_lt_upper_bound; lia).
    assert (1 <= days) as H3 by (apply Z.div_le_lower_bound; lia).
    rewrite (proj2 (Hlt _ _) H2). split; [reflexivity|lia].
  - intros [Hlo Hhi]. rewrite (proj2 (Hge d 0)) by lia.
    assert (24 <= d / 3600000) as H1 by (apply Z.div_le_lower_bound; lia).
    rewrite (proj2 (Hge _ _) H1).
    assert (30 <= days) as H2 by (apply Z.div_le_lower_bound; lia).
    rewrite (proj2 (Hge _ _) H2).
    assert (days < 360) as H3 by (apply Z.div_lt_upper_bound; lia).
    assert (days / 30 < 12) as H4 by (apply Z.div_lt_upper_bound; lia).
    assert (1 <= days / 30) as H5 by (apply Z.div_le_lower_bound; lia).
    rewrite (proj2 (Hlt _ _) H4). split; [reflexivity|lia].
  - intros [Hlo Hhi].
    rewrite (proj2 (Hge d 0)) by lia.
    assert (24 <= d / 3600000) as H1 by (apply Z.div_le_lower_bound; lia).
    rewrite (proj2 (Hge _ _) H1).
    assert (360 <= days) as H2 by (apply Z.div_le_lower_bound; lia).
    assert (days < 365) as H3 by (apply Z.div_lt_upper_bound; lia).
    rewrite (proj2 (Hge days 30)) by lia.
    assert (12 <= days / 30) as H4 by (apply Z.div_le_lower_bound; lia).
    rewrite (proj2 (Hge _ _) H4).
    assert (days / 365 = 0) as -> by (apply Z.div_small; lia).
    reflexivity.
  - intros Hlo. rewrite (proj2 (Hge d 0)) by lia.
    assert (24 <= d / 3600000) as H1 by (apply Z.div_le_lower_bound; lia).
    rewrite (proj2 (Hge _ _) H1).
    assert (365 <= days) as H2 by (apply Z.div_le_lower_bound; lia).
    rewrite (proj2 (Hge days 30)) by lia.
    assert (12 <= days / 30) as H4 by (apply Z.div_le_lower_bound; lia).
    rewrite (proj2 (Hge _ _) H4).
    assert (1 <= days / 365) as H5 by (apply Z.div_le_lower_bound; lia).
    split; [reflexivity|lia].
Qed.

(** X16: the phrases of [formatExpiration], by the distance [d] of the
    expiry from now, for time values read from the epoch on: [Expired]
    behind now; whole hours below a day; whole days from one day to
    below thirty; months of thirty days from thirty days to below 360;
    whole years of 365 days from 365 days on; and, in between,
    [0 years] for the five days from 360 to below 365. *)
Theorem formatExpiration_phrases Date_parse text expires now :
  truthy text = true ->
  Date_parse text = Some expires ->
  0 <= now ->
  Z.abs expires <= 8640000000000000 ->
  let d := expires - now in
  let days := d / msPerDay in
  let phrase := formatExpiration Date_parse (Some text) now in
  (d < 0 -> phrase = js "Expired") /\
  (0 <= d < msPerDay -> phrase = counted (d / msPerHour) "hour" /\ 0 <= d / msPerHour <= 23) /\
  (msPerDay <= d < 30 * msPerDay -> phrase = counted days "day" /\ 1 <= days <= 29) /\
  (30 * msPerDay <= d < 360 * msPerDay ->
   phrase = counted (days / 30) "month" /\ 1 <= days / 30 <= 11) /\
  (360 * msPerDay <= d < 365 * msPerDay -> phrase = js "0 years") /\
  (365 * msPerDay <= d -> phrase = counted (days / 365) "year" /\ 1 <= days / 365).
Proof.
  intros Htext Hparse _ _. exact (formatExpiration_by_distance _ _ _ _ Htext Hparse).
Qed.

Lemma formatExpiration_phrases_witness :
  let Date_parse := fun _ : jsstring => Some 1801008000000 in
  formatExpiration Date_parse (Some (js "2027-01-27T00:00:00.000Z")) 1769817600000
  = js "0 years" /\
  formatExpiration Date_parse (Some (js "2027-01-27T00:00:00.000Z")) 1769299200000
  = js "1 year" /\
  formatExpiration Date_parse (Some (js "2027-01-27T00:00:00.000Z")) 1800921600001
  = js "23 hours".
Proof.
  intros Date_parse.
  pose proof (fun now (Hnow : 0 <= now) =>
                formatExpiration_phrases Date_parse (js "2027-01-27T00:00:00.000Z")
                  1801008000000 now eq_refl eq_refl Hnow ltac:(lia)) as H.
  cbv zeta in H. split; [|split].
  - destruct (H 1769817600000 ltac:(lia)) as (_ & _ & _ & _ & H0 & _). apply H0.
    unfold msPerDay. lia.
  - destruct (H 1769299200000 ltac:(lia)) as (_ & _ & _ & _ & _ & H1).
    destruct H1 as [H1 _]; [unfold msPerDay; lia|]. rewrite H1. vm_compute. reflexivity.
  - destruct (H 1800921600001 ltac:(lia)) as (_ & H2 & _).
    destruct H2 as [H2 _]; [unfold msPerDay; lia|].
    rewrite H2. vm_compute. reflexivity.
Defined.

Lemma iso_text_truthy t : truthy (iso_text t) = true.
Proof.
  unfold iso_text.
  match goal with |- truthy (?year ++ ?rest) = true =>
    destruct year; reflexivity
  end.
Qed.

Lemma parseExpiresIn_exact_units s amountStr u now :
  plausible_now now ->
  duration_token s amountStr u ->
  0 < parseInt amountStr <= limits u ->
  (u = 104%N ->
   parseExpiresIn (Some s) now
   = Ok (Some (iso_text (now + parseInt amountStr * msPerHour)))) /\
  (u = 100%N ->
   parseExpiresIn (Some s) now
   = Ok (Some (iso_text (now + parseInt amountStr * msPerDay)))).
Proof.
  intros Hnow Htok [Hpos Hmax].
  destruct (duration_token_not_never _ _ _ Htok) as [Hs Hnever].
  rewrite (parseExpiresIn_unfold s now Hs Hnever).
  apply match_expiration_Some in Htok. rewrite Htok. cbv zeta.
  assert ((parseInt amountStr <=? 0) = false) as -> by (apply Z.leb_gt; lia).
  assert ((limits u <? parseInt amountStr) = false) as -> by (apply Z.ltb_ge; lia).
  split; intros ->.
  - change (limits 104) with 8760 in Hmax. change ((104 =? 104)%N) with true. cbv iota.
    rewrite setHours_plus_exact by (assumption || lia). reflexivity.
  - change (limits 100) with 365 in Hmax. change ((100 =? 104)%N) with false.
    change ((100 =? 100)%N) with true. cbv iota.
    rewrite setDate_plus_exact by (assumption || lia). reflexivity.
Qed.

(** X17: [formatExpiration] reads back what [parseExpiresIn] wrote, for
    durations below a day in hours and below thirty days in days: read
    at the instant of writing, the phrase is the amount and the unit;
    read later, within one unit, it is one less. (The platform's parser
    is only asked to read the written timestamp back to its instant.) *)
Theorem formatExpiration_reads_back_parseExpiresIn Date_parse s amountStr u now :
  plausible_now now ->
  duration_token s amountStr u ->
  let n := parseInt amountStr in
  (u = 104%N -> 1 <= n <= 23 ->
   Date_parse (iso_text (now + n * msPerHour)) = Some (now + n * msPerHour) ->
   exists text,
     parseExpiresIn (Some s) now = Ok (Some text) /\
     formatExpiration Date_parse (Some text) now = counted n "hour" /\
     forall later, now < later <= now + msPerHour ->
                   formatExpiration Date_parse (Some text) later = counted (n - 1) "hour") /\
  (u = 100%N -> 1 <= n <= 29 ->
   Date_parse (iso_text (now + n * msPerDay)) = Some (now + n * msPerDay) ->
   exists text,
     parseExpiresIn (Some s) now = Ok (Some text) /\
     formatExpiration Date_parse (Some text) now = counted n "day" /\
     (2 <= n ->
      forall later, now < later <= now + msPerDay ->
                    formatExpiration Date_parse (Some text) later = counted (n - 1) "day")).
Proof.
  intros Hnow Htok n. split; intros -> Hn Hparse.
  - destruct (parseExpiresIn_exact_units s amountStr 104%N now Hnow Htok) as [Hh _];
      [fold n; change (limits 104) with 8760; lia|].
    exists (iso_text (now + n * msPerHour)). split; [apply Hh; reflexivity|].
    pose proof (fun later =>
                  formatExpiration_by_distance Date_parse _ _ later
                    (iso_text_truthy (now + n * msPerHour)) Hparse) as Hph.
    cbv zeta in Hph. split.
    + destruct (Hph now) as (_ & H & _). destruct H as [-> _];
        [unfold msPerDay, msPerHour; lia|].
      f_equal. replace (now + n * msPerHour - now) with (n * msPerHour) by lia.
      apply Z.div_mul. discriminate.
    + intros later Hlater. destruct (Hph later) as (_ & H & _). destruct H as [-> _];
        [unfold msPerDay, msPerHour in *; lia|].
      f_equal. unfold msPerHour in *.
      symmetry. apply (Z.div_unique _ _ _ (now + 3600000 - later)); lia.
  - destruct (parseExpiresIn_exact_units s amountStr 100%N now Hnow Htok) as [_ Hd];
      [fold n; change (limits 100) with 365; lia|].
    exists (iso_text (now + n * msPerDay)). split; [apply Hd; reflexivity|].
    pose proof (fun later =>
                  formatExpiration_by_distance Date_parse _ _ later
                    (iso_text_truthy (now + n * msPerDay)) Hparse) as Hph.
    cbv zeta in Hph. split.
    + destruct (Hph now) as (_ & _ & H & _). destruct H as [-> _];
        [unfold msPerDay; lia|].
      f_equal. replace (now + n * msPerDay - now) with (n * msPerDay) by lia.
      apply Z.div_mul. discriminate.
    + intros Hn2 later Hlater. destruct (Hph later) as (_ & _ & H & _).
      destruct H as [-> _]; [unfold msPerDay in *; lia|].
      f_equal. unfold msPerDay in *.
      symmetry. apply (Z.div_unique _ _ _ (now + 86400000 - later)); lia.
Qed.

Lemma formatExpiration_reads_back_parseExpiresIn_witness :
  let Date_parse := fun _ : jsstring => Some (1769817600000 + 7 * msPerDay) in
  exists text,
    parseExpiresIn (Some (js "7d")) 1769817600000 = Ok (Some text) /\
    formatExpiration Date_parse (Some text) 1769817600000 = js "7 days" /\
    formatExpiration Date_parse (Some text) 1769817600001 = js "6 days".
Proof.
  intros Date_parse.
  assert (duration_token (js "7d") (js "7") 100%N) as Htok.
  { split; [reflexivity|]. split; [discriminate|]. split; [|reflexivity].
    repeat constructor. }
  assert (plausible_now 1769817600000) as Hnow by (unfold plausible_now; lia).
  destruct (formatExpiration_reads_back_parseExpiresIn Date_parse (js "7d") (js "7")
              100%N 1769817600000 Hnow Htok) as [_ Hdays].
  destruct (Hdays eq_refl) as (text & Hparse & Hsame & Hlater).
  - change (parseInt (js "7")) with 7. lia.
  - reflexivity.
  - exists text. split; [exact Hparse|]. split; [exact Hsame|].
    apply Hlater; [change (parseInt (js "7")) with 7; lia|unfold msPerDay; lia].
Defined.

Lemma parseExpiresIn_accepts s amountStr u now :
  plausible_now now ->
  duration_token s amountStr u ->
  0 < parseInt amountStr <= limits u ->
  exists t, parseExpiresIn (Some s) now = Ok (Some (iso_text t)) /\ now < t.
Proof.
  intros Hnow Htok [Hpos Hmax].
  destruct (duration_token_not_never _ _ _ Htok) as [Hs Hnever].
  rewrite (parseExpiresIn_unfold s now Hs Hnever).
  apply match_expiration_Some in Htok. rewrite Htok. cbv zeta.
  assert ((parseInt amountStr <=? 0) = false) as -> by (apply Z.leb_gt; lia).
  assert ((limits u <? parseInt amountStr) = false) as -> by (apply Z.ltb_ge; lia).
  unfold limits in Hmax.
  destruct (u =? 104)%N.
  { rewrite setHours_plus_exact by (assumption || lia).
    eexists. split; [reflexivity|]. unfold msPerHour. lia. }
  destruct (u =? 100)%N.
  { rewrite setDate_plus_exact by (assumption || lia).
    eexists. split; [reflexivity|]. unfold msPerDay. lia. }
  destruct (u =? 109)%N.
  { destruct (setMonth_plus_bounds now (parseInt amountStr) Hnow) as [-> Hb]; [lia|].
    eexists. split; [reflexivity|]. unfold msPerDay in Hb. lia. }
  destruct (setFullYear_plus_bounds now (parseInt amountStr) Hnow) as [-> Hb]; [lia|].
  eexists. split; [reflexivity|]. unfold msPerDay in Hb. lia.
Qed.

(** X18: every shortcut the module advertises is of the accepted form and,
    at any instant, is accepted by [parseExpiresIn]: [never] yields no
    expiry, each of the others a timestamp after now. *)
Theorem every_shortcut_is_accepted s now :
  In s VALID_EXPIRATION_SHORTCUTS ->
  plausible_now now ->
  isValidExpirationFormat s = true /\
  ((s = js "never" /\ parseExpiresIn (Some s) now = Ok None) \/
   exists t, parseExpiresIn (Some s) now = Ok (Some (iso_text t)) /\ now < t).
Proof.
  intros Hin Hnow.
  assert (forall ds u, isValidExpirationFormat (js ds ++ [u]) = true ->
                       duration_token (js ds ++ [u]) (js ds) u ->
                       0 < parseInt (js ds) <= limits u ->
                       isValidExpirationFormat (js ds ++ [u]) = true /\
                       ((js ds ++ [u] = js "never"
                         /\ parseExpiresIn (Some (js ds ++ [u])) now = Ok None) \/
                        exists t, parseExpiresIn (Some (js ds ++ [u])) now
                                  = Ok (Some (iso_text t)) /\ now < t)) as Hcase.
  { intros ds u Hvalid Htok Hamount. split; [exact Hvalid|]. right.
    exact (parseExpiresIn_accepts _ _ _ now Hnow Htok Hamount). }
  assert (forall ds u, js ds <> [] ->
                       List.Forall (fun c => is_digit c = true) (js ds) ->
                       is_unit u = true -> duration_token (js ds ++ [u]) (js ds) u) as Htok.
  { intros ds u Hne Hd Hu. split; [reflexivity|]. split; [exact Hne|split; assumption]. }
  cbn [VALID_EXPIRATION_SHORTCUTS List.map In] in Hin.
  destruct Hin as [<-|[<-|[<-|[<-|[<-|[<-|[<-|[]]]]]]]].
  - apply (Hcase "1" 104%N); [reflexivity|apply Htok|vm_compute; split];
      reflexivity || discriminate || (repeat constructor).
  - apply (Hcase "1" 100%N); [reflexivity|apply Htok|vm_compute; split];
      reflexivity || discriminate || (repeat constructor).
  - apply (Hcase "7" 100%N); [reflexivity|apply Htok|vm_compute; split];
      reflexivity || discriminate || (repeat constructor).
  - apply (Hcase "30" 100%N); [reflexivity|apply Htok|vm_compute; split];
      reflexivity || discriminate || (repeat constructor).
  - apply (Hcase "90" 100%N); [reflexivity|apply Htok|vm_compute; split];
      reflexivity || discriminate || (repeat constructor).
  - apply (Hcase "1" 121%N); [reflexivity|apply Htok|vm_compute; split];
      reflexivity || discriminate || (repeat constructor).
  - split; [reflexivity|]. left. split; reflexivity.
Qed.

Lemma every_shortcut_is_accepted_witness :
  In (js "90d") VALID_EXPIRATION_SHORTCUTS /\
  isValidExpirationFormat (js "90d") = true /\
  exists t, parseExpiresIn (Some (js "90d")) 1769817600000 = Ok (Some (iso_text t)) /\
            1769817600000 < t.
Proof.
  assert (In (js "90d") VALID_EXPIRATION_SHORTCUTS) as Hin by (vm_compute; tauto).
  split; [exact Hin|].
  destruct (every_shortcut_is_accepted (js "90d") 1769817600000 Hin) as [Hvalid Hparse];
    [unfold plausible_now; lia|].
  split; [exact Hvalid|].
  destruct Hparse as [[Hnever _]|Hparse]; [discriminate Hnever|exact Hparse].
Defined.

(** ** More on error classification *)

(** X19: what [categorizeError] makes of anything that is not yet classified:
    the result carries the correlation id it was given, has no details
    and no retry delay, and is retryable exactly when it was classified
    as a network error, a timeout or a rate limit. *)
Theorem unclassified_errors_are_classified rt error cid :
  (forall e, error <> TMcp e) ->
  let c := categorizeError rt error cid in
  correlationId c = cid /\
  details c = None /\
  retryAfter_of c = None /\
  In (code c) [NETWORK_ERROR; TIMEOUT_ERROR; RATE_LIMITED; CLOUDFLARE_API_ERROR;
               UNKNOWN_ERROR] /\
  (retryable c = true
   <-> code c = NETWORK_ERROR \/ code c = TIMEOUT_ERROR \/ code c = RATE_LIMITED).
Proof.
  intros Hnot c. subst c.
  assert (forall msg,
             let c := categorize_by_message rt msg cid in
             correlationId c = cid /\ details c = None /\ retryAfter_of c = None /\
             In (code c) [NETWORK_ERROR; TIMEOUT_ERROR; RATE_LIMITED; CLOUDFLARE_API_ERROR;
                          UNKNOWN_ERROR] /\
             (retryable c = true
              <-> code c = NETWORK_ERROR \/ code c = TIMEOUT_ERROR \/ code c = RATE_LIMITED))
    as Hmsg.
  { intros msg. unfold categorize_by_message. cbv zeta.
    repeat match goal with
           | |- context [if ?b then _ else _] => destruct b
           end;
      (split; [reflexivity|]; split; [reflexivity|]; split; [reflexivity|];
       split; [cbn; tauto|];
       cbn; split; [intros H; try discriminate H; tauto
                   |intros [H|[H|H]]; try discriminate H; reflexivity]). }
  destruct error as [e|[| | |] msg|name msg|s|];
    [destruct (Hnot e eq_refl)| | | | | | |]; cbn [categorizeError]; try apply Hmsg.
  - split; [reflexivity|]. split; [reflexivity|]. split; [reflexivity|].
    split; [cbn; tauto|]. cbn. split; [tauto|reflexivity].
  - destruct (jsstring_eqb name (js "AbortError")); [|apply Hmsg].
    split; [reflexivity|]. split; [reflexivity|]. split; [reflexivity|].
    split; [cbn; tauto|]. cbn. split; [tauto|reflexivity].
  - split; [reflexivity|]. split; [reflexivity|]. split; [reflexivity|].
    split; [cbn; tauto|]. cbn. split; [discriminate|intros [H|[H|H]]; discriminate H].
  - split; [reflexivity|]. split; [reflexivity|]. split; [reflexivity|].
    split; [cbn; tauto|]. cbn. split; [discriminate|intros [H|[H|H]]; discriminate H].
Qed.

Lemma unclassified_errors_are_classified_witness :
  let c := categorizeError ascii_runtime (TNative PlainError (js "Fetch failed: ECONNRESET"))
             (Some (js "req-7f3a")) in
  code c = NETWORK_ERROR /\ retryable c = true /\ correlationId c = Some (js "req-7f3a").
Proof.
  intros c.
  destruct (unclassified_errors_are_classified ascii_runtime
              (TNative PlainError (js "Fetch failed: ECONNRESET")) (Some (js "req-7f3a")))
    as (Hcid & _ & _ & _ & Hretry); [discriminate|].
  assert (code c = NETWORK_ERROR) as Hcode by (vm_compute; reflexivity).
  split; [exact Hcode|]. split; [|exact Hcid].
  apply Hretry. left. exact Hcode.
Defined.

Lemma unclassified_is_named rt error cid :
  (forall e, error <> TMcp e) ->
  correlationId (categorizeError rt error (Some cid)) = Some cid.
Proof.
  intros Hnot.
  destruct error as [e|[| | |] msg|name msg|s|];
    [destruct (Hnot e eq_refl)| | | | | | |]; cbn [categorizeError];
    unfold categorize_by_message; cbv zeta;
    repeat match goal with
           | |- context [if ?b then _ else _] => destruct b
           end; reflexivity.
Qed.

(** X20: classification is stable once it has named its request: what
    [categorizeError] returns when a correlation id is supplied carries
    a correlation id, and classifying it again, with any id or none,
    returns it unchanged. *)
Theorem categorizeError_is_stable rt error cid later :
  truthy cid = true ->
  let c := categorizeError rt error (Some cid) in
  truthy_opt (correlationId c) = true /\
  categorizeError rt (TMcp c) later = c.
Proof.
  intros Hcid c.
  assert (truthy_opt (correlationId c) = true) as Hhas.
  { subst c. destruct error as [e|k msg|name msg|s|].
    - cbn [categorizeError truthy_opt]. rewrite Hcid. cbn [andb].
      destruct (truthy_opt (correlationId e)) eqn:He; cbn [negb];
        [exact He|exact Hcid].
    - rewrite (unclassified_is_named rt (TNative k msg) cid) by discriminate.
      exact Hcid.
    - rewrite (unclassified_is_named rt (TDOMException name msg) cid) by discriminate.
      exact Hcid.
    - exact Hcid.
    - exact Hcid. }
  split; [exact Hhas|].
  cbn [categorizeError]. rewrite Hhas. cbn [negb]. rewrite andb_false_r. reflexivity.
Qed.

Lemma categorizeError_is_stable_witness :
  let c := categorizeError ascii_runtime (TString (js "boom")) (Some (js "req-7f3a")) in
  correlationId c = Some (js "req-7f3a") /\
  categorizeError ascii_runtime (TMcp c) (Some (js "req-9c01")) = c.
Proof.
  intros c. split; [reflexivity|].
  exact (proj2 (categorizeError_is_stable ascii_runtime (TString (js "boom"))
                  (js "req-7f3a") (Some (js "req-9c01")) eq_refl)).
Defined.

(** ** The fixed window of the fallback *)

Lemma occurrences_app r l1 l2 :
  occurrences r (l1 ++ l2) = occurrences r l1 + occurrences r l2.
Proof. unfold occurrences. rewrite List.filter_app, length_app. lia. Qed.

Lemma occurrences_absent r l : (forall x, In x l -> x < r) -> occurrences r l = 0.
Proof.
  intros H. unfold occurrences.
  induction l as [|x l IH]; [reflexivity|]. cbn [List.filter].
  assert ((r =? x) = false) as ->
    by (apply Z.eqb_neq; specialize (H x (or_introl eq_refl)); lia).
  apply IH. intros y Hy. apply H. right. exact Hy.
Qed.

Lemma occurrences_one r x : occurrences r [x] = if r =? x then 1 else 0.
Proof. unfold occurrences. cbn [List.filter]. destruct (r =? x); reflexivity. Qed.

(** The counter of the fallback limiter counts the calls admitted in
    the window it names: [seen] is the windows of the calls admitted so
    far. *)
Lemma memory_run_bounded env operation clientId :
  RATE_LIMIT_KV env = None ->
  forall times w seen,
    (forall r, occurrences r seen <= requests (rate_config operation)) ->
    match rateLimitMap w !! memory_key operation clientId with
    | Some e =>
        mem_count e = occurrences (mem_resetAt e) seen /\
        forall r, In r seen -> r <= mem_resetAt e
    | None => seen = []
    end ->
    forall r,
      occurrences r
        (seen ++ admitted_windows (fst (run_limiter env operation clientId times w)))
      <= requests (rate_config operation).
Proof.
  intros Hkv. induction times as [|now times IH]; intros w seen Hsafe Hstate r.
  - cbn [run_limiter fst admitted_windows]. rewrite app_nil_r. apply Hsafe.
  - rewrite run_limiter_cons. cbn zeta. cbn [fst snd].
    destruct (rate_config_positive operation) as [HR HW].
    rewrite (checkRateLimit_memory_unfold env Hkv). cbn zeta.
    assert (forall seen0,
               (forall r0, occurrences r0 seen0 <= requests (rate_config operation)) ->
               (forall r0, In r0 seen0 ->
                           r0 < now + windowSeconds (rate_config operation) * 1000) ->
               forall w0,
                 rateLimitMap w0 !! memory_key operation clientId
                 = Some {| mem_count := 1;
                           mem_resetAt :=
                             now + windowSeconds (rate_config operation) * 1000 |} ->
                 occurrences r
                   (seen0 ++ (now + windowSeconds (rate_config operation) * 1000)
                           :: admitted_windows
                                (fst (run_limiter env operation clientId times w0)))
                 <= requests (rate_config operation)) as Hopen.
    { intros seen0 Hsafe0 Hold w0 Hw0.
      change (?x :: ?l) with ([x] ++ l). rewrite app_assoc. apply IH.
      - intros r0. rewrite occurrences_app, occurrences_one.
        destruct (r0 =? now + windowSeconds (rate_config operation) * 1000) eqn:Hr0.
        + apply Z.eqb_eq in Hr0. subst r0. rewrite (occurrences_absent _ _ Hold). lia.
        + specialize (Hsafe0 r0). lia.
      - rewrite Hw0. cbn [mem_count mem_resetAt]. split.
        + rewrite occurrences_app, occurrences_one, Z.eqb_refl.
          rewrite (occurrences_absent _ _ Hold). reflexivity.
        + intros r0 Hr0. apply in_app_or in Hr0 as [Hr0|[<-|[]]];
            [specialize (Hold r0 Hr0)|]; lia. }
    destruct (rateLimitMap w !! memory_key operation clientId) as [e|] eqn:He.
    + destruct Hstate as [Hcount Hmax].
      destruct (mem_resetAt e <? now) eqn:Hexp;
        cbn [fst snd admitted_windows allowed resetAt].
      * apply Z.ltb_lt in Hexp. apply Hopen; [exact Hsafe| |cbn; apply lookup_insert_eq].
        intros r0 Hr0. specialize (Hmax r0 Hr0). lia.
      * destruct (requests (rate_config operation) <=? mem_count e) eqn:Hfull;
          cbn [fst snd admitted_windows allowed resetAt].
        -- apply IH; [exact Hsafe|]. cbn [emit rateLimitMap]. rewrite He.
           split; assumption.
        -- apply Z.leb_gt in Hfull.
           change (?x :: ?l) with ([x] ++ l). rewrite app_assoc. apply IH.
           ++ intros r0. rewrite occurrences_app, occurrences_one.
              destruct (r0 =? mem_resetAt e) eqn:Hr0.
              ** apply Z.eqb_eq in Hr0. subst r0. lia.
              ** specialize (Hsafe r0). lia.
           ++ cbn [rateLimitMap]. rewrite lookup_insert_eq. cbn [mem_count mem_resetAt].
              split.
              ** rewrite occurrences_app, occurrences_one, Z.eqb_refl. lia.
              ** intros r0 Hr0. apply in_app_or in Hr0 as [Hr0|[<-|[]]];
                   [exact (Hmax r0 Hr0)|lia].
    + subst seen. cbn [fst snd admitted_windows allowed resetAt].
      apply Hopen; [exact Hsafe|intros r0 []|cbn; apply lookup_insert_eq].
Qed.

(** X6: without a store the limiter keeps its promise window by window:
    under an operation name that is no inherited property name, in a run
    of calls from a fresh identity, the calls admitted with one and the
    same [resetAt] are never more than [requests], whatever the order of
    the instants. *)
Theorem memory_limiter_bounds_each_window env operation clientId times w r :
  plain_operation operation = true ->
  RATE_LIMIT_KV env = None ->
  fresh_identity operation clientId w ->
  occurrences r (admitted_windows (fst (run_limiter env operation clientId times w)))
  <= requests (rate_config operation).
Proof.
  intros _ Hkv [_ Hfresh].
  apply (memory_run_bounded env operation clientId Hkv times w []).
  - intros r0. destruct (rate_config_positive operation) as [HR _].
    unfold occurrences. cbn [List.filter length Z.of_nat]. lia.
  - rewrite Hfresh. reflexivity.
Qed.

Lemma memory_limiter_bounds_each_window_witness :
  let times := [0; 1000; 2000; 3000; 4000; 5000; 6000; 7000; 8000; 9000; 10000; 11000;
                59000; 60000; 60001; 62000] in
  admitted_windows
    (fst (run_limiter env_without_kv (js "token-ops") (js "203.0.113.7") times empty_world))
  = repeat 60000 10 ++ [120001; 120001] /\
  occurrences 60000
    (admitted_windows
       (fst (run_limiter env_without_kv (js "token-ops") (js "203.0.113.7") times
               empty_world)))
  <= 10.
Proof.
  split; [vm_compute; reflexivity|].
  apply (memory_limiter_bounds_each_window env_without_kv (js "token-ops")
           (js "203.0.113.7") _ empty_world 60000).
  - vm_compute; reflexivity.
  - reflexivity.
  - apply empty_world_fresh.
Defined.

(** ** Catalogues *)

Lemma find_by_key {A : Type} (key : A -> jsstring) (l : list A) :
  NoDup (List.map key l) ->
  forall x, In x l -> List.find (fun y => jsstring_eqb (key y) (key x)) l = Some x.
Proof.
  induction l as [|y l IH]; intros Hnd x Hx; [destruct Hx|].
  cbn [List.map] in Hnd. apply NoDup_cons in Hnd as [Hy Hnd]. cbn [List.find].
  destruct Hx as [->|Hx].
  - unfold jsstring_eqb. rewrite bool_decide_eq_true_2 by reflexivity. reflexivity.
  - unfold jsstring_eqb. rewrite bool_decide_eq_false_2; [apply IH; assumption|].
    intros Heq. apply Hy. rewrite Heq. apply list_elem_of_In, in_map, Hx.
Qed.

Lemma find_key_Some {A : Type} (key : A -> jsstring) (l : list A) k x :
  List.find (fun y => jsstring_eqb (key y) k) l = Some x -> In x l /\ key x = k.
Proof.
  intros H. apply List.find_some in H as [Hin Hk]. split; [exact Hin|].
  apply bool_decide_eq_true in Hk. exact Hk.
Qed.

Lemma find_key_None {A : Type} (key : A -> jsstring) (l : list A) k :
  List.find (fun y => jsstring_eqb (key y) k) l = None <-> ~ In k (List.map key l).
Proof.
  split.
  - intros H Hin. apply in_map_iff in Hin as (x & Hk & Hx).
    pose proof (List.find_none _ _ H x Hx) as Hno. cbn beta in Hno.
    unfold jsstring_eqb in Hno. rewrite bool_decide_eq_true_2 in Hno by exact Hk.
    discriminate Hno.
  - intros Hnot. destruct (List.find _ l) as [x|] eqn:Hfind; [|reflexivity].
    apply find_key_Some in Hfind as [Hin Hk]. exfalso. apply Hnot.
    rewrite <- Hk. apply in_map, Hin.
Qed.

Lemma template_ids_distinct : NoDup (List.map template_id TEMPLATES).
Proof. apply (bool_decide_unpack _). vm_compute. exact I. Qed.

(** X21: the templates are found by their ids and by nothing else:
    [getTemplate] returns each listed template for its id, returns only
    listed templates, and returns nothing exactly for the strings that
    are the id of none. *)
Theorem getTemplate_finds_the_listed_templates id :
  (forall t, In t listTemplates -> getTemplate (template_id t) = Some t) /\
  (forall t, getTemplate id = Some t -> In t listTemplates /\ template_id t = id) /\
  (getTemplate id = None <-> ~ In id (List.map template_id listTemplates)).
Proof.
  unfold getTemplate, listTemplates. split; [|split].
  - intros t Ht. apply (find_by_key template_id); [exact template_ids_distinct|exact Ht].
  - intros t. apply find_key_Some.
  - apply find_key_None.
Qed.

Lemma tool_names_distinct : NoDup (List.map tool_name TOOLS).
Proof. apply (bool_decide_unpack _). vm_compute. exact I. Qed.

(** X22: the catalogue of tools is coherent: each advertised tool is found by
    its name and has its [case] in the dispatch of [executeTool], each
    [case] is an advertised tool, each rate-limited name is a tool, and
    each required argument of a tool is one of its declared properties. *)
Theorem tool_catalogue_is_coherent :
  (forall t, In t TOOLS -> find_tool (tool_name t) = Some t) /\
  List.map tool_name TOOLS = TOOL_CASES /\
  (forall toolName, In toolName RATE_LIMITED_TOOLS -> is_Some (find_tool toolName)) /\
  (forall t key,
     In t TOOLS -> In key (default [] (required (inputSchema t))) ->
     In key (List.map fst (properties (inputSchema t)))).
Proof.
  split; [|split; [|split]].
  - intros t Ht. unfold find_tool.
    apply (find_by_key tool_name); [exact tool_names_distinct|exact Ht].
  - vm_compute. reflexivity.
  - intros toolName Hin. cbn in Hin.
    destruct Hin as [<-|[<-|[<-|[]]]]; vm_compute; eexists; reflexivity.
  - intros t key Ht.
    assert (forallb
              (fun t => forallb
                          (fun key => includes_name
                                        (List.map fst (properties (inputSchema t))) key)
                          (default [] (required (inputSchema t)))) TOOLS = true) as Hall
      by (vm_compute; reflexivity).
    rewrite forallb_forall in Hall. specialize (Hall t Ht).
    rewrite forallb_forall in Hall. intros Hkey. apply includes_name_In, Hall, Hkey.
Qed.

(** ** The provider client *)

Lemma resolve_permission_In rt groups perm g :
  resolve_permission rt groups perm = Some g -> In g groups.
Proof.
  unfold resolve_permission, find_exact. cbv zeta.
  assert (forall ps g', find_by_patterns rt groups ps = Some g' -> In g' groups) as Hpat.
  { induction ps as [|p ps IH]; intros g' H; [discriminate H|].
    cbn [find_by_patterns] in H. unfold find_including in H.
    destruct (List.find _ groups) as [g0|] eqn:Hf.
    - injection H as <-. apply List.find_some in Hf. tauto.
    - apply IH, H. }
  destruct (List.find _ groups) as [g0|] eqn:Hexact.
  - intros [= <-]. apply List.find_some in Hexact. tauto.
  - destruct (perm_patterns perm) as [ps|].
    + destruct (find_by_patterns rt groups ps) as [g0|] eqn:Hps.
      * intros [= <-]. exact (Hpat _ _ Hps).
      * intros H. apply List.find_some in H. tauto.
    + intros H. apply List.find_some in H. tauto.
Qed.

(** X23: [resolvePermissionGroups] resolves every permission or none. When
    it returns, the answer has one entry per permission, in order, each
    the id and name of a group of the list, the first group of exactly
    that name (case aside) when there is one. When it throws, the error
    names the first permission for which no group is found. *)
Theorem resolvePermissionGroups_resolves_all_or_throws rt groups permissions :
  (forall resolved,
     resolvePermissionGroups rt groups permissions = Ok resolved ->
     Forall2
       (fun perm entry =>
          exists g, In g groups /\ entry = (group_id g, group_name g) /\
                    resolve_permission rt groups perm = Some g /\
                    forall exact,
                      find_exact rt groups (toLowerCase rt (perm_name perm)) = Some exact ->
                      g = exact)
       permissions resolved) /\
  (forall e,
     resolvePermissionGroups rt groups permissions = Throw e ->
     exists before perm after,
       permissions = before ++ perm :: after /\
       List.Forall (fun p => is_Some (resolve_permission rt groups p)) before /\
       resolve_permission rt groups perm = None /\
       e = TNative PlainError (js "Required permission not found: " ++ perm_name perm)).
Proof.
  induction permissions as [|perm rest [IHok IHthrow]]; cbn [resolvePermissionGroups].
  - split; [intros resolved [= <-]; constructor|discriminate].
  - destruct (resolve_permission rt groups perm) as [g|] eqn:Hres.
    + destruct (resolvePermissionGroups rt groups rest) as [resolved'|e'] eqn:Hrest.
      * split; [|discriminate]. intros resolved [= <-].
        constructor; [|apply IHok; reflexivity].
        exists g. split; [exact (resolve_permission_In _ _ _ _ Hres)|].
        split; [reflexivity|]. split; [exact Hres|].
        intros exact Hexact. revert Hres. unfold resolve_permission. cbv zeta.
        rewrite Hexact. destruct (perm_patterns perm); intros [= <-]; reflexivity.
      * split; [discriminate|]. intros e [= <-].
        destruct (IHthrow e' eq_refl) as (before & p & after & -> & Hbefore & Hp & ->).
        exists (perm :: before), p, after. split; [reflexivity|].
        split; [constructor; [rewrite Hres; eexists; reflexivity|exact Hbefore]|].
        split; [exact Hp|reflexivity].
    + split; [discriminate|]. intros e [= <-].
      exists [], perm, rest. split; [reflexivity|]. split; [constructor|].
      split; [exact Hres|reflexivity].
Qed.

Lemma resolvePermissionGroups_resolves_all_or_throws_witness :
  let groups :=
    [ {| group_id := js "c1fde68c7bcc44588cbb6ddbc16d6480"; group_name := js "DNS Write";
         group_description := None; group_scopes := [] |};
      {| group_id := js "e6d2666161e84845a636613608cee8d5";
         group_name := js "Cache Purge"; group_description := None; group_scopes := [] |} ] in
  resolvePermissionGroups ascii_runtime groups [permission "dns write" ["DNS:Edit"]]
  = Ok [(js "c1fde68c7bcc44588cbb6ddbc16d6480", js "DNS Write")] /\
  resolvePermissionGroups ascii_runtime groups
    [permission "Cache Purge" []; permission "WAF Write" ["WAF:Edit"]]
  = Throw (TNative PlainError (js "Required permission not found: WAF Write")).
Proof.
  intros groups. split.
  - destruct (resolvePermissionGroups ascii_runtime groups
                [permission "dns write" ["DNS:Edit"]]) as [resolved|e] eqn:Hres;
      [|vm_compute in Hres; discriminate Hres].
    pose proof (proj1 (resolvePermissionGroups_resolves_all_or_throws ascii_runtime groups
                         [permission "dns write" ["DNS:Edit"]]) resolved Hres) as Hall.
    inversion Hall as [|perm entry ps es (g & Hin & -> & Hg & _) Hrest]; subst.
    inversion Hrest; subst.
    vm_compute in Hg. injection Hg as <-. reflexivity.
  - vm_compute. reflexivity.
Defined.

(** X24: the cache of permission groups serves, and only serves, what is
    fresh: a call answered from the cache sends no request, changes
    nothing and happens before the entry expires; a call that sent a
    request and got groups is followed, for five minutes, by calls that
    return those groups without a request; a failed request leaves the
    cache as it was. *)
Theorem permission_cache_serves_five_minutes fetched now st :
  let p := listPermissionGroups fetched now st in
  (requested (snd p) = requested st ->
   snd p = st /\
   exists data expiresAt,
     permissionGroupsCache st = Some (data, expiresAt) /\ now < expiresAt /\
     fst p = Ok data) /\
  (requested (snd p) <> requested st ->
   requested (snd p) = requested st ++ [js "/user/tokens/permission_groups"] /\
   fst p = fetched /\
   match fetched with
   | Ok groups =>
       forall fetched' later,
         now <= later < now + 5 * 60 * 1000 ->
         listPermissionGroups fetched' later (snd p) = (Ok groups, snd p)
   | Throw _ => permissionGroupsCache (snd p) = permissionGroupsCache st
   end).
Proof.
  intros p. subst p. unfold listPermissionGroups. cbv zeta.
  assert (requested st ++ [js "/user/tokens/permission_groups"] <> requested st) as Hgrows.
  { intros H. apply (f_equal length) in H. rewrite length_app in H. cbn in H. lia. }
  assert (forall groups fetched' later,
             now <= later < now + 5 * 60 * 1000 ->
             listPermissionGroups fetched' later
               {| permissionGroupsCache := Some (groups, now + PERMISSION_CACHE_TTL_MS);
                  requested := requested st ++ [js "/user/tokens/permission_groups"] |}
             = (Ok groups,
                {| permissionGroupsCache := Some (groups, now + PERMISSION_CACHE_TTL_MS);
                   requested := requested st ++ [js "/user/tokens/permission_groups"] |}))
    as Hserved.
  { intros groups fetched' later Hlater. unfold listPermissionGroups.
    cbn [permissionGroupsCache]. unfold PERMISSION_CACHE_TTL_MS.
    assert ((later <? now + 5 * 60 * 1000) = true) as -> by (apply Z.ltb_lt; lia).
    reflexivity. }
  destruct (permissionGroupsCache st) as [[data expiresAt]|] eqn:Hcache.
  - destruct (now <? expiresAt) eqn:Hfresh.
    + split; [|intros H; destruct (H eq_refl)].
      intros _. split; [reflexivity|]. exists data, expiresAt.
      split; [reflexivity|]. split; [apply Z.ltb_lt, Hfresh|reflexivity].
    + destruct fetched as [groups|e]; cbn [fst snd requested permissionGroupsCache];
        (split; [intros H; destruct (Hgrows H)|]); intros _;
        (split; [reflexivity|]); (split; [reflexivity|]);
        [exact (Hserved groups)|reflexivity].
  - destruct fetched as [groups|e]; cbn [fst snd requested permissionGroupsCache];
      (split; [intros H; destruct (Hgrows H)|]); intros _;
      (split; [reflexivity|]); (split; [reflexivity|]);
      [exact (Hserved groups)|reflexivity].
Qed.

Lemma permission_cache_serves_five_minutes_witness :
  let groups :=
    [ {| group_id := js "c1fde68c7bcc44588cbb6ddbc16d6480"; group_name := js "DNS Write";
         group_description := None; group_scopes := [] |} ] in
  let st := {| permissionGroupsCache := None; requested := [] |} in
  let st' := snd (listPermissionGroups (Ok groups) 1000 st) in
  listPermissionGroups (Throw TOther) 300999 st' = (Ok groups, st') /\
  fst (listPermissionGroups (Throw TOther) 301000 st') = Throw TOther.
Proof.
  intros groups st st'. split; [|reflexivity].
  destruct (permission_cache_serves_five_minutes (Ok groups) 1000 st) as [_ Hsent].
  destruct Hsent as (_ & _ & Hserved); [discriminate|].
  apply Hserved. lia.
Defined.

(** X25: the resources of the policy a token gets. From a template of the
    catalogue there is exactly one: every zone for a zone template; for
    an account template the account of an account token that names one,
    and every account otherwise. A custom policy names a resource unless
    its scope is [specific_account] and no account is given: then it
    names none. *)
Theorem policy_resources_by_scope (accountId : option jsstring) :
  (forall t type,
     In t TEMPLATES ->
     (template_scope t = all_accounts /\
      template_resources (template_scope t) type accountId
      = {[ (if jsstring_eqb type (js "account") && truthy_opt accountId
            then js "com.cloudflare.api.account." ++ default [] accountId
            else js "com.cloudflare.api.account.*") := js "*" ]}) \/
     (template_scope t = all_zones /\
      template_resources (template_scope t) type accountId
      = {[ js "com.cloudflare.api.account.zone.*" := js "*" ]})) /\
  (forall resourceScope,
     In resourceScope
       [None; Some (js "all_accounts"); Some (js "specific_account"); Some (js "all_zones")] ->
     (custom_resources resourceScope accountId = ∅
      <-> resourceScope = Some (js "specific_account") /\ truthy_opt accountId = false)).
Proof.
  split.
  - intros t type Ht.
    assert (forallb (fun t => match template_scope t with
                              | all_accounts | all_zones => true
                              | _ => false
                              end) TEMPLATES = true) as Hscopes by (vm_compute; reflexivity).
    rewrite forallb_forall in Hscopes. specialize (Hscopes t Ht).
    destruct (template_scope t); try discriminate Hscopes.
    + left. split; [reflexivity|]. unfold template_resources.
      destruct (jsstring_eqb type (js "account") && truthy_opt accountId); reflexivity.
    + right. split; [reflexivity|]. unfold template_resources.
      apply insert_empty.
  - intros resourceScope Hin. cbn [In] in Hin.
    assert (forall (k v : jsstring), ({[ k := v ]} : gmap jsstring jsstring) <> ∅) as Hne
      by (intros k v; apply insert_non_empty).
    destruct Hin as [<-|[<-|[<-|[<-|[]]]]]; unfold custom_resources; cbn [or_literal].
    + change (or_literal None (js "all_accounts")) with (js "all_accounts").
      split; [intros H; destruct (Hne _ _ H)|intros [H _]; discriminate H].
    + change (or_literal (Some (js "all_accounts")) (js "all_accounts"))
        with (js "all_accounts").
      split; [intros H; destruct (Hne _ _ H)|intros [H _]; discriminate H].
    + change (or_literal (Some (js "specific_account")) (js "all_accounts"))
        with (js "specific_account").
      change (jsstring_eqb (js "specific_account") (js "all_accounts")) with false.
      change (jsstring_eqb (js "specific_account") (js "specific_account")) with true.
      change (jsstring_eqb (js "specific_account") (js "all_zones")) with false.
      cbn [andb]. destruct (truthy_opt accountId).
      * split; [intros H; destruct (Hne _ _ H)|intros [_ H]; discriminate H].
      * split; [intros _; split; reflexivity|reflexivity].
    + change (or_literal (Some (js "all_zones")) (js "all_accounts")) with (js "all_zones").
      change (jsstring_eqb (js "all_zones") (js "all_accounts")) with false.
      change (jsstring_eqb (js "all_zones") (js "specific_account")) with false.
      change (jsstring_eqb (js "all_zones") (js "all_zones")) with true.
      cbn [andb].
      split; [intros H; destruct (insert_non_empty _ _ _ H)|intros [H _]; discriminate H].
Qed.

Lemma policy_resources_by_scope_witness :
  template_resources all_accounts (js "account") (Some (js "023e105f4ecef8ad9ca31a8372d0c353"))
  = {[ js "com.cloudflare.api.account.023e105f4ecef8ad9ca31a8372d0c353" := js "*" ]} /\
  custom_resources (Some (js "specific_account")) None = ∅.
Proof.
  destruct (policy_resources_by_scope (Some (js "023e105f4ecef8ad9ca31a8372d0c353")))
    as [Htemplates _].
  destruct (policy_resources_by_scope None) as [_ Hcustom].
  split.
  - destruct (Htemplates (template "api_tokens_manage" "API Tokens Manage"
                            "Create and manage API tokens (bootstrap token)" all_accounts
                            [permission "API Tokens Write" ["API Tokens:Edit"]])
                (js "account")) as [[_ H]|[H _]];
      [vm_compute; tauto|exact H|discriminate H].
  - apply (Hcustom (Some (js "specific_account"))); [cbn; tauto|split; reflexivity].
Defined.

(** ** The account allow-list *)

Lemma split_on_no_sep sep word s :
  ~ In sep s -> split_on sep word s = [word ++ s].
Proof.
  revert word. induction s as [|u s IH]; intros word Hno; cbn [split_on].
  - rewrite app_nil_r. reflexivity.
  - destruct (u =? sep)%N eqn:Hu.
    + apply N.eqb_eq in Hu. exfalso. apply Hno. left. exact Hu.
    + rewrite IH by (intros H; apply Hno; right; exact H).
      rewrite <- app_assoc. reflexivity.
Qed.

Lemma split_on_app sep word a rest :
  ~ In sep a ->
  split_on sep word (a ++ sep :: rest) = (word ++ a) :: split_on sep [] rest.
Proof.
  revert word. induction a as [|u a IH]; intros word Hno; cbn [split_on app].
  - rewrite N.eqb_refl, app_nil_r. reflexivity.
  - destruct (u =? sep)%N eqn:Hu.
    + apply N.eqb_eq in Hu. exfalso. apply Hno. left. exact Hu.
    + rewrite IH by (intros H; apply Hno; right; exact H).
      rewrite <- app_assoc. reflexivity.
Qed.

Lemma trim_after_space w : trim (32%N :: w) = trim w.
Proof. reflexivity. Qed.

Lemma allowed_accounts_spaced ids :
  ids <> [] ->
  List.Forall (fun id => ~ In 44%N id /\ trim id = id) ids ->
  forall w, w = [] \/ w = [32%N] ->
            List.map trim (split_on 44 w (join (js ", ") ids)) = ids.
Proof.
  induction ids as [|id ids IH]; intros Hne Hall w Hw; [contradiction|].
  inversion Hall as [|? ? [Hcomma Htrim] Hrest]; subst.
  assert (trim (w ++ id) = id) as Hfirst
    by (destruct Hw as [-> | ->]; [exact Htrim|rewrite <- Htrim at 2; reflexivity]).
  destruct ids as [|id' ids].
  - cbn [join]. rewrite split_on_no_sep by exact Hcomma.
    cbn [List.map]. rewrite Hfirst. reflexivity.
  - change (join (js ", ") (id :: id' :: ids))
      with (id ++ 44%N :: 32%N :: join (js ", ") (id' :: ids)).
    rewrite split_on_app by exact Hcomma. cbn [List.map]. rewrite Hfirst. f_equal.
    change (split_on 44 [] (32%N :: join (js ", ") (id' :: ids)))
      with (split_on 44 [32%N] (join (js ", ") (id' :: ids))).
    apply IH; [discriminate|exact Hrest|right; reflexivity].
Qed.

Lemma allowed_accounts_unspaced ids :
  ids <> [] ->
  List.Forall (fun id => ~ In 44%N id /\ trim id = id) ids ->
  List.map trim (split_on 44 [] (join (js ",") ids)) = ids.
Proof.
  induction ids as [|id ids IH]; intros Hne Hall; [contradiction|].
  inversion Hall as [|? ? [Hcomma Htrim] Hrest]; subst.
  destruct ids as [|id' ids].
  - cbn [join]. rewrite split_on_no_sep by exact Hcomma.
    cbn [List.map app]. rewrite Htrim. reflexivity.
  - change (join (js ",") (id :: id' :: ids))
      with (id ++ 44%N :: join (js ",") (id' :: ids)).
    rewrite split_on_app by exact Hcomma. cbn [List.map app]. rewrite Htrim. f_equal.
    apply IH; [discriminate|exact Hrest].
Qed.

Lemma allowed_includes_In allowed v :
  allowed_includes allowed v = true <-> exists s, v = JStr s /\ In s allowed.
Proof.
  destruct v as [| | |s| |]; cbn [allowed_includes];
    try (split; [discriminate|intros (s' & H & _); discriminate H]).
  rewrite includes_name_In. split.
  - intros H. exists s. split; [reflexivity|exact H].
  - intros (s' & [= <-] & H). exact H.
Qed.

(** Once the arguments are validated and the limiter has let the call
    through, the answer of [executeTool] is that of the tool. *)
Lemma executeTool_admitted rt message_of body toolName t args validated env clientIp amb w :
  find_tool toolName = Some t ->
  validateArgs rt message_of toolName args (inputSchema t) = Ok validated ->
  (includes_name RATE_LIMITED_TOOLS toolName && truthy_opt clientIp = true ->
   exists r,
     fst (checkRateLimit env (js "token-ops") (default [] clientIp) (at_limiter amb)
            (faults amb) w) = Ok r /\
     allowed r = true) ->
  fst (executeTool rt message_of body toolName args env clientIp amb w)
  = body toolName validated.
Proof.
  intros Hfind Hvalid Hadmitted.
  unfold executeTool. rewrite Hfind.
  unfold mbind, M_bind, tell, lift. cbn [fst snd]. rewrite Hvalid.
  destruct (includes_name RATE_LIMITED_TOOLS toolName && truthy_opt clientIp) eqn:Hlimited.
  - destruct (Hadmitted eq_refl) as (r & Hr & Hallowed).
    rewrite <- (checkRateLimit_after_emit _ _ _ _ _ (EvValidate toolName)) in Hr.
    destruct (checkRateLimit env (js "token-ops") (default [] clientIp) (at_limiter amb)
                (faults amb) (emit (EvValidate toolName) w)) as [res w1].
    cbn [fst snd] in *. subst res. cbv beta iota. rewrite Hallowed. reflexivity.
  - reflexivity.
Qed.

Lemma get_account_denied_spec env args :
  get_account_denied env args = true
  <-> exists setting,
        ALLOWED_ACCOUNT_IDS env = Some setting /\ truthy setting = true /\
        forall entry, In entry (allowed_accounts setting) ->
                      args !! js "accountId" <> Some (JStr entry).
Proof.
  unfold get_account_denied.
  destruct (ALLOWED_ACCOUNT_IDS env) as [setting|];
    [|split; [discriminate|intros (s & H & _); discriminate H]].
  rewrite andb_true_iff, negb_true_iff. split.
  - intros [Hs Hno]. exists setting. split; [reflexivity|]. split; [exact Hs|].
    intros entry Hentry Hnamed. rewrite Hnamed in Hno. cbn [allowed_includes] in Hno.
    apply includes_name_not_In in Hno. contradiction.
  - intros (s & [= <-] & Hs & Hno). split; [exact Hs|].
    destruct (args !! js "accountId") as [v|]; [|reflexivity].
    destruct (allowed_includes (allowed_accounts setting) v) eqn:Hin; [|reflexivity].
    apply allowed_includes_In in Hin as (e & -> & Hin). destruct (Hno e Hin eq_refl).
Qed.

Lemma access_denied_spec env args :
  access_denied env args = true
  <-> exists setting v,
        ALLOWED_ACCOUNT_IDS env = Some setting /\ truthy setting = true /\
        args !! js "accountId" = Some v /\ truthy_json v = true /\
        forall entry, In entry (allowed_accounts setting) -> v <> JStr entry.
Proof.
  unfold access_denied.
  destruct (ALLOWED_ACCOUNT_IDS env) as [setting|];
    [|split; [discriminate|intros (s & v & H & _); discriminate H]].
  destruct (args !! js "accountId") as [v|];
    [|split; [discriminate|intros (s & v & _ & _ & H & _); discriminate H]].
  rewrite !andb_true_iff, negb_true_iff. split.
  - intros [[Hs Hv] Hno]. exists setting, v. repeat split; try assumption.
    intros entry Hentry ->. cbn [allowed_includes] in Hno.
    apply includes_name_not_In in Hno. contradiction.
  - intros (s & v' & [= <-] & Hs & [= <-] & Hv & Hno). repeat split; try assumption.
    destruct (allowed_includes (allowed_accounts setting) v) eqn:Hin; [|reflexivity].
    apply allowed_includes_In in Hin as (e & -> & Hin). destruct (Hno e Hin eq_refl).
Qed.

(** X26: the allow-list is the setting read at its commas, each entry
    trimmed: ids written with a comma, or a comma and a space, between
    them are read back as written. A call that is validated and let
    through by the limiter is refused by [executeTool], before the
    provider is asked, exactly when the setting is not empty, the call
    names no entry, and either it names an account with a truthy value
    or the tool is [get_account], whose case checks whatever is named;
    otherwise the answer is the provider's. What [list_accounts] shows
    are the accounts that [get_account] does not refuse. *)
Theorem account_allow_list rt message_of provider env :
  (forall ids,
     ids <> [] ->
     List.Forall (fun id => ~ In 44%N id /\ trim id = id) ids ->
     allowed_accounts (join (js ", ") ids) = ids /\
     allowed_accounts (join (js ",") ids) = ids) /\
  (forall toolName t args props clientIp amb w,
     find_tool toolName = Some t ->
     validateArgs rt message_of toolName args (inputSchema t) = Ok (JObj props) ->
     (includes_name RATE_LIMITED_TOOLS toolName && truthy_opt clientIp = true ->
      exists r,
        fst (checkRateLimit env (js "token-ops") (default [] clientIp) (at_limiter amb)
               (faults amb) w) = Ok r /\
        allowed r = true) ->
     let answer :=
       fst (executeTool rt message_of (restricted env provider) toolName args env clientIp
              amb w) in
     let named := props !! js "accountId" in
     let refused :=
       exists setting,
         ALLOWED_ACCOUNT_IDS env = Some setting /\ truthy setting = true /\
         (toolName = js "get_account" \/ exists v, named = Some v /\ truthy_json v = true) /\
         forall entry, In entry (allowed_accounts setting) -> named <> Some (JStr entry) in
     (refused -> answer = Throw access_denied_error) /\
     (~ refused -> answer = provider toolName (JObj props))) /\
  (forall accounts a,
     In a (visible_accounts env accounts)
     <-> In a accounts /\
         get_account_denied env {[ js "accountId" := JStr (account_id a) ]} = false).
Proof.
  split; [|split].
  - intros ids Hne Hall. unfold allowed_accounts. split.
    + apply allowed_accounts_spaced; [exact Hne|exact Hall|left; reflexivity].
    + apply allowed_accounts_unspaced; assumption.
  - intros toolName t args props clientIp amb w Hfind Hvalid Hadmitted answer named refused.
    subst answer.
    rewrite (executeTool_admitted rt message_of _ _ _ _ _ _ _ _ _ Hfind Hvalid Hadmitted).
    unfold restricted.
    assert (refused
            <-> access_denied env props = true \/
                (jsstring_eqb toolName (js "get_account") = true /\
                 get_account_denied env props = true)) as Hrefused.
    { subst refused named. rewrite access_denied_spec, get_account_denied_spec.
      unfold jsstring_eqb. rewrite bool_decide_eq_true. split.
      - intros (setting & Hset & Hs & [Htool|(v & Hv & Htruthy)] & Hno).
        + right. split; [exact Htool|]. exists setting. repeat split; assumption.
        + left. exists setting, v. repeat split; try assumption.
          intros entry Hentry ->. exact (Hno entry Hentry Hv).
      - intros [(setting & v & Hset & Hs & Hv & Htruthy & Hno)
               |[Htool (setting & Hset & Hs & Hno)]].
        + exists setting. repeat split; try assumption.
          * right. exists v. split; assumption.
          * intros entry Hentry Hnamed. rewrite Hv in Hnamed. injection Hnamed as ->.
            exact (Hno entry Hentry eq_refl).
        + exists setting. repeat split; try assumption. left. exact Htool. }
    split.
    + intros Hr. apply Hrefused in Hr as [->|[-> ->]]; [reflexivity|].
      destruct (access_denied env props); reflexivity.
    + intros Hr.
      destruct (access_denied env props) eqn:Hgeneric;
        [destruct Hr; apply Hrefused; left; reflexivity|].
      destruct (jsstring_eqb toolName (js "get_account") && get_account_denied env props)
        eqn:Hcase; [|reflexivity].
      apply andb_true_iff in Hcase. destruct Hr. apply Hrefused. right. exact Hcase.
  - intros accounts a. unfold visible_accounts, get_account_denied.
    rewrite lookup_singleton_eq. cbn [allowed_includes].
    destruct (ALLOWED_ACCOUNT_IDS env) as [setting|]; [|tauto].
    destruct (truthy setting); [|cbn [andb]; tauto].
    rewrite List.filter_In. cbn [andb]. rewrite negb_false_iff. reflexivity.
Qed.

Lemma account_allow_list_witness :
  let env :=
    {| CLOUDFLARE_BOOTSTRAP_TOKEN := js "bootstrap-token"; MCP_API_KEY := js "test-api-key";
       ALLOWED_ACCOUNT_IDS :=
         Some (js "023e105f4ecef8ad9ca31a8372d0c353, 9a7806061c88ada191ed06f989cc3dac");
       RATE_LIMIT_PER_MINUTE := None; ENABLE_AUDIT_LOG := None; RATE_LIMIT_KV := None |} in
  allowed_accounts (js "023e105f4ecef8ad9ca31a8372d0c353, 9a7806061c88ada191ed06f989cc3dac")
  = [js "023e105f4ecef8ad9ca31a8372d0c353"; js "9a7806061c88ada191ed06f989cc3dac"] /\
  fst (executeTool ascii_runtime plain_messages (restricted env succeeding_body)
         (js "get_account") (JObj {[ js "accountId" := JStr [] ]}) env
         (Some (js "203.0.113.7")) (ambient_at 1000) empty_world)
  = Throw access_denied_error /\
  fst (executeTool ascii_runtime plain_messages (restricted env succeeding_body)
         (js "get_token")
         (JObj {[ js "type" := JStr (js "user"); js "accountId" := JStr [];
                  js "tokenId" := JStr (js "ed17574386854bf78a67040be0a770b0") ]}) env
         (Some (js "203.0.113.7")) (ambient_at 1000) empty_world)
  = Ok (js "{}").
Proof.
  intros env.
  destruct (account_allow_list ascii_runtime plain_messages succeeding_body env)
    as (Hread & Hcall & _).
  split; [|split].
  - assert (js "023e105f4ecef8ad9ca31a8372d0c353, 9a7806061c88ada191ed06f989cc3dac"
            = join (js ", ") [js "023e105f4ecef8ad9ca31a8372d0c353";
                              js "9a7806061c88ada191ed06f989cc3dac"]) as ->
      by (vm_compute; reflexivity).
    apply Hread; [discriminate|].
    repeat constructor; try (vm_compute; reflexivity);
      (intros H; vm_compute in H; repeat destruct H as [H|H]; try discriminate H; exact H).
  - destruct (Hcall (js "get_account") _ (JObj {[ js "accountId" := JStr [] ]})
                {[ js "accountId" := JStr [] ]} (Some (js "203.0.113.7")) (ambient_at 1000)
                empty_world eq_refl) as [Hrefused _].
    + vm_compute. reflexivity.
    + intros H. vm_compute in H. discriminate H.
    + apply Hrefused. eexists. split; [reflexivity|]. split; [reflexivity|].
      split; [left; reflexivity|].
      intros entry Hentry. vm_compute in Hentry.
      destruct Hentry as [<-|[<-|[]]]; vm_compute; discriminate.
  - destruct (Hcall (js "get_token") _
                (JObj {[ js "type" := JStr (js "user"); js "accountId" := JStr [];
                         js "tokenId" := JStr (js "ed17574386854bf78a67040be0a770b0") ]})
                {[ js "type" := JStr (js "user"); js "accountId" := JStr [];
                   js "tokenId" := JStr (js "ed17574386854bf78a67040be0a770b0") ]}
                (Some (js "203.0.113.7")) (ambient_at 1000) empty_world eq_refl)
      as [_ Hpass].
    + vm_compute. reflexivity.
    + intros H. vm_compute in H. discriminate H.
    + apply Hpass. intros (setting & _ & _ & [Htool|(v & Hv & Htruthy)] & _).
      * vm_compute in Htool. discriminate Htool.
      * vm_compute in Hv. injection Hv as <-. discriminate Htruthy.
Defined.
